(** * Thurmbox sample loading and the localStorage replacement

    A shallow embedding of [thurmbox/common_code.js]: the sample locator
    ([getSampleDefinitionFromName]), the waveform post-processor
    ([computeCenteredWave], [computeIntegral], [makeArrayOfSameType]), the two
    parsers, the load orchestrator ([startLoadingSampleData]) and the
    [FakeLocalStorage] class.

    JavaScript data is modelled as the engine has it: strings are sequences of
    UTF-16 code units, Numbers are IEEE 754 binary64 values (the Standard
    Library's executable [spec_float]), a [Float32Array] store rounds to
    binary32, a plain array grows when written past its end, and a promise
    chain is a computation over an explicit world that either fulfils or
    rejects. *)

From Stdlib Require Import ZArith NArith QArith Qfield Qpower Qabs Lqa Lia SpecFloat.
From Stdlib Require Strings.String Strings.Ascii.
From stdpp Require Import base option list gmap.
Import Stdlib.Strings.String.StringSyntax Stdlib.Strings.Ascii.AsciiSyntax.

Set Default Proof Using "Type".
Local Open Scope nat_scope.

(** ** Strings *)

(** A JavaScript string: its UTF-16 code units. *)
Abbreviation JsString := (list N).

Bind Scope string_scope with String.string.
Bind Scope char_scope with Ascii.ascii.

Definition codeUnitOfAscii (c : Ascii.ascii) : N := Ascii.N_of_ascii c.

(** [js "abc"] is the JavaScript string with the given ASCII characters. *)
Fixpoint js (s : String.string) : JsString :=
  match s with
  | String.EmptyString => []
  | String.String c s' => codeUnitOfAscii c :: js s'
  end.

(** The line feed, written ["\n"] in the source. *)
Definition LF : N := 10%N.

(** ** Numbers *)

(** The arithmetic the post-processor uses, as an interface: the operators
    [+], [-] and [/] on Numbers, the Number of an array length, the value
    that [undefined] coerces to, and the rounding a [Float32Array] applies
    when an element is stored. *)
Class Arith (num : Type) := {
  zero : num;
  nan : num;
  add : num -> num -> num;
  sub : num -> num -> num;
  div : num -> num -> num;
  of_length : nat -> num;
  fround : num -> num;
}.

(** The JavaScript Number type: IEEE 754 binary64. *)
Definition float64 := spec_float.

Definition prec64 : Z := 53.
Definition emax64 : Z := 1024.
Definition prec32 : Z := 24.
Definition emax32 : Z := 128.

(** The Number with the integer value [z] (rounded if it needs more than 53
    bits). *)
Definition numberOfZ (z : Z) : float64 := binary_normalize prec64 emax64 z 0 false.

(** [Math.fround]: round to the nearest binary32 value, ties to even; the
    result is again a Number, so it is put back in binary64 form (exactly). *)
Definition fround64 (x : float64) : float64 :=
  match x with
  | S754_finite s m e =>
      match binary_normalize prec32 emax32 (cond_Zopp s (Zpos m)) e s with
      | S754_finite s' m' e' => binary_normalize prec64 emax64 (cond_Zopp s' (Zpos m')) e' s'
      | y => y
      end
  | _ => x
  end.

#[export] Instance ieee : Arith float64 := {
  zero := S754_zero false;
  nan := S754_nan;
  add := SFadd prec64 emax64;
  sub := SFsub prec64 emax64;
  div := SFdiv prec64 emax64;
  of_length n := numberOfZ (Z.of_nat n);
  fround := fround64;
}.

(** ** Arrays *)

Section Arrays.
Context {num : Type} {A : Arith num}.

(** What an element read gives: a Number, or [undefined] (a hole, or an
    index past the end). *)
Inductive JsValue : Type :=
| Undefined
| Number (x : num).

(** The array kinds [makeArrayOfSameType] distinguishes. Typed arrays hold
    Numbers and have a fixed length; a plain array holds any value and
    grows. *)
Inductive JsArray : Type :=
| Float32Array (items : list num)
| Float64Array (items : list num)
| PlainArray (items : list JsValue).

(** [a.length] *)
Definition alength (a : JsArray) : nat :=
  match a with
  | Float32Array l | Float64Array l => length l
  | PlainArray l => length l
  end.

(** [a[i]] *)
Definition aget (a : JsArray) (i : nat) : JsValue :=
  match a with
  | Float32Array l | Float64Array l =>
      match l !! i with Some x => Number x | None => Undefined end
  | PlainArray l => default Undefined (l !! i)
  end.

(** The conversion applied to a Number stored in [a]. *)
Definition elementOf (a : JsArray) (v : num) : num :=
  match a with
  | Float32Array _ => fround v
  | Float64Array _ | PlainArray _ => v
  end.

(** [a[i] = v] for a Number [v]. A typed array ignores a write past its
    end; a plain array is extended, the skipped indices becoming holes. *)
Definition aset (a : JsArray) (i : nat) (v : num) : JsArray :=
  match a with
  | Float32Array l => Float32Array (<[i := fround v]> l)
  | Float64Array l => Float64Array (<[i := v]> l)
  | PlainArray l =>
      if decide (i < length l) then PlainArray (<[i := Number v]> l)
      else PlainArray (l ++ replicate (i - length l) Undefined ++ [Number v])
  end.

(** ToNumber on an element: [undefined] becomes NaN. *)
Definition ToNumber (v : JsValue) : num :=
  match v with
  | Undefined => nan
  | Number x => x
  end.

(** *** Source: [makeArrayOfSameType] *)
Definition makeArrayOfSameType (a : JsArray) (length : option nat) : JsArray :=
  let length := match length with None => alength a | Some n => n end in
  match a with
  | Float32Array _ => Float32Array (replicate length zero)
  | Float64Array _ => Float64Array (replicate length zero)
  | PlainArray _ => PlainArray []
  end.

(** *** Source: [computeCenteredWave] *)

(** The first loop: [sum += wave[i]] for [i] from [0] to [wave.length - 1]. *)
Definition waveSum (wave : JsArray) : num :=
  foldl (fun sum i => add sum (ToNumber (aget wave i))) zero (seq 0 (alength wave)).

Definition waveAverage (wave : JsArray) : num :=
  div (waveSum wave) (of_length (alength wave)).

Definition computeCenteredWave (wave result : JsArray) : JsArray :=
  let average := waveAverage wave in
  foldl (fun result i => aset result i (sub (ToNumber (aget wave i)) average))
        result (seq 0 (alength wave)).

(** *** Source: [computeIntegral] *)

(** One iteration of the loop body, on the pair [(cumulative, result)]. *)
Definition integralStep (wave : JsArray) (st : num * JsArray) (i : nat) : num * JsArray :=
  let '(cumulative, result) := st in
  let temp := aget wave i in
  let result := aset result i cumulative in
  (add cumulative (ToNumber temp), result).

Definition computeIntegral (wave result : JsArray) : JsArray :=
  snd (foldl (integralStep wave) (zero, result) (seq 0 (alength wave))).

End Arrays.

Arguments JsValue : clear implicits.
Arguments JsArray : clear implicits.

(** ** Errors and completions *)

(** The exceptions that occur: the [Error] the loader creates, the engine's
    own [TypeError] and [URIError], and whatever a platform call rejects
    with. *)
Inductive JsError : Type :=
| Error (message : JsString)
| TypeError (message : JsString)
| URIError (message : JsString)
| DOMException (name : JsString).

(** How a synchronous call ends: it returns a value or throws. *)
Inductive Completion (T : Type) : Type :=
| Return (v : T)
| Throw (e : JsError).
Arguments Return {T} v.
Arguments Throw {T} e.

Definition completionMap {T U : Type} (f : T -> U) (c : Completion T) : Completion U :=
  match c with
  | Return v => Return (f v)
  | Throw e => Throw e
  end.

(** ** String operations of the engine *)

Local Open Scope N_scope.

Definition inRange (lo hi c : N) : bool := (lo <=? c) && (c <=? hi).

Definition isDecimalDigit (c : N) : bool := inRange 48 57 c.
Definition isUpperAlpha (c : N) : bool := inRange 65 90 c.
Definition isLowerAlpha (c : N) : bool := inRange 97 122 c.

(** *** [String.prototype.split] with a one-character separator *)
Fixpoint split (sep : N) (s : JsString) : list JsString :=
  match s with
  | [] => [[]]
  | c :: s' =>
      if c =? sep then [] :: split sep s'
      else match split sep s' with
           | line :: lines => (c :: line) :: lines
           | [] => [[c]]
           end
  end.

(** *** StringToNumber (the unary [+] on a string) *)

(** WhiteSpace and LineTerminator code points, which StringToNumber strips
    from both ends. *)
Definition isStrWhiteSpaceChar (c : N) : bool :=
  inRange 9 13 c || (c =? 32) || (c =? 160) || (c =? 5760) || inRange 8192 8202 c
  || (c =? 8232) || (c =? 8233) || (c =? 8239) || (c =? 8287) || (c =? 12288)
  || (c =? 65279).

Fixpoint trimStart (s : JsString) : JsString :=
  match s with
  | c :: s' => if isStrWhiteSpaceChar c then trimStart s' else s
  | [] => []
  end.

Definition trimString (s : JsString) : JsString :=
  rev (trimStart (rev (trimStart s))).

(** The value of a digit in the given radix, if it is one. *)
Definition digitValue (radix c : N) : option Z :=
  let v := if isDecimalDigit c then Some (c - 48)
           else if inRange 97 102 c then Some (c - 87)
           else if inRange 65 70 c then Some (c - 55)
           else None in
  match v with
  | Some d => if d <? radix then Some (Z.of_N d) else None
  | None => None
  end.

(** The integer written by a sequence of digits, most significant first;
    [None] when a character is not a digit of the radix. *)
Fixpoint digitsValue (radix : N) (acc : Z) (s : JsString) : option Z :=
  match s with
  | [] => Some acc
  | c :: s' =>
      match digitValue radix c with
      | Some d => digitsValue radix (Z.of_N radix * acc + d)%Z s'
      | None => None
      end
  end.

(** The longest prefix of decimal digits, and the rest. *)
Fixpoint spanDigits (s : JsString) : JsString * JsString :=
  match s with
  | c :: s' =>
      if isDecimalDigit c then let '(ds, rest) := spanDigits s' in (c :: ds, rest)
      else ([], s)
  | [] => ([], [])
  end.

(** NonDecimalIntegerLiteral: [0x], [0o] or [0b] and at least one digit. *)
Definition parseNonDecimal (s : JsString) : option Z :=
  match s with
  | 48 :: p :: (_ :: _) as ds =>
      if (p =? 120) || (p =? 88) then digitsValue 16 0 ds
      else if (p =? 111) || (p =? 79) then digitsValue 8 0 ds
      else if (p =? 98) || (p =? 66) then digitsValue 2 0 ds
      else None
  | _ => None
  end.

(** ExponentPart, which must consume the rest of the literal: nothing, or
    [e]/[E], an optional sign and at least one digit. *)
Definition parseExponent (s : JsString) : option Z :=
  match s with
  | [] => Some 0%Z
  | e :: s' =>
      if (e =? 101) || (e =? 69) then
        let '(negative, ds) :=
          match s' with
          | 43 :: r => (false, r)
          | 45 :: r => (true, r)
          | _ => (false, s')
          end in
        match ds with
        | [] => None
        | _ => option_map (fun v => if negative : bool then (- v)%Z else v) (digitsValue 10 0 ds)
        end
      else None
  end.

(** StrUnsignedDecimalLiteral other than [Infinity]: digits with an optional
    fraction and exponent. The result [(m, e)] stands for [m * 10^e]. *)
Definition parseDecimal (s : JsString) : option (Z * Z) :=
  let '(intDigits, rest) := spanDigits s in
  let '(fracDigits, rest) :=
    match rest with
    | 46 :: r => spanDigits r
    | _ => ([], rest)
    end in
  match intDigits ++ fracDigits with
  | [] => None
  | ds =>
      match digitsValue 10 0 ds, parseExponent rest with
      | Some m, Some e => Some (m, (e - Z.of_nat (length fracDigits))%Z)
      | _, _ => None
      end
  end.

(** The Number nearest to [m * 10^e], ties to even, with the sign given. *)
Definition decimalToNumber (negative : bool) (m e : Z) : float64 :=
  match m with
  | Zpos p =>
      if (0 <=? e)%Z then binary_normalize prec64 emax64 (cond_Zopp negative (m * 10 ^ e)%Z) 0 negative
      else SFdiv prec64 emax64 (S754_finite negative p 0)
                               (S754_finite false (Z.to_pos (10 ^ (- e))) 0)
  | _ => S754_zero negative
  end.

Definition StringToNumber (str : JsString) : float64 :=
  match trimString str with
  | [] => S754_zero false
  | s =>
      match parseNonDecimal s with
      | Some z => numberOfZ z
      | None =>
          let '(negative, body) :=
            match s with
            | 43 :: r => (false, r)
            | 45 :: r => (true, r)
            | _ => (false, s)
            end in
          if decide (body = js "Infinity") then S754_infinity negative
          else match parseDecimal body with
               | Some (m, e) => decimalToNumber negative m e
               | None => S754_nan
               end
      end
  end.

(** *** [encodeURIComponent] *)

(** The characters left as they are: letters, digits and [-_.!~*'()]. *)
Definition isUnescaped (c : N) : bool :=
  isUpperAlpha c || isLowerAlpha c || isDecimalDigit c
  || bool_decide (c ∈ js "-_.!~*'()").

Definition isLeadingSurrogate (c : N) : bool := inRange 55296 56319 c.
Definition isTrailingSurrogate (c : N) : bool := inRange 56320 57343 c.

(** The code point of a surrogate pair. *)
Definition surrogatePair (lead trail : N) : N :=
  (lead - 55296) * 1024 + (trail - 56320) + 65536.

(** The UTF-8 octets of a code point. *)
Definition utf8Octets (cp : N) : list N :=
  if cp <? 128 then [cp]
  else if cp <? 2048 then [192 + cp / 64; 128 + cp mod 64]
  else if cp <? 65536 then [224 + cp / 4096; 128 + (cp / 64) mod 64; 128 + cp mod 64]
  else [240 + cp / 262144; 128 + (cp / 4096) mod 64; 128 + (cp / 64) mod 64; 128 + cp mod 64].

Definition upperHexDigit (d : N) : N := if d <? 10 then 48 + d else 55 + d.

(** [%XX] for one octet. *)
Definition percentOctet (b : N) : JsString :=
  [37; upperHexDigit (b / 16); upperHexDigit (b mod 16)].

Definition percentEncode (cp : N) : JsString :=
  concat (map percentOctet (utf8Octets cp)).

Definition uriMalformed : JsError := URIError (js "URI malformed").

(** The Encode operation: a surrogate that is not part of a pair makes it
    throw a [URIError]. *)
Fixpoint encodeURIComponent (s : JsString) : Completion JsString :=
  match s with
  | [] => Return []
  | c :: rest =>
      if isUnescaped c then completionMap (cons c) (encodeURIComponent rest)
      else if isLeadingSurrogate c then
        match rest with
        | c2 :: rest' =>
            if isTrailingSurrogate c2
            then completionMap (app (percentEncode (surrogatePair c c2))) (encodeURIComponent rest')
            else Throw uriMalformed
        | [] => Throw uriMalformed
        end
      else if isTrailingSurrogate c then Throw uriMalformed
      else completionMap (app (percentEncode c)) (encodeURIComponent rest)
  end.

(** *** Regular expressions of the folder table *)

(** The patterns used are all of the shape [/^[...]/] or [/^[...]/i]: a
    character class, given by inclusive ranges, anchored at the start. *)
Record RegExp : Type := {
  classRanges : list (N * N);
  ignoreCase : bool;
}.

(** Canonicalize of a pattern without the [u] flag: with [i], a character
    is compared by its upper case. Only the folding of ASCII letters is
    modelled, which is exact for the ASCII classes of the folder table (a
    character outside ASCII never canonicalizes to an ASCII one). *)
Definition canonicalize (re : RegExp) (c : N) : N :=
  if ignoreCase re && isLowerAlpha c then c - 32 else c.

(** The members of an inclusive range. *)
Definition rangeMembers (r : N * N) : list N :=
  map N.of_nat (seq (N.to_nat (fst r)) (N.to_nat (snd r + 1 - fst r))).

(** Does the class contain a member that canonicalizes like [c]? *)
Definition classMatches (re : RegExp) (c : N) : bool :=
  existsb (fun r => existsb (fun a => canonicalize re a =? canonicalize re c) (rangeMembers r))
          (classRanges re).

(** [name.match(re)] as a truth value: not [null] exactly when the first
    character is in the class. *)
Definition regexpMatch (name : JsString) (re : RegExp) : bool :=
  match name with
  | c :: _ => classMatches re c
  | [] => false
  end.

Local Close Scope N_scope.

(** ** Configuration *)

(** The five global tables and strings at the top of the source, gathered in
    one value. [DEFAULT_FOLDER_MAPPINGS] is a [Map] that is only iterated, in
    insertion order; [SAMPLE_URL_TABLE] is a [Map] that is only looked up. *)
Record Config : Type := {
  DEFAULT_SAMPLE_URL_PREFIX : JsString;
  DEFAULT_SAMPLE_URL_SUFFIX : JsString;
  DEFAULT_SAMPLE_FORMAT : JsString;
  DEFAULT_FOLDER_MAPPINGS : list (JsString * RegExp);
  SAMPLE_URL_TABLE : gmap JsString (JsString * JsString);
}.

(** [/^[...]/i] *)
Definition anchoredClass_i (ranges : list (N * N)) : RegExp :=
  {| classRanges := ranges; ignoreCase := true |}.

(** The range [[a-b]] of two ASCII characters, and the single character. *)
Definition range (a b : Ascii.ascii) : N * N := (codeUnitOfAscii a, codeUnitOfAscii b).
Definition char (a : Ascii.ascii) : N * N := range a a.

(** The configuration as the source has it. *)
Definition thurmbox : Config := {|
  DEFAULT_SAMPLE_URL_PREFIX := js "https://file.garden/ZMQ0Om5nmTe-x2hq/PandoraArchive%20Samples/";
  DEFAULT_SAMPLE_URL_SUFFIX := js ".wav";
  DEFAULT_SAMPLE_FORMAT := js "wav";
  DEFAULT_FOLDER_MAPPINGS := [
    (js "0-9%20and%20A/", anchoredClass_i [range "0" "9"; char "a"]);
    (js "B/", anchoredClass_i [char "b"]);
    (js "CD/", anchoredClass_i [char "c"; char "d"]);
    (js "EF/", anchoredClass_i [char "e"; char "f"]);
    (js "GH/", anchoredClass_i [char "g"; char "h"]);
    (js "IJKL/", anchoredClass_i [char "i"; char "j"; char "k"; char "l"]);
    (js "M/", anchoredClass_i [char "m"]);
    (js "NO/", anchoredClass_i [char "n"; char "o"]);
    (js "P/", anchoredClass_i [char "p"]);
    (js "QR/", anchoredClass_i [char "q"; char "r"]);
    (js "S/", anchoredClass_i [char "s"]);
    (js "TUV/", anchoredClass_i [char "t"; char "u"; char "v"]);
    (js "WXYZ/", anchoredClass_i [char "w"; char "x"; char "y"; char "z"])
  ];
  SAMPLE_URL_TABLE := ∅;
|}.

(** ** The sample locator *)

Record SampleDefinition : Type := {
  url : JsString;
  format : JsString;
}.

(** The [for ... of] loop with its [break]: the folder of the first entry
    whose pattern matches, the empty string when none does. *)
Fixpoint folderFor (name : JsString) (entries : list (JsString * RegExp)) : JsString :=
  match entries with
  | [] => []
  | (possibleFolderName, nameMatcher) :: entries' =>
      if regexpMatch name nameMatcher then possibleFolderName
      else folderFor name entries'
  end.

(** *** Source: [getSampleDefinitionFromName]

    A table entry is a pair of strings, so [url == null] holds after the
    first [if] exactly when the name has no entry. The call throws only if
    [encodeURIComponent] does. *)
Definition getSampleDefinitionFromName (cfg : Config) (name : JsString)
  : Completion SampleDefinition :=
  match SAMPLE_URL_TABLE cfg !! name with
  | Some tableEntry => Return {| url := tableEntry.1; format := tableEntry.2 |}
  | None =>
      match encodeURIComponent name with
      | Throw e => Throw e
      | Return percentEncodedName =>
          let folderName := folderFor name (DEFAULT_FOLDER_MAPPINGS cfg) in
          Return {| url := DEFAULT_SAMPLE_URL_PREFIX cfg ++ folderName
                           ++ percentEncodedName ++ DEFAULT_SAMPLE_URL_SUFFIX cfg;
                    format := DEFAULT_SAMPLE_FORMAT cfg |}
      end
  end.

(** ** Promises *)

(** How a promise settles. *)
Inductive Settled (T : Type) : Type :=
| Fulfilled (v : T)
| Rejected (e : JsError).
Arguments Fulfilled {T} v.
Arguments Rejected {T} e.

Definition settledMap {T U : Type} (f : T -> U) (r : Settled T) : Settled U :=
  match r with
  | Fulfilled v => Fulfilled (f v)
  | Rejected e => Rejected e
  end.

(** An asynchronous computation over a state [S]: run to the point where
    its promise has settled, it has changed the state and fulfilled or
    rejected. A handler that throws rejects. *)
Definition Async (S T : Type) : Type := S -> Settled T * S.

Definition resolve {S T : Type} (v : T) : Async S T := fun s => (Fulfilled v, s).
Definition reject {S T : Type} (e : JsError) : Async S T := fun s => (Rejected e, s).

(** A promise of the platform, which settles without touching the state. *)
Definition settled {S T : Type} (r : Settled T) : Async S T := fun s => (r, s).

(** [p.then(f)] *)
Definition then_ {S T U : Type} (p : Async S T) (f : T -> Async S U) : Async S U :=
  fun s =>
    match p s with
    | (Fulfilled v, s') => f v s'
    | (Rejected e, s') => (Rejected e, s')
    end.

(** [p.catch(g)] *)
Definition catch_ {S T : Type} (p : Async S T) (g : JsError -> Async S T) : Async S T :=
  fun s =>
    match p s with
    | (Fulfilled v, s') => (Fulfilled v, s')
    | (Rejected e, s') => g e s'
    end.

Declare Scope async_scope.
Delimit Scope async_scope with async.
Notation "p 'THEN' f" := (then_ p f) (at level 50, left associativity) : async_scope.
Notation "p 'CATCH' g" := (catch_ p g) (at level 50, left associativity) : async_scope.

(** ** The world of the loader *)

(** What a parser hands to the last [then]: the waveform, or [undefined]. *)
Inductive SampleData : Type :=
| NoData
| Samples (a : JsArray float64).

(** The part of the browser the loader acts on: the [samples] property of
    the chip wave objects (by object identity), the lines [console.error]
    has printed (oldest first), and, for every [AudioContext] created so
    far, how many times its [close] was called. *)
Record World : Type := {
  chipWaves : gmap nat SampleData;
  console : list JsError;
  audioContexts : list nat;
}.

Definition ArrayBuffer := list N.

(** A decoded [AudioBuffer]: it has at least one channel. *)
Record AudioBuffer : Type := {
  leftChannel : list float64;
  otherChannels : list (list float64);
}.

(** [audioBuffer.getChannelData(0)] *)
Definition getChannelData0 (audioBuffer : AudioBuffer) : JsArray float64 :=
  Float32Array (leftChannel audioBuffer).

(** A response body as read by [response.text()] or by
    [response.arrayBuffer()]. *)
Inductive Body : Type :=
| TextBody (s : JsString)
| BufferBody (b : ArrayBuffer).

Record Response : Type := {
  ok : bool;
  text : Settled JsString;
  arrayBuffer : Settled ArrayBuffer;
}.

(** The answers of the platform: what [fetch] settles to for a URL, and
    what [decodeAudioData] settles to for a buffer. *)
Record Platform : Type := {
  fetch : JsString -> Settled Response;
  decodeAudioData : ArrayBuffer -> Settled AudioBuffer;
}.

(** [obj.samples = v] *)
Definition setSamples (obj : nat) (v : SampleData) (w : World) : World :=
  {| chipWaves := <[obj := v]> (chipWaves w);
     console := console w;
     audioContexts := audioContexts w |}.

(** [console.error(e)] *)
Definition consoleError (e : JsError) (w : World) : World :=
  {| chipWaves := chipWaves w;
     console := console w ++ [e];
     audioContexts := audioContexts w |}.

(** [new AudioContext(...)]: the new context and the world that has it. *)
Definition newAudioContext (w : World) : nat * World :=
  (length (audioContexts w),
   {| chipWaves := chipWaves w;
      console := console w;
      audioContexts := audioContexts w ++ [0] |}).

(** [ctx.close()] *)
Definition closeAudioContext (ctx : nat) (w : World) : World :=
  {| chipWaves := chipWaves w;
     console := console w;
     audioContexts := alter S ctx (audioContexts w) |}.

(** ** The parsers *)

(** The array [parsed] of [parseTextSample] when its loop is done: one
    element per line, the line converted by unary [+]. *)
Definition parseTextLines (data : JsString) : JsArray float64 :=
  let lines := split LF data in
  let waveLength := length lines in
  let parsed := Float32Array (replicate waveLength zero) in
  foldl (fun parsed i =>
           aset parsed i (match lines !! i with
                          | Some line => StringToNumber line
                          | None => nan
                          end))
        parsed (seq 0 waveLength).

(** The value [parseTextSample] resolves with. *)
Definition parseTextWave (data : JsString) : JsArray float64 :=
  let parsed := parseTextLines data in
  computeCenteredWave parsed (makeArrayOfSameType parsed (Some (alength parsed + 1))).

(** *** Source: [parseTextSample]

    The executor runs at once; on anything but a string [data.split] is not
    a function, and the exception rejects the promise. *)
Definition parseTextSample {S : Type} (data : Body) : Async S SampleData :=
  match data with
  | TextBody data => resolve (Samples (parseTextWave data))
  | BufferBody _ => reject (TypeError (js "data.split is not a function"))
  end.

(** [ctx.decodeAudioData(data)]: anything but an [ArrayBuffer] is rejected
    with a [TypeError]. *)
Definition decodeAudioDataOf (P : Platform) (data : Body) : Settled AudioBuffer :=
  match data with
  | BufferBody b => decodeAudioData P b
  | TextBody _ => Rejected (TypeError (js "parameter 1 is not of type 'ArrayBuffer'"))
  end.

(** *** Source: [parseSampleWithWebAudio]

    The chain runs over the world and the local variable
    [closedSampleLoaderAudioContext], which both handlers read and set. *)
Definition closeOnce (sampleLoaderAudioContext : nat) (s : World * bool) : World * bool :=
  let '(w, closedSampleLoaderAudioContext) := s in
  if negb closedSampleLoaderAudioContext
  then (closeAudioContext sampleLoaderAudioContext w, true)
  else (w, closedSampleLoaderAudioContext).

Definition parseSampleWithWebAudio (P : Platform) (data : Body) : Async World SampleData :=
  fun w =>
    let '(sampleLoaderAudioContext, w) := newAudioContext w in
    let closedSampleLoaderAudioContext := false in
    let chain : Async (World * bool) SampleData :=
      (settled (decodeAudioDataOf P data)
        THEN (fun audioBuffer s =>
          let leftChannelSamples := getChannelData0 audioBuffer in
          let rawSamples :=
            computeCenteredWave leftChannelSamples
              (makeArrayOfSameType leftChannelSamples (Some (alength leftChannelSamples + 1))) in
          let s := closeOnce sampleLoaderAudioContext s in
          (Fulfilled (Samples rawSamples), s))
        CATCH (fun error s =>
          let s := closeOnce sampleLoaderAudioContext s in
          (Fulfilled NoData, s)))%async in
    let '(r, (w, _)) := chain (w, closedSampleLoaderAudioContext) in
    (r, w).

(** ** The load orchestrator *)

Definition couldNotLoad (name url : JsString) : JsError :=
  Error (js "Couldn't load sample " ++ name ++ js " at " ++ url).

Definition isTxt (format : JsString) : bool := bool_decide (format = js "txt").

(** The last [then] handler. With [parsed] undefined, [makeArrayOfSameType]
    reads [a.length] of [undefined] and throws a [TypeError]; this happens
    after the assignment to [chipWaveRaw.samples]. *)
Definition storeParsed (chipWaveRaw chipWaveIntegral : option nat) (parsed : SampleData)
  : Async World () :=
  fun w =>
    let w := match chipWaveRaw with
             | Some obj => setSamples obj parsed w
             | None => w
             end in
    match chipWaveIntegral with
    | Some obj =>
        match parsed with
        | Samples a =>
            let integralData := computeIntegral a (makeArrayOfSameType a None) in
            (Fulfilled (), setSamples obj (Samples integralData) w)
        | NoData =>
            (Rejected (TypeError (js "Cannot read properties of undefined (reading 'length')")), w)
        end
    | None => (Fulfilled (), w)
    end.

(** The promise chain of [startLoadingSampleData] for a resolved
    definition. *)
Definition loadChain (P : Platform) (name url format : JsString)
    (chipWaveRaw chipWaveIntegral : option nat) : Async World () :=
  (settled (fetch P url)
    THEN (fun response =>
      if negb (ok response) then reject (couldNotLoad name url)
      else if isTxt format then settled (settledMap TextBody (text response))
      else settled (settledMap BufferBody (arrayBuffer response)))
    THEN (fun arrayBuffer =>
      if isTxt format then parseTextSample arrayBuffer
      else parseSampleWithWebAudio P arrayBuffer)
    THEN (storeParsed chipWaveRaw chipWaveIntegral)
    CATCH (fun error w => (Fulfilled (), consoleError error w)))%async.

(** *** Source: [startLoadingSampleData]

    The call itself returns at once (or throws, if the locator does); the
    world given back is the one in which the chain it started has run to its
    end. [chipWaveRaw] and [chipWaveIntegral] are object references or
    [null]. *)
Definition startLoadingSampleData (cfg : Config) (P : Platform) (name : JsString)
    (chipWaveRaw chipWaveIntegral : option nat) (w : World) : Completion () * World :=
  match getSampleDefinitionFromName cfg name with
  | Throw e => (Throw e, w)
  | Return sampleDefinition =>
      let url := url sampleDefinition in
      let format := format sampleDefinition in
      (Return (), (loadChain P name url format chipWaveRaw chipWaveIntegral w).2)
  end.

(** ** The localStorage replacement *)

(** A request sent to the object store inside a transaction. *)
Inductive IDBRequest : Type :=
| PutRequest (value key : JsString)
| DeleteRequest (key : JsString)
| ClearRequest.

(** An open database handle. *)
Inductive IDBDatabase : Type :=
| Database (name : JsString).

(** The part of the browser the class acts on: the persisted object store,
    the requests that were issued and whose outcome is still to come
    (oldest first), and the console. *)
Record Browser : Type := {
  idbStore : gmap JsString JsString;
  idbPending : list IDBRequest;
  messages : list JsString;
}.

(** How [indexedDB.open] turns out: it fails, or it gives a handle; then
    the cursor over the stored entries runs to the end or fails after some
    entries. *)
Inductive OpenOutcome : Type :=
| OpenFails
| OpenSucceeds (database : IDBDatabase) (cursorFailsAfter : option nat).

(** The fields of an instance. [_database] is [null] until the database is
    open. *)
Record FakeLocalStorage : Type := {
  _databaseName : JsString;
  _storeName : JsString;
  _inMemoryData : gmap JsString JsString;
  _database : option IDBDatabase;
}.

(** Appending the empty string, for a string. *)
Definition convertToString (value : JsString) : JsString := value ++ [].

Definition onlyInMemory : bool := false.

(** The constructor. *)
Definition newFakeLocalStorage (databaseName : JsString) : FakeLocalStorage :=
  {| _databaseName := databaseName;
     _storeName := js "fakeLocalStorage";
     _inMemoryData := ∅;
     _database := None |}.

Definition withInMemoryData (this : FakeLocalStorage) (m : gmap JsString JsString)
  : FakeLocalStorage :=
  {| _databaseName := _databaseName this;
     _storeName := _storeName this;
     _inMemoryData := m;
     _database := _database this |}.

Definition withDatabase (this : FakeLocalStorage) (database : IDBDatabase) : FakeLocalStorage :=
  {| _databaseName := _databaseName this;
     _storeName := _storeName this;
     _inMemoryData := _inMemoryData this;
     _database := Some database |}.

Definition issue (request : IDBRequest) (b : Browser) : Browser :=
  {| idbStore := idbStore b;
     idbPending := idbPending b ++ [request];
     messages := messages b |}.

Definition consoleMessage (message : JsString) (b : Browser) : Browser :=
  {| idbStore := idbStore b;
     idbPending := idbPending b;
     messages := messages b ++ [message] |}.

(** *** Internal API *)

(** [null] is [None]. *)
Definition _getItemInMemory (key : JsString) (this : FakeLocalStorage) : option JsString :=
  let key := convertToString key in
  let result := None in
  if bool_decide (is_Some (_inMemoryData this !! key))
  then _inMemoryData this !! key
  else result.

Definition _setItemInMemory (key value : JsString) (this : FakeLocalStorage) : FakeLocalStorage :=
  let key := convertToString key in
  let value := convertToString value in
  withInMemoryData this (<[key := value]> (_inMemoryData this)).

Definition _removeItemInMemory (key : JsString) (this : FakeLocalStorage) : FakeLocalStorage :=
  let key := convertToString key in
  withInMemoryData this (delete key (_inMemoryData this)).

Definition _clearInMemory (this : FakeLocalStorage) : FakeLocalStorage :=
  withInMemoryData this ∅.

(** The asynchronous halves return at once: without a database they do
    nothing, with one they issue a request whose outcome comes later. *)
Definition _setItemAsync (key value : JsString) (this : FakeLocalStorage) (b : Browser) : Browser :=
  match _database this with
  | None => b
  | Some _ =>
      let key := convertToString key in
      let value := convertToString value in
      issue (PutRequest value key) b
  end.

Definition _removeItemAsync (key : JsString) (this : FakeLocalStorage) (b : Browser) : Browser :=
  match _database this with
  | None => b
  | Some _ =>
      let key := convertToString key in
      issue (DeleteRequest key) b
  end.

Definition _clearAsync (this : FakeLocalStorage) (b : Browser) : Browser :=
  match _database this with
  | None => b
  | Some _ => issue ClearRequest b
  end.

(** The outcome of the oldest pending request arrives: on success the store
    changes, on error a line is printed; either way the promise resolves. *)
Definition requestFailed (request : IDBRequest) : JsString :=
  match request with
  | PutRequest _ key => js "Couldn't set value for the " ++ key ++ js " key in IndexedDB."
  | DeleteRequest key => js "Couldn't remove value for the " ++ key ++ js " key in IndexedDB."
  | ClearRequest => js "Couldn't clear IndexedDB store."
  end.

Definition applyRequest (request : IDBRequest) (store : gmap JsString JsString)
  : gmap JsString JsString :=
  match request with
  | PutRequest value key => <[key := value]> store
  | DeleteRequest key => delete key store
  | ClearRequest => ∅
  end.

Definition completeRequest (succeeds : bool) (b : Browser) : Browser :=
  match idbPending b with
  | [] => b
  | request :: pending =>
      if succeeds
      then {| idbStore := applyRequest request (idbStore b);
              idbPending := pending;
              messages := messages b |}
      else {| idbStore := idbStore b;
              idbPending := pending;
              messages := messages b ++ [requestFailed request] |}
  end.

(** *** localStorage API *)

Definition getItem (key : JsString) (this : FakeLocalStorage) : option JsString :=
  _getItemInMemory key this.

Definition setItem (key value : JsString) (s : FakeLocalStorage * Browser)
  : FakeLocalStorage * Browser :=
  let '(this, b) := s in
  let this := _setItemInMemory key value this in
  (this, _setItemAsync key value this b).

Definition removeItem (key : JsString) (s : FakeLocalStorage * Browser)
  : FakeLocalStorage * Browser :=
  let '(this, b) := s in
  let this := _removeItemInMemory key this in
  (this, _removeItemAsync key this b).

Definition clear (s : FakeLocalStorage * Browser) : FakeLocalStorage * Browser :=
  let '(this, b) := s in
  let this := _clearInMemory this in
  (this, _clearAsync this b).

(** *** Initialization *)

(** [_loadAllPreviouslyStoredData]: the cursor hands over the stored
    entries one by one (their keys are distinct, so the order does not
    matter); if its request fails, a line is printed and what was read so
    far stays. *)
Definition _loadAllPreviouslyStoredData (cursorFailsAfter : option nat)
    (s : FakeLocalStorage * Browser) : FakeLocalStorage * Browser :=
  let '(this, b) := s in
  let entries := map_to_list (idbStore b) in
  let read l := foldl (fun this entry => _setItemInMemory entry.1 entry.2 this) this l in
  match cursorFailsAfter with
  | None => (read entries, b)
  | Some n =>
      (read (take n entries),
       consoleMessage (js "Couldn't load data previously stored in IndexedDB database.") b)
  end.

(** [_initialize], up to the point where its promise resolves. *)
Definition _initialize (open : OpenOutcome) (s : FakeLocalStorage * Browser)
  : FakeLocalStorage * Browser :=
  let '(this, b) := s in
  if onlyInMemory then (this, consoleMessage (js "Storing data in memory only.") b)
  else
    match open with
    | OpenFails =>
        (this, consoleMessage
                 (js "Couldn't open IndexedDB database, storing data in memory only.") b)
    | OpenSucceeds database cursorFailsAfter =>
        let this := withDatabase this database in
        _loadAllPreviouslyStoredData cursorFailsAfter (this, b)
    end.

(** [initializeFakeLocalStorage]: the object that becomes
    [window.localStorage] when the promise resolves. *)
Definition initializeFakeLocalStorage (databaseName : JsString) (open : OpenOutcome)
    (b : Browser) : FakeLocalStorage * Browser :=
  let fakeLocalStorage := newFakeLocalStorage databaseName in
  _initialize open (fakeLocalStorage, b).

(** A call of the synchronous API, and a sequence of calls. *)
Inductive StorageCall : Type :=
| CallSetItem (key value : JsString)
| CallRemoveItem (key : JsString)
| CallClear.

Definition call (s : FakeLocalStorage * Browser) (c : StorageCall) : FakeLocalStorage * Browser :=
  match c with
  | CallSetItem key value => setItem key value s
  | CallRemoveItem key => removeItem key s
  | CallClear => clear s
  end.

(** What the calls do to a plain map of strings. *)
Definition mirrorCall (m : gmap JsString JsString) (c : StorageCall) : gmap JsString JsString :=
  match c with
  | CallSetItem key value => <[key := value]> m
  | CallRemoveItem key => delete key m
  | CallClear => ∅
  end.

(** ** Notions used to state the properties *)

Section Running.
Context {num : Type} {A : Arith num}.

(** The loop [for (i = 0; i < n; i++) result[i] = f(i)]. *)
Definition fillLoop (f : nat -> num) (result : JsArray num) (n : nat) : JsArray num :=
  foldl (fun result i => aset result i (f i)) result (seq 0 n).

(** [wave[0] + ... + wave[i-1]], added from the left starting at [0]: the
    value of [cumulative] when iteration [i] of [computeIntegral] begins,
    and of [sum] after [i] iterations of the first loop of
    [computeCenteredWave]. *)
Definition runningSum (wave : JsArray num) (i : nat) : num :=
  foldl (fun sum j => add sum (ToNumber (aget wave j))) zero (seq 0 i).

(** A write at [i] takes effect: always in a plain array, within the
    length in a typed one. *)
Definition writable (a : JsArray num) (i : nat) : Prop :=
  match a with
  | PlainArray _ => True
  | _ => i < alength a
  end.

Definition isFloat32Array (a : JsArray num) : bool :=
  match a with
  | Float32Array _ => true
  | _ => false
  end.

Definition isPlainArray (a : JsArray num) : bool :=
  match a with
  | PlainArray _ => true
  | _ => false
  end.
End Running.

(** The sum of a list of rationals. *)
Definition Qsum (l : list Q) : Q := foldr Qplus 0%Q l.

(** [==] on Numbers. *)
Definition numEq (x y : float64) : bool := SFeqb x y.

(** The first stages of a load succeed for the definition and leave the
    samples [decoded], not yet centered: for the text format the lines
    converted to Numbers, otherwise the left channel of the decoded audio. *)
Inductive Decodes (P : Platform) (def : SampleDefinition) : JsArray float64 -> Prop :=
| decodes_text response data :
    isTxt (format def) = true ->
    fetch P (url def) = Fulfilled response ->
    ok response = true ->
    text response = Fulfilled data ->
    Decodes P def (parseTextLines data)
| decodes_audio response data audioBuffer :
    isTxt (format def) = false ->
    fetch P (url def) = Fulfilled response ->
    ok response = true ->
    arrayBuffer response = Fulfilled data ->
    decodeAudioData P data = Fulfilled audioBuffer ->
    Decodes P def (getChannelData0 audioBuffer).

(** The world after a context was created and closed once. *)
Definition withClosedContext (w : World) : World :=
  {| chipWaves := chipWaves w;
     console := console w;
     audioContexts := audioContexts w ++ [1] |}.

(** What the generic parser resolves with. *)
Definition webAudioResult (P : Platform) (data : Body) : SampleData :=
  match decodeAudioDataOf P data with
  | Fulfilled audioBuffer =>
      let leftChannelSamples := getChannelData0 audioBuffer in
      Samples (computeCenteredWave leftChannelSamples
                 (makeArrayOfSameType leftChannelSamples (Some (alength leftChannelSamples + 1))))
  | Rejected _ => NoData
  end.

(** [String.prototype.isWellFormed]: no surrogate outside a pair. *)
Fixpoint isWellFormed (s : JsString) : bool :=
  match s with
  | [] => true
  | c :: rest =>
      if isLeadingSurrogate c then
        match rest with
        | c2 :: rest' => isTrailingSurrogate c2 && isWellFormed rest'
        | [] => false
        end
      else negb (isTrailingSurrogate c) && isWellFormed rest
  end.

(** An ASCII letter in the other case; any other character unchanged. *)
Definition swapCase (c : N) : N :=
  if isLowerAlpha c then (c - 32)%N
  else if isUpperAlpha c then (c + 32)%N
  else c.

(** The text sample ["1\n-1\n0\n"]. *)
Definition textSample : JsString :=
  js "1" ++ LF :: js "-1" ++ LF :: js "0" ++ [LF].

(** A platform that serves the given text for every URL. *)
Definition servesText (data : JsString) : Platform :=
  {| fetch _ := Fulfilled {| ok := true;
                             text := Fulfilled data;
                             arrayBuffer := Rejected (TypeError (js "body used already")) |};
     decodeAudioData _ := Rejected (DOMException (js "EncodingError")) |}.

(** A platform that serves bytes for every URL and cannot decode them. *)
Definition servesUndecodable (bytes : ArrayBuffer) : Platform :=
  {| fetch _ := Fulfilled {| ok := true;
                             text := Rejected (TypeError (js "body used already"));
                             arrayBuffer := Fulfilled bytes |};
     decodeAudioData _ := Rejected (DOMException (js "EncodingError")) |}.

(** The configuration of the commented-out lines of the source: local
    files in the text format. *)
Definition thurmboxTxt : Config :=
  {| DEFAULT_SAMPLE_URL_PREFIX := js "./samples/";
     DEFAULT_SAMPLE_URL_SUFFIX := js ".txt";
     DEFAULT_SAMPLE_FORMAT := js "txt";
     DEFAULT_FOLDER_MAPPINGS := DEFAULT_FOLDER_MAPPINGS thurmbox;
     SAMPLE_URL_TABLE := SAMPLE_URL_TABLE thurmbox |}.

(** A configuration with the override the source gives as an example. *)
Definition thurmboxWithHihat : Config :=
  {| DEFAULT_SAMPLE_URL_PREFIX := DEFAULT_SAMPLE_URL_PREFIX thurmbox;
     DEFAULT_SAMPLE_URL_SUFFIX := DEFAULT_SAMPLE_URL_SUFFIX thurmbox;
     DEFAULT_SAMPLE_FORMAT := DEFAULT_SAMPLE_FORMAT thurmbox;
     DEFAULT_FOLDER_MAPPINGS := DEFAULT_FOLDER_MAPPINGS thurmbox;
     SAMPLE_URL_TABLE := {[ js "Hihat" := (js "https://example.com/file.wav", js "wav") ]} |}.

(** Placeholder waveforms, and a world in which objects [0] and [1] hold
    them. *)
Definition placeholder (n : Z) : SampleData := Samples (Float32Array [numberOfZ n]).

Definition placeholders : World :=
  {| chipWaves := {[ 0 := placeholder 7; 1 := placeholder 9 ]};
     console := [];
     audioContexts := [] |}.

(** The Number [a / b]. *)
Definition quotient (a b : Z) : float64 := div (numberOfZ a) (numberOfZ b).

(** Single-precision samples on which the running sum, kept in double
    precision, passes through a value that single precision cannot hold:
    [1], [2^-24], [2^-24], [0]. *)
Definition tinySteps : JsArray float64 :=
  Float32Array [numberOfZ 1; quotient 1 (2 ^ 24); quotient 1 (2 ^ 24); numberOfZ 0].

(** A list of integers as a [Float32Array]. *)
Definition float32s (l : list Z) : JsArray float64 := Float32Array (map numberOfZ l).

(** A text with a line that is not a number: ["1\nx"]. *)
Definition strayLine : JsString := js "1" ++ LF :: js "x".

(** [Math.abs(x) <= tolerance] *)
Definition withinTolerance (x tolerance : float64) : bool :=
  SFleb (SFabs x) tolerance.

(** The mean of the first [n] elements of an array, computed as the source
    computes an average. *)
Definition meanOfFirst (a : JsArray float64) (n : nat) : float64 :=
  div (runningSum a n) (of_length n).

(** A platform without a network: every fetch is rejected. *)
Definition offline : Platform :=
  {| fetch _ := Rejected (TypeError (js "Failed to fetch"));
     decodeAudioData _ := Rejected (DOMException (js "EncodingError")) |}.

(** The store once the given requests have all succeeded, oldest first. *)
Definition applyRequests (store : gmap JsString JsString) (requests : list IDBRequest)
  : gmap JsString JsString :=
  foldl (fun store request => applyRequest request store) store requests.

(** The browser once every pending request has succeeded. *)
Definition completeAll (b : Browser) : Browser :=
  foldl (fun b _ => completeRequest true b) b (idbPending b).

(** A platform that answers every fetch with success and a body that
    cannot be read. *)
Definition servesBrokenBody : Platform :=
  {| fetch _ := Fulfilled {| ok := true;
                             text := Rejected (TypeError (js "network error"));
                             arrayBuffer := Rejected (TypeError (js "network error")) |};
     decodeAudioData _ := Rejected (DOMException (js "EncodingError")) |}.

(** The body the first handler of a load reads from a response. *)
Definition bodyFor (format : JsString) (response : Response) : Settled Body :=
  if isTxt format then settledMap TextBody (text response)
  else settledMap BufferBody (arrayBuffer response).

(** A letter or digit of ASCII. *)
Definition isAsciiAlnum (c : N) : bool :=
  isDecimalDigit c || isUpperAlpha c || isLowerAlpha c.

(** The folders of all the entries whose pattern matches the name, in table
    order (the loop of the locator stops at the first). *)
Fixpoint matchingFolders (name : JsString) (entries : list (JsString * RegExp))
  : list JsString :=
  match entries with
  | [] => []
  | (possibleFolderName, nameMatcher) :: entries' =>
      if regexpMatch name nameMatcher
      then possibleFolderName :: matchingFolders name entries'
      else matchingFolders name entries'
  end.

(** A text with every line feed preceded by a carriage return, as a file
    with Windows line ends has it. *)
Definition CR : N := 13%N.

Fixpoint toCRLF (data : JsString) : JsString :=
  match data with
  | [] => []
  | c :: data' => if (c =? LF)%N then CR :: LF :: toCRLF data' else c :: toCRLF data'
  end.

(** The request a call issues when there is a database. *)
Definition requestOf (c : StorageCall) : IDBRequest :=
  match c with
  | CallSetItem key value => PutRequest value key
  | CallRemoveItem key => DeleteRequest key
  | CallClear => ClearRequest
  end.

(** A character that [encodeURIComponent] can put out: one it leaves
    alone, or the percent sign. *)
Definition urlSafe (c : N) : Prop := isUnescaped c = true \/ c = 37%N.

(** *** Numbers as rationals

    The value of a finite Number, the error of a rounding and the mean of
    the elements of an array are stated in the rationals. *)

(** The value of a finite Number, as a rational. *)
Definition valQ (x : spec_float) : Q :=
  match x with
  | S754_finite s m e => inject_Z (cond_Zopp s (Zpos m)) * 2 ^ e
  | _ => 0
  end.

(** Neither NaN nor an infinity. *)
Definition isFinite (x : spec_float) : bool :=
  match x with
  | S754_zero _ | S754_finite _ _ _ => true
  | _ => false
  end.

(** NaN, the Number that [==] equates with nothing. *)
Definition isNaN (x : float64) : bool :=
  match x with
  | S754_nan => true
  | _ => false
  end.

(** The mantissa and the exponent of a finite Number fit the format. *)
Definition inFormat (prec emax : Z) (x : spec_float) : Prop :=
  match x with
  | S754_finite _ m e => (Zpos m < 2 ^ prec)%Z /\ (emin prec emax <= e <= emax - prec)%Z
  | _ => True
  end.

(** [x] or [-x]. *)
Definition cond_Qopp (s : bool) (x : Q) : Q := if s then - x else x.

(** The result of a rounding: the float [r] stands for [m2 * 2^E] with the
    sign [s], unless it overflowed. *)
Definition roundsTo (prec emax : Z) (s : bool) (m2 E : Z) (r : spec_float) : Prop :=
  match r with
  | S754_zero s' => s' = s /\ m2 = 0%Z
  | S754_finite s' m e =>
      s' = s /\ (E <= e)%Z /\ (Zpos m * 2 ^ (e - E) = m2)%Z
      /\ (Zpos m < 2 ^ prec)%Z /\ (emin prec emax <= e <= emax - prec)%Z
  | S754_infinity s' => s' = s /\ (emax - prec < E + 1)%Z
  | S754_nan => False
  end.

(** A finite Number of magnitude at most [2^k]. *)
Definition finiteWithin (k : Z) (x : float64) : Prop :=
  isFinite x = true /\ (Qabs (valQ x) <= 2 ^ k)%Q.

(** The value of [a[i]], as a rational. *)
Definition valueAt (a : JsArray float64) (i : nat) : Q := valQ (ToNumber (aget a i)).

(** The sum and the mean of the first [n] elements, as rationals. *)
Definition sumQ (a : JsArray float64) (n : nat) : Q := Qsum (map (valueAt a) (seq 0 n)).

Definition meanQ (a : JsArray float64) (n : nat) : Q := (sumQ a n / inject_Z (Z.of_nat n))%Q.

(** Single-precision samples at the top of the range: the largest
    single-precision value once, and its negative twice. *)
Definition steepSamples : JsArray float64 :=
  Float32Array [numberOfZ ((2 ^ 24 - 1) * 2 ^ 104);
                numberOfZ (- ((2 ^ 24 - 1) * 2 ^ 104));
                numberOfZ (- ((2 ^ 24 - 1) * 2 ^ 104))].

(** A [Float64Array] that starts with NaN, and a plain array with a hole. *)
Definition nanFirst : JsArray float64 := Float64Array [S754_nan; numberOfZ 0].

Definition holed : JsArray float64 :=
  PlainArray [Number (numberOfZ 1); Undefined; Number (numberOfZ 3)].

(** * Properties *)

(** ** Arrays and the fill loop *)

Section ArrayFacts.
Context {num : Type} {A : Arith num}.
Implicit Types (a wave result : JsArray num) (i j n : nat) (v : num).

Lemma writable_lt a i : i < alength a -> writable a i.
Proof. destruct a; simpl; auto. Qed.

Lemma elementOf_aset a i v x : elementOf (aset a i v) x = elementOf a x.
Proof. destruct a; simpl; try reflexivity. case_decide; reflexivity. Qed.

Lemma isFloat32Array_aset a i v : isFloat32Array (aset a i v) = isFloat32Array a.
Proof. destruct a; simpl; try reflexivity. case_decide; reflexivity. Qed.

Lemma alength_aset_typed a i v :
  i < alength a -> alength (aset a i v) = alength a.
Proof.
  destruct a; simpl; intros Hi; rewrite ?length_insert; try reflexivity.
  rewrite decide_True by assumption. simpl. apply length_insert.
Qed.

Lemma isPlainArray_aset a i v : isPlainArray (aset a i v) = isPlainArray a.
Proof. destruct a; simpl; try reflexivity. case_decide; reflexivity. Qed.

Lemma alength_aset a i v :
  alength (aset a i v) =
    if isPlainArray a then alength a `max` S i else alength a.
Proof.
  destruct a; simpl; rewrite ?length_insert; try reflexivity.
  case_decide; simpl.
  - rewrite length_insert. lia.
  - rewrite !length_app, length_replicate. simpl. lia.
Qed.

Lemma aget_aset_eq a i v :
  writable a i -> aget (aset a i v) i = Number (elementOf a v).
Proof.
  destruct a; simpl; intros Hi.
  - by rewrite list_lookup_insert_eq.
  - by rewrite list_lookup_insert_eq.
  - case_decide; simpl.
    + by rewrite list_lookup_insert_eq.
    + rewrite lookup_app_r by lia.
      rewrite lookup_app_r by (rewrite length_replicate; lia).
      rewrite length_replicate.
      replace (i - length items - (i - length items)) with 0 by lia.
      reflexivity.
Qed.

Lemma aget_aset_ne a i j v :
  i <> j -> aget (aset a i v) j = aget a j.
Proof.
  destruct a; simpl; intros Hij.
  - by rewrite list_lookup_insert_ne.
  - by rewrite list_lookup_insert_ne.
  - case_decide; simpl.
    + by rewrite list_lookup_insert_ne.
    + destruct (decide (j < length items)) as [Hj|Hj].
      * by rewrite lookup_app_l.
      * rewrite lookup_app_r by lia.
        rewrite (lookup_ge_None_2 items j) by lia. simpl.
        destruct (decide (j < i)) as [Hlt|Hge].
        -- rewrite lookup_app_l by (rewrite length_replicate; lia).
           rewrite lookup_replicate_2 by lia. reflexivity.
        -- rewrite lookup_app_r by (rewrite length_replicate; lia).
           rewrite length_replicate.
           rewrite lookup_ge_None_2; [reflexivity | simpl; lia].
Qed.

Lemma aget_ge a i : alength a <= i -> aget a i = Undefined.
Proof.
  destruct a; simpl; intros Hi; by rewrite lookup_ge_None_2.
Qed.

Lemma fillLoop_S f result n :
  fillLoop f result (S n) = aset (fillLoop f result n) n (f n).
Proof. unfold fillLoop. rewrite seq_S, foldl_app. reflexivity. Qed.

Lemma elementOf_fillLoop f result n x :
  elementOf (fillLoop f result n) x = elementOf result x.
Proof.
  induction n as [|n IH]; [reflexivity|].
  rewrite fillLoop_S, elementOf_aset. exact IH.
Qed.

Lemma isPlainArray_fillLoop f result n :
  isPlainArray (fillLoop f result n) = isPlainArray result.
Proof.
  induction n as [|n IH]; [reflexivity|].
  rewrite fillLoop_S, isPlainArray_aset. exact IH.
Qed.

Lemma isFloat32Array_fillLoop f result n :
  isFloat32Array (fillLoop f result n) = isFloat32Array result.
Proof.
  induction n as [|n IH]; [reflexivity|].
  rewrite fillLoop_S, isFloat32Array_aset. exact IH.
Qed.

Lemma alength_fillLoop f result n :
  alength (fillLoop f result n) =
    if isPlainArray result then alength result `max` n else alength result.
Proof.
  induction n as [|n IH].
  - unfold fillLoop. simpl. destruct (isPlainArray result); lia.
  - rewrite fillLoop_S, alength_aset, isPlainArray_fillLoop, IH.
    destruct (isPlainArray result); lia.
Qed.

Lemma writable_fillLoop f result n i :
  writable result i -> writable (fillLoop f result n) i.
Proof.
  intros Hw. pose proof (alength_fillLoop f result n) as Hlen.
  pose proof (isPlainArray_fillLoop f result n) as Hk.
  destruct result, (fillLoop f _ n); simpl in *; try discriminate; auto; lia.
Qed.

(** After the loop, index [i < n] holds [f i] as the array stores it, and
    every index from [n] on is as it was. *)
Lemma aget_fillLoop_lt f result n i :
  i < n -> writable result i ->
  aget (fillLoop f result n) i = Number (elementOf result (f i)).
Proof.
  induction n as [|n IH]; [lia|].
  intros Hi Hw. rewrite fillLoop_S.
  destruct (decide (i = n)) as [->|Hne].
  - rewrite aget_aset_eq by (by apply writable_fillLoop).
    by rewrite elementOf_fillLoop.
  - rewrite aget_aset_ne by congruence. apply IH; [lia | done].
Qed.

Lemma aget_fillLoop_ge f result n i :
  n <= i -> aget (fillLoop f result n) i = aget result i.
Proof.
  induction n as [|n IH]; [reflexivity|].
  intros Hi. rewrite fillLoop_S, aget_aset_ne by lia. apply IH. lia.
Qed.

Lemma computeCenteredWave_fillLoop wave result :
  computeCenteredWave wave result =
    fillLoop (fun i => sub (ToNumber (aget wave i)) (waveAverage wave)) result (alength wave).
Proof. reflexivity. Qed.

Lemma waveSum_runningSum wave : waveSum wave = runningSum wave (alength wave).
Proof. reflexivity. Qed.

Lemma runningSum_0 wave : runningSum wave 0 = zero.
Proof. reflexivity. Qed.

Lemma runningSum_S wave i :
  runningSum wave (S i) = add (runningSum wave i) (ToNumber (aget wave i)).
Proof. unfold runningSum. rewrite seq_S, foldl_app. reflexivity. Qed.

(** The loop of [computeIntegral] keeps [cumulative] equal to the running
    sum while it fills [result] with it. *)
Lemma integral_loop wave result n :
  foldl (integralStep wave) (zero, result) (seq 0 n) =
    (runningSum wave n, fillLoop (runningSum wave) result n).
Proof.
  induction n as [|n IH]; [reflexivity|].
  rewrite seq_S, foldl_app, IH. simpl.
  rewrite runningSum_S, fillLoop_S. reflexivity.
Qed.

Lemma computeIntegral_fillLoop wave result :
  computeIntegral wave result = fillLoop (runningSum wave) result (alength wave).
Proof. unfold computeIntegral. rewrite integral_loop. reflexivity. Qed.

Lemma alength_makeArrayOfSameType a n :
  isPlainArray a = false -> alength (makeArrayOfSameType a (Some n)) = n.
Proof. destruct a; simpl; intros; try discriminate; apply length_replicate. Qed.

Lemma aget_makeArrayOfSameType a n i :
  isPlainArray a = false -> i < n ->
  aget (makeArrayOfSameType a (Some n)) i = Number zero.
Proof.
  destruct a; simpl; intros; try discriminate;
    by rewrite lookup_replicate_2.
Qed.

Lemma elementOf_makeArrayOfSameType a (len : option nat) x :
  elementOf (makeArrayOfSameType a len) x = elementOf a x.
Proof. destruct a; reflexivity. Qed.

End ArrayFacts.

(** ** Sums of rationals *)

Lemma Qsum_snoc (l : list Q) (x : Q) : (Qsum (l ++ [x]) == Qsum l + x)%Q.
Proof.
  induction l as [|y l IH]; simpl.
  - ring.
  - rewrite IH. ring.
Qed.

(** ** Rounding

    The operations of [SpecFloat] round to nearest. What the centering needs
    of them is proved here from their definitions: the result of an
    operation on finite Numbers is finite when the exact result is at most
    [2^K], and is then within [2^(K+1-prec)] of the exact result. *)

Section Digits.
Local Open Scope Z_scope.

(** [digits2_pos m] is the number of binary digits of [m]. *)
Lemma digits2_pos_bounds (m : positive) :
  2 ^ (Zpos (digits2_pos m) - 1) <= Zpos m < 2 ^ Zpos (digits2_pos m).
Proof.
  induction m as [m IH|m IH|]; simpl digits2_pos.
  - rewrite Pos2Z.inj_succ.
    replace (Z.succ (Zpos (digits2_pos m)) - 1) with (Zpos (digits2_pos m) - 1 + 1) by lia.
    rewrite Z.pow_succ_r by lia.
    rewrite Z.pow_add_r by lia. lia.
  - rewrite Pos2Z.inj_succ.
    replace (Z.succ (Zpos (digits2_pos m)) - 1) with (Zpos (digits2_pos m) - 1 + 1) by lia.
    rewrite Z.pow_succ_r by lia.
    rewrite Z.pow_add_r by lia. lia.
  - simpl. lia.
Qed.

Lemma Zdigits2_bounds (m : Z) :
  0 < m -> 2 ^ (Zdigits2 m - 1) <= m < 2 ^ Zdigits2 m.
Proof.
  destruct m as [|p|p]; try lia. intros _. apply digits2_pos_bounds.
Qed.

Lemma Zdigits2_nonneg (m : Z) : 0 <= Zdigits2 m.
Proof. destruct m; simpl; lia. Qed.

Lemma Zdigits2_unique (m d : Z) :
  0 < m -> 2 ^ (d - 1) <= m < 2 ^ d -> Zdigits2 m = d.
Proof.
  intros Hm [Hlo Hhi]. pose proof (Zdigits2_bounds m Hm) as [Hlo' Hhi'].
  pose proof (Zdigits2_nonneg m).
  assert (0 < d).
  { destruct (Z_lt_le_dec 0 d) as [|Hd]; [done|].
    assert (2 ^ d <= 1).
    { destruct (Z.eq_dec d 0) as [->|]; [simpl; lia|].
      rewrite Z.pow_neg_r by lia. lia. }
    lia. }
  assert (0 < Zdigits2 m). { destruct m; simpl; lia. }
  assert (Zdigits2 m - 1 < d). { apply (Z.pow_lt_mono_r_iff 2); lia. }
  assert (d - 1 < Zdigits2 m). { apply (Z.pow_lt_mono_r_iff 2); lia. }
  lia.
Qed.

(** A shift to the right halves the mantissa. *)
Lemma shr_1_m (mrs : shr_record) : 0 <= shr_m mrs -> shr_m (shr_1 mrs) = shr_m mrs / 2.
Proof.
  destruct mrs as [m r s]. cbn [shr_m]. intros Hm.
  destruct m as [|[p|p|]|]; cbn [shr_1 shr_m]; try lia.
  - reflexivity.
  - apply Z.div_unique with 1; lia.
  - apply Z.div_unique with 0; lia.
  - reflexivity.
Qed.

Lemma iter_shr_1_m (p : positive) (mrs : shr_record) :
  0 <= shr_m mrs -> shr_m (SpecFloat.iter_pos shr_1 p mrs) = shr_m mrs / 2 ^ Zpos p.
Proof.
  revert mrs. induction p as [p IH|p IH|]; intros mrs Hm; simpl SpecFloat.iter_pos.
  - assert (H1 : 0 <= shr_m (shr_1 mrs))
      by (rewrite shr_1_m by done; apply Z.div_pos; lia).
    assert (H2 : 0 <= shr_m (SpecFloat.iter_pos shr_1 p (shr_1 mrs)))
      by (rewrite IH by done; apply Z.div_pos; lia).
    rewrite IH, IH, shr_1_m by done.
    rewrite !Z.div_div by lia. f_equal.
    replace (Zpos p~1) with (1 + Zpos p + Zpos p) by lia.
    rewrite !Z.pow_add_r by lia. lia.
  - assert (H2 : 0 <= shr_m (SpecFloat.iter_pos shr_1 p mrs))
      by (rewrite IH by done; apply Z.div_pos; lia).
    rewrite IH, IH by done.
    rewrite !Z.div_div by lia. f_equal.
    replace (Zpos p~0) with (Zpos p + Zpos p) by lia.
    rewrite !Z.pow_add_r by lia. lia.
  - rewrite shr_1_m by done. reflexivity.
Qed.
End Digits.

Section Rounding.
Local Open Scope Z_scope.
Variables prec emax : Z.
Hypothesis Hprec : 0 < prec.

Lemma Zdigits2_le (m d : Z) : 0 <= d -> 0 <= m < 2 ^ d -> Zdigits2 m <= d.
Proof.
  intros Hd [Hm Hlt]. destruct (Z.eq_dec m 0) as [->|Hne]; [simpl; lia|].
  pose proof (Zdigits2_bounds m ltac:(lia)) as [Hlo _].
  assert (Zdigits2 m - 1 < d); [|lia].
  apply (Z.pow_lt_mono_r_iff 2); lia.
Qed.

(** The second shift of [binary_round_aux] only undoes a carry into the bit
    above the mantissa. *)
Lemma shr_fexp_second (s : bool) (m2 E : Z) :
  0 <= m2 <= 2 ^ prec -> emin prec emax <= E ->
  roundsTo prec emax s m2 E
    (let '(mrs, e) := shr_fexp prec emax m2 E loc_Exact in
     match shr_m mrs with
     | Z0 => S754_zero s
     | Zpos m => if Z.leb e (emax - prec) then S754_finite s m e else S754_infinity s
     | _ => S754_nan
     end).
Proof using Hprec.
  intros [Hm0 Hm2] HE. unfold shr_fexp. cbn [shr_record_of_loc].
  destruct (Z.eq_dec m2 (2 ^ prec)) as [Heq|Hne].
  - assert (Hd : Zdigits2 m2 = prec + 1).
    { apply Zdigits2_unique; [lia|]. replace (prec + 1 - 1) with prec by lia.
      rewrite Z.pow_add_r by lia. lia. }
    rewrite Hd. unfold fexp.
    replace (Z.max (prec + 1 + E - prec) (emin prec emax) - E) with 1 by lia.
    cbn [shr SpecFloat.iter_pos].
    rewrite shr_1_m by (simpl; lia). cbn [shr_m].
    assert (Hdouble : 2 ^ prec = 2 * 2 ^ (prec - 1)).
    { rewrite <- Z.pow_succ_r by lia. f_equal. lia. }
    assert (Hhalf : m2 / 2 = 2 ^ (prec - 1)).
    { rewrite Heq, Hdouble, Z.mul_comm, Z.div_mul by lia. reflexivity. }
    rewrite Hhalf.
    assert (Hpos : 0 < 2 ^ (prec - 1)) by (apply Z.pow_pos_nonneg; lia).
    assert (Hlt : 2 ^ (prec - 1) < 2 ^ prec) by lia.
    destruct (2 ^ (prec - 1)) as [|m|m] eqn:Hm; try lia.
    destruct (Z.leb_spec (E + 1) (emax - prec)) as [Hle|Hgt].
    + simpl. repeat split; try lia.
      replace (E + 1 - E) with 1 by lia. change (2 ^ 1) with 2. lia.
    + simpl. split; [done | lia].
  - assert (Hd : Zdigits2 m2 <= prec) by (apply Zdigits2_le; lia).
    unfold fexp.
    assert (Hn : Z.max (Zdigits2 m2 + E - prec) (emin prec emax) - E <= 0) by lia.
    destruct (Z.max (Zdigits2 m2 + E - prec) (emin prec emax) - E) as [|p|p] eqn:Hp; try lia.
    + cbn [shr shr_m]. destruct m2 as [|m|m]; try lia.
      * simpl. done.
      * destruct (Z.leb_spec E (emax - prec)); simpl.
        -- repeat split; try lia. rewrite Z.sub_diag. simpl. lia.
        -- split; [done | lia].
    + cbn [shr shr_m]. destruct m2 as [|m|m]; try lia.
      * simpl. done.
      * destruct (Z.leb_spec E (emax - prec)); simpl.
        -- repeat split; try lia. rewrite Z.sub_diag. simpl. lia.
        -- split; [done | lia].
Qed.

Lemma round_nearest_even_range (m : Z) (l : location) :
  m <= round_nearest_even m l <= m + 1.
Proof.
  destruct l as [|[| |]]; simpl; try lia. destruct (Z.even m); lia.
Qed.

(** [binary_round_aux] truncates the mantissa to the digits of the format
    and then adds at most one unit in the last place. *)
Lemma binary_round_aux_spec (s : bool) (mx ex : Z) (lx : location) :
  0 <= mx ->
  let F := fexp prec emax (Zdigits2 mx + ex) in
  let E := Z.max ex F in
  exists m2,
    mx / 2 ^ (E - ex) <= m2 <= mx / 2 ^ (E - ex) + 1
    /\ (lx = loc_Exact -> F <= ex -> m2 = mx)
    /\ roundsTo prec emax s m2 E (binary_round_aux prec emax s mx ex lx).
Proof using Hprec.
  intros Hmx F E. unfold binary_round_aux.
  assert (HEmin : emin prec emax <= E) by (subst E F; unfold fexp; lia).
  assert (Hq : 0 <= mx / 2 ^ (E - ex) < 2 ^ prec).
  { split; [apply Z.div_pos; [lia | apply Z.pow_pos_nonneg; lia]|].
    destruct (Z.eq_dec mx 0) as [->|Hne].
    { rewrite Z.div_0_l; [apply Z.pow_pos_nonneg; lia|].
      apply Z.pow_nonzero; lia. }
    apply Z.div_lt_upper_bound; [apply Z.pow_pos_nonneg; lia|].
    rewrite <- Z.pow_add_r by lia.
    pose proof (Zdigits2_bounds mx ltac:(lia)) as [_ Hhi].
    eapply Z.lt_le_trans; [exact Hhi|].
    apply Z.pow_le_mono_r; [lia|]. subst E F. unfold fexp. lia. }
  destruct (shr_fexp prec emax mx ex lx) as [mrs' e'] eqn:Hshr.
  assert (Hfirst : shr_m mrs' = mx / 2 ^ (E - ex) /\ e' = E
                   /\ (lx = loc_Exact -> F <= ex -> loc_of_shr_record mrs' = loc_Exact)).
  { unfold shr_fexp in Hshr. fold F in Hshr.
    assert (Hm : shr_m (shr_record_of_loc mx lx) = mx) by (destruct lx as [|[| |]]; reflexivity).
    destruct (F - ex) as [|p|p] eqn:Hn; cbn [shr] in Hshr; injection Hshr as <- <-.
    - replace (E - ex) with 0 by lia. rewrite Z.div_1_r.
      repeat split; [done | lia |]. by intros ->.
    - replace (E - ex) with (Zpos p) by lia.
      rewrite iter_shr_1_m by lia. rewrite Hm. repeat split; [lia|]. lia.
    - replace (E - ex) with 0 by lia. rewrite Z.div_1_r.
      repeat split; [done | lia |]. by intros ->. }
  destruct Hfirst as (Hm' & -> & Hexact).
  exists (round_nearest_even (shr_m mrs') (loc_of_shr_record mrs')).
  pose proof (round_nearest_even_range (shr_m mrs') (loc_of_shr_record mrs')) as Hrange.
  rewrite Hm' in *.
  split; [exact Hrange|]. split.
  - intros Hl HF. rewrite (Hexact Hl HF). simpl.
    replace (E - ex) with 0 by lia. by rewrite Z.div_1_r.
  - apply shr_fexp_second; lia.
Qed.
End Rounding.

Lemma pow2_pos (e : Z) : (0 < 2 ^ e)%Q.
Proof. apply Qpower_0_lt. reflexivity. Qed.

Lemma pow2_add (a b : Z) : (2 ^ (a + b) == 2 ^ a * 2 ^ b)%Q.
Proof. apply Qpower_plus. discriminate. Qed.

Lemma pow2_inject (n : Z) : (0 <= n)%Z -> (inject_Z (2 ^ n) == 2 ^ n)%Q.
Proof. intros Hn. by rewrite Zpower_Qpower. Qed.

Lemma pow2_le (a b : Z) : (a <= b)%Z -> (2 ^ a <= 2 ^ b)%Q.
Proof. intros Hab. apply Qpower_le_compat_l; [done|]. discriminate. Qed.

Lemma inject_Z_cond_Zopp (s : bool) (m : Z) :
  inject_Z (cond_Zopp s m) = cond_Qopp s (inject_Z m).
Proof. destruct s; simpl; [|done]. unfold inject_Z, Qopp. reflexivity. Qed.

Lemma cond_Qopp_mult (s : bool) (x y : Q) : (cond_Qopp s x * y == cond_Qopp s (x * y))%Q.
Proof. destruct s; simpl; ring. Qed.

Lemma cond_Qopp_minus (s : bool) (x y : Q) :
  (cond_Qopp s x - cond_Qopp s y == cond_Qopp s (x - y))%Q.
Proof. destruct s; simpl; ring. Qed.

Lemma Qabs_cond_Qopp (s : bool) (x : Q) : (Qabs (cond_Qopp s x) == Qabs x)%Q.
Proof. destruct s; simpl; [apply Qabs_opp | reflexivity]. Qed.

Lemma cond_Qopp_proper (s : bool) (x y : Q) :
  (x == y)%Q -> (cond_Qopp s x == cond_Qopp s y)%Q.
Proof. intros Hxy. destruct s; simpl; by rewrite Hxy. Qed.

Section RoundingError.
Variables prec emax : Z.
Hypothesis Hprec : (0 < prec)%Z.

Lemma roundsTo_isFinite (s : bool) (m2 E : Z) (r : spec_float) :
  roundsTo prec emax s m2 E r -> (E + 1 <= emax - prec)%Z -> isFinite r = true.
Proof. destruct r; simpl; try done. lia. Qed.

Lemma roundsTo_valQ (s : bool) (m2 E : Z) (r : spec_float) :
  roundsTo prec emax s m2 E r -> isFinite r = true ->
  (valQ r == cond_Qopp s (inject_Z m2 * 2 ^ E))%Q.
Proof.
  destruct r as [s'|s'| |s' m e]; simpl; try done.
  - intros [-> ->] _. destruct s; simpl; ring.
  - intros (-> & HE & <- & _) _.
    rewrite inject_Z_cond_Zopp, cond_Qopp_mult.
    apply cond_Qopp_proper.
    rewrite inject_Z_mult, pow2_inject by lia.
    rewrite <- Qmult_assoc, <- pow2_add.
    replace (e - E + E)%Z with e by lia. reflexivity.
Qed.

(** Rounding [x], which lies between [mx * 2^ex] and [(mx + 1) * 2^ex]:
    the result is within [2^E] of [x], where [E] is the exponent the format
    gives to numbers of this size; it is [x] itself when [x] is
    [mx * 2^ex] and needs no shift. *)
Lemma binary_round_aux_error (s : bool) (mx ex : Z) (lx : location) (x : Q) :
  (0 <= mx)%Z ->
  (inject_Z mx * 2 ^ ex <= x)%Q -> (x <= inject_Z (mx + 1) * 2 ^ ex)%Q ->
  (lx = loc_Exact -> x == inject_Z mx * 2 ^ ex)%Q ->
  let F := fexp prec emax (Zdigits2 mx + ex) in
  let E := Z.max ex F in
  let r := binary_round_aux prec emax s mx ex lx in
  ((E + 1 <= emax - prec)%Z -> isFinite r = true)
  /\ (isFinite r = true -> (Qabs (valQ r - cond_Qopp s x) <= 2 ^ E)%Q)
  /\ (lx = loc_Exact -> (F <= ex)%Z -> isFinite r = true -> (valQ r == cond_Qopp s x)%Q)
  /\ inFormat prec emax r.
Proof using Hprec.
  intros Hmx Hlo Hhi Hexact F E r.
  destruct (binary_round_aux_spec prec emax Hprec s mx ex lx Hmx) as (m2 & Hm2 & Hsame & Hr).
  fold F E r in Hm2, Hsame, Hr.
  split; [by apply (roundsTo_isFinite s m2 E)|].
  assert (Hn : (0 <= E - ex)%Z) by lia.
  set (n := (E - ex)%Z) in *. set (q := (mx / 2 ^ n)%Z) in *.
  assert (Hpow : (0 < 2 ^ n)%Z) by (apply Z.pow_pos_nonneg; lia).
  assert (HqLo : (q * 2 ^ n <= mx)%Z).
  { subst q. rewrite Z.mul_comm. apply Z.mul_div_le. lia. }
  assert (HqHi : (mx + 1 <= (q + 1) * 2 ^ n)%Z).
  { subst q. pose proof (Z.mul_succ_div_gt mx (2 ^ n) Hpow). lia. }
  assert (HE : (2 ^ E == 2 ^ n * 2 ^ ex)%Q).
  { rewrite <- pow2_add. subst n. by replace (E - ex + ex)%Z with E by lia. }
  pose proof (pow2_pos ex) as Hex. pose proof (pow2_pos E) as HEpos.
  assert (Hx1 : (inject_Z q * 2 ^ E <= x)%Q).
  { eapply Qle_trans; [|exact Hlo]. rewrite HE, Qmult_assoc.
    apply Qmult_le_compat_r; [|lra].
    rewrite <- pow2_inject, <- inject_Z_mult by lia. by rewrite <- Zle_Qle. }
  assert (Hx2 : (x <= inject_Z (q + 1) * 2 ^ E)%Q).
  { eapply Qle_trans; [exact Hhi|]. rewrite HE, Qmult_assoc.
    apply Qmult_le_compat_r; [|lra].
    rewrite <- pow2_inject, <- inject_Z_mult by lia. by rewrite <- Zle_Qle. }
  split; [|split].
  - intros Hfin. rewrite (roundsTo_valQ s m2 E r Hr Hfin).
    rewrite cond_Qopp_minus, Qabs_cond_Qopp.
    assert (H1 : (inject_Z q * 2 ^ E <= inject_Z m2 * 2 ^ E)%Q).
    { apply Qmult_le_compat_r; [|lra]. rewrite <- Zle_Qle. lia. }
    assert (H2 : (inject_Z m2 * 2 ^ E <= inject_Z (q + 1) * 2 ^ E)%Q).
    { apply Qmult_le_compat_r; [|lra]. rewrite <- Zle_Qle. lia. }
    rewrite inject_Z_plus in Hx2, H2.
    apply Qabs_Qle_condition.
    set (a := (inject_Z q * 2 ^ E)%Q) in *. set (b := (inject_Z m2 * 2 ^ E)%Q) in *.
    assert (Hab : ((inject_Z q + inject_Z 1) * 2 ^ E == a + 2 ^ E)%Q) by (subst a; ring).
    rewrite Hab in Hx2, H2. split; lra.
  - intros Hl HF Hfin. rewrite (roundsTo_valQ s m2 E r Hr Hfin).
    apply cond_Qopp_proper. rewrite (Hsame Hl HF), (Hexact Hl).
    by replace E with ex by lia.
  - destruct r; try done. simpl in Hr. simpl. tauto.
Qed.
End RoundingError.

Lemma Zpos_iter_xO (m d : positive) : Zpos (Pos.iter xO m d) = (Zpos m * 2 ^ Zpos d)%Z.
Proof.
  change (Pos.iter xO m d) with (shift_pos d m).
  rewrite shift_pos_correct. change (Z.pow_pos 2 d) with (2 ^ Zpos d)%Z. lia.
Qed.

Lemma Zdigits2_shift (m d : Z) :
  (0 < m)%Z -> (0 <= d)%Z -> Zdigits2 (m * 2 ^ d) = (Zdigits2 m + d)%Z.
Proof.
  intros Hm Hd. pose proof (Zdigits2_bounds m Hm) as [Hlo Hhi].
  assert (Hpow : (0 < 2 ^ d)%Z) by (apply Z.pow_pos_nonneg; lia).
  assert (Hdig : (0 < Zdigits2 m)%Z) by (destruct m; simpl in *; lia).
  apply Zdigits2_unique; [nia|].
  replace (Zdigits2 m + d - 1)%Z with (Zdigits2 m - 1 + d)%Z by lia.
  rewrite !Z.pow_add_r by lia. nia.
Qed.

Section Normalize.
Variables prec emax : Z.
Hypothesis Hprec : (0 < prec)%Z.

Lemma binary_round_aux_exact (s : bool) (mx ex : Z) :
  (0 <= mx)%Z ->
  let x := (inject_Z mx * 2 ^ ex)%Q in
  let F := fexp prec emax (Zdigits2 mx + ex) in
  let E := Z.max ex F in
  let r := binary_round_aux prec emax s mx ex loc_Exact in
  ((E + 1 <= emax - prec)%Z -> isFinite r = true)
  /\ (isFinite r = true -> (Qabs (valQ r - cond_Qopp s x) <= 2 ^ E)%Q)
  /\ ((F <= ex)%Z -> isFinite r = true -> (valQ r == cond_Qopp s x)%Q)
  /\ inFormat prec emax r.
Proof using Hprec.
  intros Hmx x F E r.
  assert (Hlo : (inject_Z mx * 2 ^ ex <= x)%Q) by apply Qle_refl.
  assert (Hhi : (x <= inject_Z (mx + 1) * 2 ^ ex)%Q).
  { subst x. rewrite inject_Z_plus. pose proof (pow2_pos ex).
    set (a := (inject_Z mx * 2 ^ ex)%Q).
    assert (((inject_Z mx + inject_Z 1) * 2 ^ ex == a + 2 ^ ex)%Q) as -> by (subst a; ring).
    lra. }
  assert (Hex : loc_Exact = loc_Exact -> (x == inject_Z mx * 2 ^ ex)%Q) by reflexivity.
  destruct (binary_round_aux_error prec emax Hprec s mx ex loc_Exact x Hmx Hlo Hhi Hex)
    as (H1 & H2 & H3 & H4).
  repeat split; try done. by apply H3.
Qed.

Lemma binary_round_error (s : bool) (m : positive) (e : Z) :
  let x := (inject_Z (Zpos m) * 2 ^ e)%Q in
  let F := fexp prec emax (Zpos (digits2_pos m) + e) in
  let r := binary_round prec emax s m e in
  ((F + 1 <= emax - prec)%Z -> isFinite r = true)
  /\ (isFinite r = true -> (Qabs (valQ r - cond_Qopp s x) <= 2 ^ F)%Q)
  /\ ((F <= e)%Z -> isFinite r = true -> (valQ r == cond_Qopp s x)%Q)
  /\ inFormat prec emax r.
Proof using Hprec.
  intros x F r. subst r. unfold binary_round. fold F.
  unfold shl_align.
  destruct (F - e)%Z as [|d|d] eqn:Hd.
  - pose proof (binary_round_aux_exact s (Zpos m) e ltac:(lia)) as H.
    cbn [Zdigits2] in H. fold F x in H. replace (Z.max e F) with F in H by lia.
    exact H.
  - pose proof (binary_round_aux_exact s (Zpos m) e ltac:(lia)) as H.
    cbn [Zdigits2] in H. fold F x in H. replace (Z.max e F) with F in H by lia.
    exact H.
  - assert (Hx : (inject_Z (Zpos (Pos.iter xO m d)) * 2 ^ F == x)%Q).
    { subst x. rewrite Zpos_iter_xO, inject_Z_mult, pow2_inject by lia.
      rewrite <- Qmult_assoc, <- pow2_add.
      by replace (Zpos d + F)%Z with e by lia. }
    pose proof (binary_round_aux_exact s (Zpos (Pos.iter xO m d)) F ltac:(lia)) as H.
    rewrite Zpos_iter_xO, Zdigits2_shift in H by lia. cbn [Zdigits2] in H.
    replace (Zpos (digits2_pos m) + Zpos d + F)%Z with (Zpos (digits2_pos m) + e)%Z in H by lia.
    fold F in H. replace (Z.max F F) with F in H by lia.
    rewrite <- Zpos_iter_xO in H. cbv zeta in H.
    destruct H as (H1 & H2 & H3 & H4).
    pose proof (cond_Qopp_proper s _ _ Hx) as Hc.
    repeat split; try done.
    + intros Hfin. rewrite <- Hc. by apply H2.
    + intros _ Hfin. rewrite <- Hc. apply H3; [lia | done].
Qed.

(** Rounding the integer multiple [m * 2^e] of a power of two. *)
Lemma binary_normalize_error (m e : Z) (sz : bool) :
  let x := (inject_Z m * 2 ^ e)%Q in
  let F := fexp prec emax (Zdigits2 m + e) in
  let r := binary_normalize prec emax m e sz in
  ((F + 1 <= emax - prec)%Z -> isFinite r = true)
  /\ (isFinite r = true -> (Qabs (valQ r - x) <= 2 ^ F)%Q)
  /\ ((F <= e)%Z -> isFinite r = true -> (valQ r == x)%Q)
  /\ inFormat prec emax r.
Proof using Hprec.
  intros x F r. destruct m as [|m|m].
  - subst r x. cbn [binary_normalize isFinite valQ].
    split; [done|]. split; [|split; [|done]].
    + intros _. pose proof (pow2_pos F).
      assert ((0 - inject_Z 0 * 2 ^ e == 0)%Q) as -> by (unfold inject_Z; ring).
      rewrite Qabs_pos; lra.
    + intros _ _. unfold inject_Z. ring.
  - pose proof (binary_round_error false m e) as H. simpl in H. exact H.
  - pose proof (binary_round_error true m e) as H. cbn [cond_Qopp] in H.
    subst x r F. cbn [binary_normalize Zdigits2].
    assert (Hneg : (inject_Z (Z.neg m) * 2 ^ e == - (inject_Z (Zpos m) * 2 ^ e))%Q).
    { change (Z.neg m) with (- Zpos m)%Z. rewrite inject_Z_opp. ring. }
    rewrite Hneg. exact H.
Qed.

(** The exponent of the format at a number below [2^K]. *)
Lemma fexp_bound (m e K : Z) :
  m <> 0%Z ->
  (Qabs (inject_Z m * 2 ^ e) <= 2 ^ K)%Q ->
  (emin prec emax + prec - 1 <= K)%Z ->
  (fexp prec emax (Zdigits2 m + e) <= K + 1 - prec)%Z.
Proof.
  intros Hne Hx HK. unfold fexp.
  assert (Hd : (Zdigits2 m - 1 + e <= K)%Z); [|lia].
  apply (Qpower_le_compat_l_inv 2); [|reflexivity].
  eapply Qle_trans; [|exact Hx].
  rewrite Qabs_Qmult, (Qabs_pos (2 ^ e)) by (pose proof (pow2_pos e); lra).
  rewrite pow2_add. apply Qmult_le_compat_r; [|pose proof (pow2_pos e); lra].
  assert (Habs : (Qabs (inject_Z m) == inject_Z (Z.abs m))%Q).
  { unfold Qabs, inject_Z. simpl. reflexivity. }
  rewrite Habs.
  assert (Hdig : Zdigits2 m = Zdigits2 (Z.abs m)) by (destruct m; reflexivity).
  rewrite Hdig.
  pose proof (Zdigits2_bounds (Z.abs m) ltac:(lia)) as [Hlo _].
  assert (0 < Zdigits2 (Z.abs m))%Z by (destruct m; simpl in *; lia).
  rewrite <- pow2_inject by lia. by rewrite <- Zle_Qle.
Qed.

Lemma binary_normalize_bounded (m e K : Z) (sz : bool) :
  (Qabs (inject_Z m * 2 ^ e) <= 2 ^ K)%Q ->
  (emin prec emax + prec - 1 <= K)%Z -> (K + 2 <= emax)%Z ->
  let r := binary_normalize prec emax m e sz in
  isFinite r = true
  /\ (Qabs (valQ r - inject_Z m * 2 ^ e) <= 2 ^ (K + 1 - prec))%Q
  /\ inFormat prec emax r.
Proof using Hprec.
  intros Hx HK Hmax r.
  destruct (Z.eq_dec m 0%Z) as [->|Hne].
  { subst r. cbn [binary_normalize isFinite valQ]. repeat split.
    assert ((0 - inject_Z 0 * 2 ^ e == 0)%Q) as -> by (unfold inject_Z; ring).
    pose proof (pow2_pos (K + 1 - prec)). rewrite Qabs_pos; lra. }
  pose proof (fexp_bound m e K Hne Hx HK) as HF.
  destruct (binary_normalize_error m e sz) as (H1 & H2 & _ & H4). fold r in H1, H2, H4.
  assert (Hfin : isFinite r = true) by (apply H1; lia).
  repeat split; [done| |done].
  eapply Qle_trans; [by apply H2|]. by apply pow2_le.
Qed.
End Normalize.

(** Aligning a mantissa to a lower exponent keeps the value. *)
Lemma shl_align_val (s : bool) (m : positive) (e ez : Z) :
  (ez <= e)%Z ->
  (inject_Z (cond_Zopp s (Zpos (shl_align m e ez).1)) * 2 ^ ez == valQ (S754_finite s m e))%Q.
Proof.
  intros Hez. unfold shl_align, valQ.
  rewrite !inject_Z_cond_Zopp, !cond_Qopp_mult. apply cond_Qopp_proper.
  destruct (ez - e)%Z as [|d|d] eqn:Hd; cbn [fst]; try lia.
  - by replace ez with e by lia.
  - rewrite Zpos_iter_xO, inject_Z_mult, pow2_inject by lia.
    rewrite <- Qmult_assoc, <- pow2_add. by replace (Zpos d + ez)%Z with e by lia.
Qed.

Lemma Qabs_zero_le (e : Z) (x : Q) : (x == 0)%Q -> (Qabs x <= 2 ^ e)%Q.
Proof. intros ->. pose proof (pow2_pos e). rewrite Qabs_pos; lra. Qed.

Section Operations.
Variables prec emax : Z.
Hypothesis Hprec : (0 < prec)%Z.

(** Addition of finite Numbers whose sum is at most [2^K]: the result is
    finite and within [2^(K+1-prec)] of the sum. *)
Lemma SFadd_bounded (x y : spec_float) (K : Z) :
  isFinite x = true -> isFinite y = true ->
  (Qabs (valQ x + valQ y) <= 2 ^ K)%Q ->
  (emin prec emax + prec - 1 <= K)%Z -> (K + 2 <= emax)%Z ->
  isFinite (SFadd prec emax x y) = true
  /\ (Qabs (valQ (SFadd prec emax x y) - (valQ x + valQ y)) <= 2 ^ (K + 1 - prec))%Q.
Proof using Hprec.
  intros Hx Hy Hsum HK Hmax.
  destruct x as [sx|sx| |sx mx ex], y as [sy|sy| |sy my ey]; try done.
  - split; [by destruct sx, sy|]. apply Qabs_zero_le. destruct sx, sy; simpl; ring.
  - split; [done|]. apply Qabs_zero_le. cbn [SFadd valQ]. ring.
  - split; [done|]. apply Qabs_zero_le. cbn [SFadd valQ]. ring.
  - cbn [SFadd]. set (ez := Z.min ex ey).
    set (a := cond_Zopp sx (Zpos (shl_align mx ex ez).1)).
    set (b := cond_Zopp sy (Zpos (shl_align my ey ez).1)).
    assert (Hab : (inject_Z (a + b) * 2 ^ ez
                   == valQ (S754_finite sx mx ex) + valQ (S754_finite sy my ey))%Q).
    { rewrite inject_Z_plus, Qmult_plus_distr_l. subst a b.
      rewrite !shl_align_val by lia. reflexivity. }
    rewrite <- Hab in Hsum |- *.
    destruct (binary_normalize_bounded prec emax Hprec (a + b) ez K false Hsum HK Hmax)
      as (H1 & H2 & _).
    done.
Qed.

Lemma SFsub_bounded (x y : spec_float) (K : Z) :
  isFinite x = true -> isFinite y = true ->
  (Qabs (valQ x - valQ y) <= 2 ^ K)%Q ->
  (emin prec emax + prec - 1 <= K)%Z -> (K + 2 <= emax)%Z ->
  isFinite (SFsub prec emax x y) = true
  /\ (Qabs (valQ (SFsub prec emax x y) - (valQ x - valQ y)) <= 2 ^ (K + 1 - prec))%Q.
Proof using Hprec.
  intros Hx Hy Hsum HK Hmax.
  destruct x as [sx|sx| |sx mx ex], y as [sy|sy| |sy my ey]; try done.
  - split; [by destruct sx, sy|]. apply Qabs_zero_le. destruct sx, sy; simpl; ring.
  - split; [done|]. apply Qabs_zero_le. cbn [SFsub valQ].
    rewrite !inject_Z_cond_Zopp. destruct sy; simpl; ring.
  - split; [done|]. apply Qabs_zero_le. cbn [SFsub valQ]. ring.
  - cbn [SFsub]. set (ez := Z.min ex ey).
    set (a := cond_Zopp sx (Zpos (shl_align mx ex ez).1)).
    set (b := cond_Zopp sy (Zpos (shl_align my ey ez).1)).
    assert (Hab : (inject_Z (a - b) * 2 ^ ez
                   == valQ (S754_finite sx mx ex) - valQ (S754_finite sy my ey))%Q).
    { rewrite <- (shl_align_val sx mx ex ez), <- (shl_align_val sy my ey ez) by lia.
      fold a b. unfold Z.sub. rewrite inject_Z_plus, inject_Z_opp. ring. }
    rewrite <- Hab in Hsum |- *.
    destruct (binary_normalize_bounded prec emax Hprec (a - b) ez K false Hsum HK Hmax)
      as (H1 & H2 & _).
    done.
Qed.
End Operations.

Lemma new_location_exact (n k : Z) : new_location n k = loc_Exact -> k = 0%Z.
Proof.
  unfold new_location, new_location_even, new_location_odd.
  destruct (Z.even n), (Z.eqb_spec k 0); done.
Qed.

Lemma pow2_le_inv (a b : Z) : (2 ^ a <= 2 ^ b)%Q -> (a <= b)%Z.
Proof. intros H. by apply (Qpower_le_compat_l_inv 2). Qed.

Lemma Zpos_pow2_bounds (m : positive) (e : Z) :
  (2 ^ (Zpos (digits2_pos m) - 1 + e) <= inject_Z (Zpos m) * 2 ^ e)%Q
  /\ (inject_Z (Zpos m) * 2 ^ e <= 2 ^ (Zpos (digits2_pos m) + e))%Q.
Proof.
  pose proof (digits2_pos_bounds m) as [Hlo Hhi]. pose proof (pow2_pos e).
  rewrite !pow2_add. split; (apply Qmult_le_compat_r; [|lra]).
  - rewrite <- pow2_inject by lia. by rewrite <- Zle_Qle.
  - rewrite <- pow2_inject by lia. rewrite <- Zle_Qle. lia.
Qed.

Lemma inject_Z_pos (m : positive) : (0 < inject_Z (Zpos m))%Q.
Proof. unfold Qlt, inject_Z. simpl. lia. Qed.

Lemma inject_Z_nonneg (q : Z) : (0 <= q)%Z -> (0 <= inject_Z q)%Q.
Proof. intros Hq. unfold Qle, inject_Z. simpl. lia. Qed.

Section Division.
Variables prec emax : Z.
Hypothesis Hprec : (0 < prec)%Z.

(** Division of a finite Number by a positive one. *)
Lemma SFdiv_bounded (x : spec_float) (my : positive) (ey K : Z) :
  let y := S754_finite false my ey in
  isFinite x = true ->
  (Qabs (valQ x / valQ y) <= 2 ^ K)%Q ->
  (emin prec emax + prec - 1 <= K)%Z -> (K + 2 <= emax)%Z ->
  isFinite (SFdiv prec emax x y) = true
  /\ (Qabs (valQ (SFdiv prec emax x y) - valQ x / valQ y) <= 2 ^ (K + 1 - prec))%Q.
Proof using Hprec.
  intros y Hx Hv HK Hmax. subst y.
  destruct x as [sx|sx| |sx mx ex]; try done.
  { split; [done|]. apply Qabs_zero_le. cbn [SFdiv valQ]. unfold Qdiv. ring. }
  pose proof (pow2_pos ex) as Hpex. pose proof (pow2_pos ey) as Hpey.
  set (X := (inject_Z (Zpos mx) * 2 ^ ex)%Q) in *.
  set (Y := (inject_Z (Zpos my) * 2 ^ ey)%Q) in *.
  assert (HY : (0 < Y)%Q).
  { subst Y. apply Qmult_lt_0_compat; [|done]. apply inject_Z_pos. }
  assert (HX : (0 < X)%Q).
  { subst X. apply Qmult_lt_0_compat; [|done]. apply inject_Z_pos. }
  assert (Hval : (valQ (S754_finite sx mx ex) / valQ (S754_finite false my ey)
                  == cond_Qopp sx (X / Y))%Q).
  { cbn [valQ cond_Zopp]. fold Y. rewrite inject_Z_cond_Zopp, cond_Qopp_mult. fold X.
    destruct sx; simpl; [|reflexivity]. field. lra. }
  rewrite Hval in Hv |- *. rewrite Qabs_cond_Qopp in Hv.
  set (v := (X / Y)%Q) in *.
  assert (Hv0 : (0 < v)%Q).
  { subst v. apply Qlt_shift_div_l; [done|]. lra. }
  rewrite Qabs_pos in Hv by lra.
  cbn [SFdiv]. unfold SFdiv_core_binary. cbn [Zdigits2].
  set (d1 := Zpos (digits2_pos mx)). set (d2 := Zpos (digits2_pos my)).
  set (e' := Z.min (fexp prec emax (d1 + ex - (d2 + ey))) (ex - ey)).
  set (s := (ex - ey - e')%Z).
  assert (Hs : (0 <= s)%Z) by (subst s e'; lia).
  set (m' := match s with Zpos _ => Z.shiftl (Zpos mx) s | Z0 => Zpos mx | Zneg _ => 0%Z end).
  assert (Hm' : m' = (Zpos mx * 2 ^ s)%Z).
  { subst m'. destruct s as [|p|p] eqn:Hp; try lia.
    apply Z.shiftl_mul_pow2. lia. }
  pose proof (Z_div_mod m' (Zpos my) ltac:(lia)) as Hdiv.
  destruct (Z.div_eucl m' (Zpos my)) as [q r]. destruct Hdiv as [Heq Hr].
  assert (Hm'pos : (0 < m')%Z).
  { rewrite Hm'. apply Z.mul_pos_pos; [lia|]. apply Z.pow_pos_nonneg; lia. }
  assert (Hq : (0 <= q)%Z) by nia.
  (* the quotient in terms of [m'] *)
  assert (Hvm : (v * inject_Z (Zpos my) == inject_Z m' * 2 ^ e')%Q).
  { subst v X Y. rewrite Hm', inject_Z_mult, pow2_inject by lia.
    assert (Hex : (2 ^ ex == 2 ^ s * 2 ^ e' * 2 ^ ey)%Q).
    { rewrite <- !pow2_add. by replace (s + e' + ey)%Z with ex by (subst s; lia). }
    rewrite Hex. field. split; [lra|].
    pose proof (inject_Z_pos my). lra. }
  pose proof (pow2_pos e') as Hpe'.
  pose proof (inject_Z_pos my) as Hmy.
  assert (Hlo : (inject_Z q * 2 ^ e' <= v)%Q).
  { apply (Qmult_le_r _ _ (inject_Z (Zpos my))); [done|]. rewrite Hvm.
    assert (Hz : (inject_Z (q * Zpos my) <= inject_Z m')%Q) by (rewrite <- Zle_Qle; lia).
    rewrite inject_Z_mult in Hz.
    assert (Hc : (inject_Z q * 2 ^ e' * inject_Z (Zpos my)
                  == inject_Z q * inject_Z (Zpos my) * 2 ^ e')%Q) by ring.
    rewrite Hc.
    apply Qmult_le_compat_r; [done | lra]. }
  assert (Hhi : (v <= inject_Z (q + 1) * 2 ^ e')%Q).
  { apply (Qmult_le_r _ _ (inject_Z (Zpos my))); [done|]. rewrite Hvm.
    assert (Hz : (inject_Z m' <= inject_Z ((q + 1) * Zpos my))%Q) by (rewrite <- Zle_Qle; lia).
    rewrite inject_Z_mult in Hz.
    assert (Hc : (inject_Z (q + 1) * 2 ^ e' * inject_Z (Zpos my)
                  == inject_Z (q + 1) * inject_Z (Zpos my) * 2 ^ e')%Q) by ring.
    rewrite Hc.
    apply Qmult_le_compat_r; [done | lra]. }
  assert (Hexact : new_location (Zpos my) r = loc_Exact -> (v == inject_Z q * 2 ^ e')%Q).
  { intros Hl. apply new_location_exact in Hl. subst r.
    apply (Qmult_inj_r _ _ (inject_Z (Zpos my))); [lra|]. rewrite Hvm.
    replace m' with (q * Zpos my)%Z by lia. rewrite inject_Z_mult. ring. }
  rewrite xorb_false_r.
  destruct (binary_round_aux_error prec emax Hprec sx q e' (new_location (Zpos my) r) v
              Hq Hlo Hhi Hexact) as (H1 & H2 & _ & _).
  (* the exponent of the result *)
  assert (HD : (d1 + ex - (d2 + ey) - 1 <= K)%Z).
  { apply pow2_le_inv. eapply Qle_trans; [|exact Hv].
    apply (Qmult_le_r _ _ Y); [done|].
    assert (Hvy : (v * Y == X)%Q) by (subst v; field; lra). rewrite Hvy.
    destruct (Zpos_pow2_bounds mx ex) as [HloX _].
    destruct (Zpos_pow2_bounds my ey) as [_ HhiY]. fold d1 X in HloX. fold d2 Y in HhiY.
    eapply Qle_trans; [|exact HloX].
    eapply Qle_trans.
    { apply Qmult_le_l; [apply pow2_pos | exact HhiY]. }
    rewrite <- pow2_add. apply pow2_le. lia. }
  assert (He' : (e' <= K + 1 - prec)%Z) by (subst e'; unfold fexp; lia).
  assert (HE : (Z.max e' (fexp prec emax (Zdigits2 q + e')) <= K + 1 - prec)%Z).
  { apply Z.max_lub; [done|].
    destruct (Z.eq_dec q 0%Z) as [->|Hne]; [simpl; unfold fexp; lia|].
    apply fexp_bound; [done| |done].
    rewrite Qabs_pos; [lra|].
    apply Qmult_le_0_compat; [|lra]. by apply inject_Z_nonneg. }
  assert (Hfin : isFinite (binary_round_aux prec emax sx q e' (new_location (Zpos my) r)) = true)
    by (apply H1; lia).
  split; [done|].
  eapply Qle_trans; [by apply H2|]. by apply pow2_le.
Qed.
End Division.

Lemma prec64_pos : (0 < prec64)%Z.
Proof. reflexivity. Qed.

Lemma prec32_pos : (0 < prec32)%Z.
Proof. reflexivity. Qed.

Lemma Zdigits2_cond_Zopp (s : bool) (m : positive) :
  Zdigits2 (cond_Zopp s (Zpos m)) = Zpos (digits2_pos m).
Proof. by destruct s. Qed.

Lemma valQ_finite (s : bool) (m : positive) (e : Z) :
  valQ (S754_finite s m e) = (inject_Z (cond_Zopp s (Zpos m)) * 2 ^ e)%Q.
Proof. reflexivity. Qed.

(** A binary32 value is a binary64 value. *)
Lemma binary32_in_binary64 (s : bool) (m : positive) (e : Z) (sz : bool) :
  inFormat prec32 emax32 (S754_finite s m e) ->
  let r := binary_normalize prec64 emax64 (cond_Zopp s (Zpos m)) e sz in
  isFinite r = true /\ (valQ r == valQ (S754_finite s m e))%Q.
Proof.
  intros [Hm He] r. unfold emin, prec32, emax32 in *.
  destruct (binary_normalize_error prec64 emax64 prec64_pos (cond_Zopp s (Zpos m)) e sz)
    as (H1 & _ & H3 & _).
  fold r in H1, H3.
  rewrite Zdigits2_cond_Zopp in H1, H3.
  assert (Hd : (Zpos (digits2_pos m) <= 24)%Z).
  { apply (Zdigits2_le (Zpos m) 24); lia. }
  unfold fexp, emin, prec64, emax64 in H1, H3.
  assert (Hfin : isFinite r = true) by (apply H1; lia).
  split; [done|]. rewrite valQ_finite. apply H3; [lia | done].
Qed.

(** Rounding to single precision. *)
Lemma fround64_bounded (x : float64) (K : Z) :
  isFinite x = true ->
  (Qabs (valQ x) <= 2 ^ K)%Q ->
  (-126 <= K)%Z -> (K <= 126)%Z ->
  isFinite (fround64 x) = true
  /\ (Qabs (valQ (fround64 x) - valQ x) <= 2 ^ (K - 23))%Q.
Proof.
  intros Hx Hv HK1 HK2. destruct x as [s|s| |s m e]; try done.
  { split; [done|]. apply Qabs_zero_le. simpl. ring. }
  unfold fround64. rewrite valQ_finite in Hv |- *.
  destruct (binary_normalize_bounded prec32 emax32 prec32_pos (cond_Zopp s (Zpos m)) e K s Hv)
    as (H1 & H2 & H3); [unfold emin, prec32, emax32; lia | unfold emax32; lia |].
  replace (K + 1 - prec32)%Z with (K - 23)%Z in H2 by (unfold prec32; lia).
  destruct (binary_normalize prec32 emax32 (cond_Zopp s (Zpos m)) e s)
    as [s'|s'| |s' m' e'] eqn:Hr; try done.
  destruct (binary32_in_binary64 s' m' e' s' H3) as [H4 H5].
  split; [done|]. by rewrite H5.
Qed.

(** The Number of a natural number below [2^53] is that number. *)
Lemma numberOfZ_exact (z : Z) :
  (Z.abs z < 2 ^ 53)%Z ->
  isFinite (numberOfZ z) = true /\ (valQ (numberOfZ z) == inject_Z z)%Q.
Proof.
  intros Hz. unfold numberOfZ.
  destruct (binary_normalize_error prec64 emax64 prec64_pos z 0 false) as (H1 & _ & H3 & _).
  assert (Hd : (Zdigits2 z <= 53)%Z).
  { replace (Zdigits2 z) with (Zdigits2 (Z.abs z)) by (by destruct z).
    apply Zdigits2_le; lia. }
  pose proof (Zdigits2_nonneg z).
  unfold fexp, emin, prec64, emax64 in H1, H3.
  assert (Hfin : isFinite (binary_normalize prec64 emax64 z 0 false) = true) by (apply H1; lia).
  split; [done|]. rewrite H3 by (done || lia). change (2 ^ 0)%Q with 1%Q. ring.
Qed.

Lemma of_length_positive (n : nat) :
  0 < n -> (Z.of_nat n < 2 ^ 53)%Z ->
  exists m e, @of_length float64 _ n = S754_finite false m e
              /\ (valQ (S754_finite false m e) == inject_Z (Z.of_nat n))%Q.
Proof.
  intros Hn Hlt. destruct (numberOfZ_exact (Z.of_nat n) ltac:(lia)) as [Hfin Hval].
  change (@of_length float64 _ n) with (numberOfZ (Z.of_nat n)).
  assert (Hpos : (0 < inject_Z (Z.of_nat n))%Q).
  { unfold Qlt, inject_Z. simpl. lia. }
  destruct (numberOfZ (Z.of_nat n)) as [s|s| |s m e]; try done.
  - simpl in Hval. lra.
  - destruct s; [|by exists m, e].
    rewrite valQ_finite in Hval. cbn [cond_Zopp] in Hval.
    pose proof (pow2_pos e). pose proof (inject_Z_pos m).
    change (Z.neg m) with (- Zpos m)%Z in Hval. rewrite inject_Z_opp in Hval.
    assert (0 < inject_Z (Zpos m) * 2 ^ e)%Q by (by apply Qmult_lt_0_compat).
    lra.
Qed.

(** ** Sums and means of samples *)

Lemma sumQ_S (a : JsArray float64) (n : nat) : (sumQ a (S n) == sumQ a n + valueAt a n)%Q.
Proof. unfold sumQ. rewrite seq_S, map_app. cbn [map]. by rewrite Qsum_snoc. Qed.

Lemma inject_Z_S (n : nat) : (inject_Z (Z.of_nat (S n)) == inject_Z (Z.of_nat n) + 1)%Q.
Proof. rewrite Nat2Z.inj_succ. unfold Z.succ. rewrite inject_Z_plus. reflexivity. Qed.

Lemma inject_Z_of_nat_nonneg (n : nat) : (0 <= inject_Z (Z.of_nat n))%Q.
Proof. apply inject_Z_nonneg. lia. Qed.

(** [2^(k+c)] as a multiple of [2^k]. *)
Lemma pow2_shift (k c : Z) : (2 ^ (k + c) == 2 ^ c * 2 ^ k)%Q.
Proof. rewrite pow2_add. ring. Qed.

(** The sum of [n] values of magnitude at most [B]. *)
Lemma sumQ_bound (a : JsArray float64) (n : nat) (B : Q) :
  (forall i, i < n -> (Qabs (valueAt a i) <= B)%Q) ->
  (Qabs (sumQ a n) <= inject_Z (Z.of_nat n) * B)%Q.
Proof.
  induction n as [|n IH]; intros Hb.
  - unfold sumQ. simpl. assert ((inject_Z 0 * B == 0)%Q) as -> by (unfold inject_Z; ring).
    apply Qle_refl.
  - rewrite sumQ_S, inject_Z_S.
    specialize (IH ltac:(intros; apply Hb; lia)). specialize (Hb n ltac:(lia)).
    apply Qabs_Qle_condition in IH, Hb. apply Qabs_Qle_condition.
    set (N := inject_Z (Z.of_nat n)) in *.
    assert (((N + 1) * B == N * B + B)%Q) as -> by ring.
    set (NB := (N * B)%Q) in *. split; lra.
Qed.

(** Shifting every term by [a], up to [d] each, shifts the sum by [n * a],
    up to [n * d]. *)
Lemma sumQ_shift (f g : JsArray float64) (a d : Q) (n : nat) :
  (forall i, i < n -> (Qabs (valueAt g i - (valueAt f i - a)) <= d)%Q) ->
  (Qabs (sumQ g n - (sumQ f n - inject_Z (Z.of_nat n) * a)) <= inject_Z (Z.of_nat n) * d)%Q.
Proof.
  induction n as [|n IH]; intros Hb.
  - unfold sumQ. simpl.
    assert ((0 - (0 - inject_Z 0 * a) == 0)%Q) as -> by (unfold inject_Z; ring).
    assert ((inject_Z 0 * d == 0)%Q) as -> by (unfold inject_Z; ring).
    apply Qle_refl.
  - rewrite !sumQ_S, inject_Z_S.
    specialize (IH ltac:(intros; apply Hb; lia)). specialize (Hb n ltac:(lia)).
    apply Qabs_Qle_condition in IH, Hb. apply Qabs_Qle_condition.
    set (N := inject_Z (Z.of_nat n)) in *.
    assert (((N + 1) * d == N * d + d)%Q) as -> by ring.
    assert (((N + 1) * a == N * a + a)%Q) as -> by ring.
    set (Nd := (N * d)%Q) in *. set (Na := (N * a)%Q) in *. split; lra.
Qed.

(** The running sum of [n] finite samples of magnitude at most [2^k], for
    [n] up to [2^28]: it is finite and within [n * 2^(k-23)] of the sum. *)
Lemma runningSum_bounded (wave : JsArray float64) (k : Z) (n : nat) :
  (Z.of_nat n <= 2 ^ 28)%Z -> (-1000 <= k <= 900)%Z ->
  (forall i, i < n -> finiteWithin k (ToNumber (aget wave i))) ->
  isFinite (runningSum wave n) = true
  /\ (Qabs (valQ (runningSum wave n) - sumQ wave n) <= inject_Z (Z.of_nat n) * 2 ^ (k - 23))%Q.
Proof.
  intros Hn Hk. induction n as [|n IH]; intros Hw.
  - rewrite runningSum_0. split; [done|].
    assert (Hz : (valQ zero - sumQ wave 0 == 0)%Q) by (unfold sumQ; simpl; ring).
    assert (H0 : (inject_Z (Z.of_nat 0) * 2 ^ (k - 23) == 0)%Q) by (unfold inject_Z; simpl; ring).
    rewrite Hz, H0. apply Qle_refl.
  - destruct (IH ltac:(lia) ltac:(intros; apply Hw; lia)) as [Hfin Herr].
    destruct (Hw n ltac:(lia)) as [Hwfin Hwabs].
    assert (Hsum : (Qabs (sumQ wave n) <= inject_Z (Z.of_nat n) * 2 ^ k)%Q).
    { apply sumQ_bound. intros i Hi. apply (Hw i). lia. }
    fold (valueAt wave n) in Hwabs.
    rewrite runningSum_S, sumQ_S, inject_Z_S.
    set (s := runningSum wave n) in *. set (w := ToNumber (aget wave n)) in *.
    assert (HN : (inject_Z (Z.of_nat n) + 1 <= 268435456)%Q).
    { rewrite <- inject_Z_S. change 268435456%Q with (inject_Z (2 ^ 28)).
      rewrite <- Zle_Qle. lia. }
    pose proof (inject_Z_of_nat_nonneg n) as HN0.
    set (N := inject_Z (Z.of_nat n)) in *.
    pose proof (pow2_pos (k - 23)) as HP.
    assert (Hk0 : (2 ^ k == 8388608 * 2 ^ (k - 23))%Q).
    { replace k with (k - 23 + 23)%Z at 1 by lia. rewrite pow2_shift. reflexivity. }
    assert (Hk29 : (2 ^ (k + 29) == 4503599627370496 * 2 ^ (k - 23))%Q).
    { replace (k + 29)%Z with (k - 23 + 52)%Z by lia. rewrite pow2_shift. reflexivity. }
    assert (HNP : (N * 2 ^ (k - 23) <= 268435456 * 2 ^ (k - 23))%Q).
    { apply Qmult_le_compat_r; lra. }
    rewrite Hk0 in Hsum, Hwabs.
    set (P := (2 ^ (k - 23))%Q) in *.
    assert (Hmul : (N * (8388608 * P) == 8388608 * (N * P))%Q) by ring.
    rewrite Hmul in Hsum.
    apply Qabs_Qle_condition in Herr, Hsum, Hwabs.
    unfold valueAt in *. fold w in Hwabs |- *.
    set (NP := (N * P)%Q) in *.
    destruct (SFadd_bounded prec64 emax64 prec64_pos s w (k + 29) Hfin Hwfin) as [H1 H2].
    { rewrite Hk29. fold P. apply Qabs_Qle_condition. split; lra. }
    { unfold emin, prec64, emax64. lia. }
    { unfold emax64. lia. }
    replace (k + 29 + 1 - prec64)%Z with (k - 23)%Z in H2 by (unfold prec64; lia).
    fold P in H2. split; [exact H1|].
    change (add s w) with (SFadd prec64 emax64 s w).
    apply Qabs_Qle_condition in H2. apply Qabs_Qle_condition.
    assert (((N + 1) * P == NP + P)%Q) as -> by (subst NP; ring).
    split; lra.
Qed.

Lemma Qabs_div_le (x N B : Q) :
  (0 < N)%Q -> (Qabs x <= N * B)%Q -> (Qabs (x / N) <= B)%Q.
Proof.
  intros HN Hx. apply Qabs_Qle_condition in Hx as [Hlo Hhi]. apply Qabs_Qle_condition. split.
  - apply Qle_shift_div_l; [done|].
    assert ((- B * N == - (N * B))%Q) as -> by ring. done.
  - apply Qle_shift_div_r; [done|].
    assert ((B * N == N * B)%Q) as -> by ring. done.
Qed.

(** [2^e] as a multiple of [2^(k-51)], for [e = k - 51 + c]. *)
Lemma pow2_rel (k e c : Z) (v : Q) :
  e = (k - 51 + c)%Z -> (v == 2 ^ c)%Q -> (2 ^ e == v * 2 ^ (k - 51))%Q.
Proof. intros -> ->. apply pow2_shift. Qed.

Lemma elementOf_bounded (result : JsArray float64) (t : float64) (K : Z) :
  isFinite t = true -> (Qabs (valQ t) <= 2 ^ K)%Q ->
  (-126 <= K <= 126)%Z ->
  isFinite (elementOf result t) = true
  /\ (Qabs (valQ (elementOf result t) - valQ t) <= 2 ^ (K - 23))%Q.
Proof.
  intros Hfin Habs HK. destruct result as [l|l|l]; cbn [elementOf].
  - apply (fround64_bounded t K); tauto || lia.
  - split; [done|]. apply Qabs_zero_le. ring.
  - split; [done|]. apply Qabs_zero_le. ring.
Qed.

Lemma aget_centered (wave result : JsArray float64) (i : nat) :
  alength wave <= alength result -> i < alength wave ->
  aget (computeCenteredWave wave result) i
  = Number (elementOf result (sub (ToNumber (aget wave i)) (waveAverage wave))).
Proof.
  intros Hlen Hi. rewrite computeCenteredWave_fillLoop.
  set (f := fun i => sub (ToNumber (aget wave i)) (waveAverage wave)).
  apply (aget_fillLoop_lt f); [done | apply writable_lt; lia].
Qed.

Section Mean.
Variables (wave : JsArray float64) (k : Z).
Hypothesis Hn : 0 < alength wave.
Hypothesis Hmax : (Z.of_nat (alength wave) <= 2 ^ 28)%Z.
Hypothesis Hk : (-128 <= k <= 124)%Z.
Hypothesis Hwave : forall i, i < alength wave -> finiteWithin k (ToNumber (aget wave i)).

(** The average is finite and close to the mean of the samples. *)
Lemma waveAverage_bounded :
  isFinite (waveAverage wave) = true
  /\ (Qabs (valQ (waveAverage wave)) <= 2 ^ (k + 1))%Q
  /\ (Qabs (valQ (waveAverage wave) - meanQ wave (alength wave)) <= 2 ^ (k - 22))%Q.
Proof using Hn Hmax Hk Hwave.
  unfold waveAverage, meanQ. rewrite waveSum_runningSum.
  set (n := alength wave) in *.
  destruct (runningSum_bounded wave k n Hmax ltac:(lia) Hwave) as [HSfin HSerr].
  assert (Hsum : (Qabs (sumQ wave n) <= inject_Z (Z.of_nat n) * 2 ^ k)%Q).
  { apply sumQ_bound. intros i Hi. apply (Hwave i Hi). }
  destruct (of_length_positive n Hn ltac:(lia)) as (m & e & Hof & Hval).
  rewrite Hof.
  set (S := runningSum wave n) in *.
  set (N := inject_Z (Z.of_nat n)) in *.
  assert (HN : (1 <= N)%Q).
  { subst N. change 1%Q with (inject_Z 1). rewrite <- Zle_Qle. lia. }
  pose proof (pow2_rel k k 51 2251799813685248 ltac:(lia) ltac:(reflexivity)) as Hpow.
  pose proof (pow2_rel k (k + 1)%Z 52 4503599627370496 ltac:(lia) ltac:(reflexivity)) as Hpow0.
  pose proof (pow2_rel k (k - 22)%Z 29 536870912 ltac:(lia) ltac:(reflexivity)) as Hpow1.
  pose proof (pow2_rel k (k - 23)%Z 28 268435456 ltac:(lia) ltac:(reflexivity)) as Hpow2.
  pose proof (pow2_pos (k - 51)) as HP.
  (* the exact quotient *)
  assert (Hq1 : (Qabs ((valQ S - sumQ wave n) / N) <= 2 ^ (k - 23))%Q).
  { apply Qabs_div_le; [lra | done]. }
  assert (Hq2 : (Qabs (sumQ wave n / N) <= 2 ^ k)%Q).
  { apply Qabs_div_le; [lra | done]. }
  assert (Hsplit : ((valQ S - sumQ wave n) / N == valQ S / N - sumQ wave n / N)%Q)
    by (field; lra).
  rewrite Hsplit in Hq1.
  destruct (SFdiv_bounded prec64 emax64 prec64_pos S m e (k + 1) HSfin) as [H1 H2].
  { rewrite Hval. fold N. rewrite Hpow0. rewrite Hpow, Hpow2 in *.
    set (P := (2 ^ (k - 51))%Q) in *.
    apply Qabs_Qle_condition in Hq1, Hq2. apply Qabs_Qle_condition. split; lra. }
  { unfold emin, prec64, emax64. lia. }
  { unfold emax64. lia. }
  change (div S (S754_finite false m e)) with (SFdiv prec64 emax64 S (S754_finite false m e)).
  rewrite Hval in H2. fold N in H2.
  replace (k + 1 + 1 - prec64)%Z with (k - 51)%Z in H2 by (unfold prec64; lia).
  rewrite Hpow0, Hpow1. rewrite Hpow, Hpow2 in *.
  set (P := (2 ^ (k - 51))%Q) in *.
  apply Qabs_Qle_condition in Hq1, Hq2, H2.
  split; [done|]. split; apply Qabs_Qle_condition; split; lra.
Qed.

Variable result : JsArray float64.

(** Each value written is finite, and close to the sample less the
    average. *)
Lemma centered_element_bounded (i : nat) :
  i < alength wave ->
  let centered := elementOf result (sub (ToNumber (aget wave i)) (waveAverage wave)) in
  isFinite centered = true
  /\ (Qabs (valQ centered) <= 2 ^ (k + 3))%Q
  /\ (Qabs (valQ centered - (valueAt wave i - valQ (waveAverage wave)))
      <= 2 ^ (k - 21) + 2 ^ (k - 50))%Q.
Proof using Hn Hmax Hk Hwave.
  intros Hi centered. subst centered.
  destruct waveAverage_bounded as (Hafin & Haabs & _).
  destruct (Hwave i Hi) as [Hwfin Hwabs].
  unfold valueAt.
  set (w := ToNumber (aget wave i)) in *. set (a := waveAverage wave) in *.
  pose proof (pow2_rel k k 51 2251799813685248 ltac:(lia) ltac:(reflexivity)) as Hpow.
  pose proof (pow2_rel k (k + 1)%Z 52 4503599627370496 ltac:(lia) ltac:(reflexivity)) as Hpow0.
  pose proof (pow2_rel k (k + 2)%Z 53 9007199254740992 ltac:(lia) ltac:(reflexivity)) as Hpow1.
  pose proof (pow2_rel k (k + 3)%Z 54 18014398509481984 ltac:(lia) ltac:(reflexivity)) as Hpow2.
  pose proof (pow2_rel k (k - 21)%Z 30 1073741824 ltac:(lia) ltac:(reflexivity)) as Hpow3.
  pose proof (pow2_rel k (k - 50)%Z 1 2 ltac:(lia) ltac:(reflexivity)) as Hpow4.
  pose proof (pow2_pos (k - 51)) as HP.
  destruct (SFsub_bounded prec64 emax64 prec64_pos w a (k + 2) Hwfin Hafin) as [H1 H2].
  { rewrite Hpow1. rewrite Hpow, Hpow0 in *. set (P := (2 ^ (k - 51))%Q) in *.
    apply Qabs_Qle_condition in Hwabs, Haabs. apply Qabs_Qle_condition. split; lra. }
  { unfold emin, prec64, emax64. lia. }
  { unfold emax64. lia. }
  replace (k + 2 + 1 - prec64)%Z with (k - 50)%Z in H2 by (unfold prec64; lia).
  change (sub w a) with (SFsub prec64 emax64 w a).
  set (t := SFsub prec64 emax64 w a) in *.
  assert (Ht : (Qabs (valQ t) <= 2 ^ (k + 2))%Q).
  { rewrite Hpow1. rewrite Hpow, Hpow0, Hpow4 in *. set (P := (2 ^ (k - 51))%Q) in *.
    apply Qabs_Qle_condition in Hwabs, Haabs, H2. apply Qabs_Qle_condition. split; lra. }
  destruct (elementOf_bounded result t (k + 2) H1 Ht ltac:(lia)) as [H3 H4].
  replace (k + 2 - 23)%Z with (k - 21)%Z in H4 by lia.
  split; [done|].
  rewrite Hpow2, Hpow3, Hpow4. rewrite Hpow, Hpow0, Hpow1, Hpow3, Hpow4 in *.
  set (P := (2 ^ (k - 51))%Q) in *.
  apply Qabs_Qle_condition in Hwabs, Haabs, H2, H4, Ht.
  split; apply Qabs_Qle_condition; split; lra.
Qed.

Hypothesis Hlen : alength wave <= alength result.

(** The values written sum to little, and so their mean is small. *)
Lemma centered_mean_bounded :
  let out := computeCenteredWave wave result in
  (Qabs (sumQ out (alength wave)) <= inject_Z (Z.of_nat (alength wave)) * 2 ^ (k - 20))%Q
  /\ (Qabs (meanQ out (alength wave)) <= 2 ^ (k - 20))%Q.
Proof using Hn Hlen Hmax Hk Hwave.
  intros out.
  destruct waveAverage_bounded as (Hafin & Haabs & Hmean).
  set (n := alength wave) in *. set (a := valQ (waveAverage wave)) in *.
  assert (Hshift : (Qabs (sumQ out n - (sumQ wave n - inject_Z (Z.of_nat n) * a))
                    <= inject_Z (Z.of_nat n) * (2 ^ (k - 21) + 2 ^ (k - 50)))%Q).
  { apply sumQ_shift. intros i Hi.
    destruct (centered_element_bounded i Hi) as (_ & _ & Herr).
    unfold valueAt at 1. subst out. rewrite aget_centered by done. exact Herr. }
  set (N := inject_Z (Z.of_nat n)) in *.
  assert (HN : (1 <= N)%Q).
  { subst N. change 1%Q with (inject_Z 1). rewrite <- Zle_Qle. lia. }
  assert (Hsum : (Qabs (sumQ out n) <= N * 2 ^ (k - 20))%Q).
  { unfold meanQ in Hmean. fold N in Hmean.
    assert (Hm : (Qabs (N * a - sumQ wave n) <= N * 2 ^ (k - 22))%Q).
    { apply Qabs_Qle_condition in Hmean as [Hlo Hhi].
      assert (Hdiv : (sumQ wave n == N * (sumQ wave n / N))%Q) by (field; lra).
      set (q := (sumQ wave n / N)%Q) in *.
      apply Qabs_Qle_condition. rewrite Hdiv.
      assert ((N * a - N * q == N * (a - q))%Q) as -> by ring.
      assert ((- (N * 2 ^ (k - 22)) == N * - 2 ^ (k - 22))%Q) as -> by ring.
      split; (apply Qmult_le_l; [lra|done]). }
    pose proof (pow2_rel k (k - 20)%Z 31 2147483648 ltac:(lia) ltac:(reflexivity)) as Hpow.
    pose proof (pow2_rel k (k - 21)%Z 30 1073741824 ltac:(lia) ltac:(reflexivity)) as Hpow0.
    pose proof (pow2_rel k (k - 22)%Z 29 536870912 ltac:(lia) ltac:(reflexivity)) as Hpow1.
    pose proof (pow2_rel k (k - 50)%Z 1 2 ltac:(lia) ltac:(reflexivity)) as Hpow2.
    pose proof (pow2_pos (k - 51)) as HP.
    rewrite Hpow. rewrite Hpow0, Hpow1, Hpow2 in *.
    set (P := (2 ^ (k - 51))%Q) in *.
    assert (H1 : (N * (1073741824 * P + 2 * P) == 1073741826 * (N * P))%Q) by ring.
    assert (H2 : (N * (536870912 * P) == 536870912 * (N * P))%Q) by ring.
    assert (H3 : (N * (2147483648 * P) == 2147483648 * (N * P))%Q) by ring.
    rewrite H1 in Hshift. rewrite H2 in Hm. rewrite H3.
    assert (HNP : (0 <= N * P)%Q) by (apply Qmult_le_0_compat; lra).
    set (NP := (N * P)%Q) in *. set (Na := (N * a)%Q) in *.
    apply Qabs_Qle_condition in Hshift, Hm. apply Qabs_Qle_condition. split; lra. }
  split; [done|]. unfold meanQ. fold N. apply Qabs_div_le; [lra | done].
Qed.
End Mean.

Lemma add_nan_r (x : float64) : add x S754_nan = S754_nan.
Proof. destruct x; reflexivity. Qed.

Lemma add_nan_l (x : float64) : add S754_nan x = S754_nan.
Proof. reflexivity. Qed.

(** [x == x] holds for every Number but NaN. *)
Lemma numEq_refl (x : float64) : numEq x x = negb (isNaN x).
Proof.
  destruct x as [s|s| |s m e]; try reflexivity.
  - by destruct s.
  - unfold numEq, SFeqb, SFcompare.
    destruct s; rewrite Z.compare_refl, Pos.compare_cont_refl; reflexivity.
Qed.

(** Once a NaN, or a hole, has been added, the running sum is NaN. *)
Lemma runningSum_poisoned (wave : JsArray float64) (i n : nat) :
  ToNumber (aget wave i) = S754_nan -> i < n -> runningSum wave n = S754_nan.
Proof.
  intros Hnan. induction n as [|n IH]; [lia|]. intros Hi.
  rewrite runningSum_S. destruct (decide (i = n)) as [->|Hne].
  - rewrite Hnan. apply add_nan_r.
  - rewrite IH by lia. apply add_nan_l.
Qed.

Lemma centered_poisoned (wave result : JsArray float64) (j : nat) :
  alength wave <= alength result ->
  j < alength wave -> ToNumber (aget wave j) = S754_nan ->
  waveAverage wave = S754_nan
  /\ forall i, i < alength wave ->
       aget (computeCenteredWave wave result) i = Number S754_nan.
Proof.
  intros Hlen Hj Hnan.
  assert (Havg : waveAverage wave = S754_nan).
  { unfold waveAverage. rewrite waveSum_runningSum, (runningSum_poisoned wave j) by done.
    reflexivity. }
  split; [exact Havg|]. intros i Hi. rewrite aget_centered by done. rewrite Havg.
  assert (Hsub : sub (ToNumber (aget wave i)) S754_nan = S754_nan)
    by (by destruct (ToNumber (aget wave i))).
  rewrite Hsub. by destruct result.
Qed.


(** The mean of the values written, computed as the source computes an
    average, is finite and small as well. *)
Lemma computed_mean_bounded (wave result : JsArray float64) (k : Z) :
  0 < alength wave -> alength wave <= alength result ->
  (Z.of_nat (alength wave) <= 2 ^ 28)%Z -> (-128 <= k <= 124)%Z ->
  (forall i, i < alength wave -> finiteWithin k (ToNumber (aget wave i))) ->
  finiteWithin (k - 18) (meanOfFirst (computeCenteredWave wave result) (alength wave)).
Proof.
  intros Hn Hlen Hmax Hk Hwave.
  set (n := alength wave) in *. set (out := computeCenteredWave wave result).
  assert (Hout : forall i, i < n -> finiteWithin (k + 3) (ToNumber (aget out i))).
  { intros i Hi. subst out. rewrite aget_centered by done.
    destruct (centered_element_bounded wave k Hn Hmax Hk Hwave result i Hi) as (H1 & H2 & _).
    by split. }
  destruct (runningSum_bounded out (k + 3) n Hmax ltac:(lia) Hout) as [Hfin Herr].
  replace (k + 3 - 23)%Z with (k - 20)%Z in Herr by lia.
  destruct (centered_mean_bounded wave k Hn Hmax Hk Hwave result Hlen) as [Hsum _].
  fold n out in Hsum.
  destruct (of_length_positive n Hn ltac:(lia)) as (m & e & Hof & Hval).
  unfold meanOfFirst. rewrite Hof.
  set (rs := runningSum out n) in *. set (N := inject_Z (Z.of_nat n)) in *.
  assert (HN : (1 <= N)%Q).
  { subst N. change 1%Q with (inject_Z 1). rewrite <- Zle_Qle. lia. }
  pose proof (pow2_rel (k - 20) (k - 18) 53 9007199254740992
                ltac:(lia) ltac:(reflexivity)) as Hp18.
  pose proof (pow2_rel (k - 20) (k - 19) 52 4503599627370496
                ltac:(lia) ltac:(reflexivity)) as Hp19.
  pose proof (pow2_rel (k - 20) (k - 20) 51 2251799813685248
                ltac:(lia) ltac:(reflexivity)) as Hp20.
  replace (k - 20 - 51)%Z with (k - 71)%Z in * by lia.
  pose proof (pow2_pos (k - 71)) as HP.
  assert (Hq : (Qabs (valQ rs / N) <= 2 ^ (k - 19))%Q).
  { apply Qabs_div_le; [lra|]. rewrite Hp19. rewrite Hp20 in Herr, Hsum.
    set (P := (2 ^ (k - 71))%Q) in *.
    assert (H1 : (N * (2251799813685248 * P) == 2251799813685248 * (N * P))%Q) by ring.
    assert (H2 : (N * (4503599627370496 * P) == 4503599627370496 * (N * P))%Q) by ring.
    rewrite H1 in Herr, Hsum. rewrite H2. set (NP := (N * P)%Q) in *.
    apply Qabs_Qle_condition in Herr, Hsum. apply Qabs_Qle_condition. split; lra. }
  destruct (SFdiv_bounded prec64 emax64 prec64_pos rs m e (k - 19) Hfin) as [H1 H2].
  { by rewrite Hval. }
  { unfold emin, prec64, emax64. lia. }
  { unfold emax64. lia. }
  change (div rs (S754_finite false m e)) with (SFdiv prec64 emax64 rs (S754_finite false m e)).
  split; [exact H1|].
  rewrite Hval in H2. fold N in H2.
  replace (k - 19 + 1 - prec64)%Z with (k - 71)%Z in H2 by (unfold prec64; lia).
  rewrite Hp18. rewrite Hp19 in Hq. set (P := (2 ^ (k - 71))%Q) in *.
  apply Qabs_Qle_condition in Hq, H2. apply Qabs_Qle_condition. split; lra.
Qed.

(** ** Centering *)

(** What [computeCenteredWave] writes, for any arithmetic. *)
Lemma computeCenteredWave_writes {num : Type} {A : Arith num} (wave result : JsArray num) :
  alength wave <= alength result ->
  let out := computeCenteredWave wave result in
  (forall i, i < alength wave ->
     aget out i = Number (elementOf result (sub (ToNumber (aget wave i)) (waveAverage wave))))
  /\ (forall i, alength wave <= i -> aget out i = aget result i)
  /\ alength out = alength result.
Proof.
  intros Hlen out. subst out. rewrite computeCenteredWave_fillLoop.
  set (f := fun i => sub (ToNumber (aget wave i)) (waveAverage wave)).
  split; [|split].
  - intros i Hi. apply (aget_fillLoop_lt f); [done | apply writable_lt; lia].
  - intros i Hi. by apply aget_fillLoop_ge.
  - rewrite alength_fillLoop. destruct (isPlainArray result); lia.
Qed.

(** C6, the claim at the waveform that the text parser makes of ["1\nx"],
    whose second line is not a number: the samples are [1, NaN], every value
    written is NaN, and so is the mean of the written portion, which is
    within no tolerance of [0]. Finite samples do not save the claim when
    they are large: at [steepSamples], three finite single-precision
    values, the first value written is [+Infinity], and so is the mean. *)
Lemma computeCenteredWave_mean_counterexample :
  let wave := parseTextLines strayLine in
  let out := computeCenteredWave wave (makeArrayOfSameType wave (Some (alength wave + 1))) in
  let steep := computeCenteredWave steepSamples (makeArrayOfSameType steepSamples (Some 4)) in
  wave = Float32Array [numberOfZ 1; S754_nan]
  /\ out = Float32Array [S754_nan; S754_nan; numberOfZ 0]
  /\ meanOfFirst out (alength wave) = S754_nan
  /\ (forall tolerance, withinTolerance (meanOfFirst out (alength wave)) tolerance = false)
  /\ (forall i, i < 3 -> isFinite (ToNumber (aget steepSamples i)) = true)
  /\ aget steep 0 = Number (S754_infinity false)
  /\ meanOfFirst steep 3 = S754_infinity false
  /\ (forall tolerance, isFinite tolerance = true ->
        withinTolerance (meanOfFirst steep 3) tolerance = false).
Proof.
  intros wave out steep.
  assert (Hmean : meanOfFirst steep 3 = S754_infinity false) by (vm_compute; reflexivity).
  split; [vm_compute; reflexivity|]. split; [vm_compute; reflexivity|].
  split; [vm_compute; reflexivity|]. split; [vm_compute; reflexivity|].
  split; [|split; [vm_compute; reflexivity|split; [exact Hmean|]]].
  - intros i Hi. destruct i as [|[|[|i]]]; try lia; reflexivity.
  - intros tolerance Hfin. rewrite Hmean. by destruct tolerance.
Qed.

(** C6, amended. For a non-empty [wave] and a [result] buffer at least as
    long, [computeCenteredWave] writes [wave[i] - average] at every index
    [i < wave.length], where [average] is the sum of the samples divided by
    their number and the value is stored as the buffer stores it (a
    [Float32Array] rounds it to single precision); it leaves every later
    slot as it was, so a zero-initialised trailing slot stays zero; and the
    buffer keeps its length, which is at least [wave.length].

    When the samples are finite Numbers of magnitude at most [2^k], and
    there are at most [2^28] of them, nothing overflows: [average] is within
    [2^(k-22)] of the arithmetic mean of the samples, every value written is
    finite, and the mean of the values written is at most [2^(k-20)] in
    magnitude, about a millionth of the bound on the samples; computed as
    the source computes an average, that mean is finite and at most
    [2^(k-18)].

    When a sample is NaN (or a hole), [average] and every value written are
    NaN. *)
Theorem computeCenteredWave_centers (wave result : JsArray float64) :
  0 < alength wave ->
  alength wave <= alength result ->
  let n := alength wave in
  let out := computeCenteredWave wave result in
  (forall i, i < n ->
     aget out i = Number (elementOf result (sub (ToNumber (aget wave i)) (waveAverage wave))))
  /\ (forall i, n <= i -> aget out i = aget result i)
  /\ (forall i, n <= i -> aget result i = Number zero -> aget out i = Number zero)
  /\ alength out = alength result
  /\ n <= alength out
  /\ (forall k : Z,
        (-128 <= k <= 124)%Z -> (Z.of_nat n <= 2 ^ 28)%Z ->
        (forall i, i < n -> finiteWithin k (ToNumber (aget wave i))) ->
        finiteWithin (k + 1) (waveAverage wave)
        /\ (Qabs (valQ (waveAverage wave) - meanQ wave n) <= 2 ^ (k - 22))%Q
        /\ (forall i, i < n -> finiteWithin (k + 3) (ToNumber (aget out i)))
        /\ (Qabs (meanQ out n) <= 2 ^ (k - 20))%Q
        /\ finiteWithin (k - 18) (meanOfFirst out n))
  /\ (forall j, j < n -> ToNumber (aget wave j) = nan ->
        waveAverage wave = nan /\ forall i, i < n -> aget out i = Number nan).
Proof.
  intros Hn Hlen n out.
  destruct (computeCenteredWave_writes wave result Hlen) as (Hget & Hrest & Hlength).
  fold out n in Hget, Hrest, Hlength.
  split; [exact Hget|]. split; [exact Hrest|].
  split; [intros i Hi Hz; by rewrite Hrest|].
  split; [exact Hlength|]. split; [lia|]. split.
  - intros k Hk Hmax Hwave.
    destruct (waveAverage_bounded wave k Hn Hmax Hk Hwave) as (Hfin & Habs & Hmean).
    split; [by split|]. split; [exact Hmean|]. split.
    + intros i Hi. rewrite Hget by done.
      destruct (centered_element_bounded wave k Hn Hmax Hk Hwave result i Hi) as (H1 & H2 & _).
      by split.
    + split; [apply (centered_mean_bounded wave k Hn Hmax Hk Hwave result Hlen)|].
      by apply computed_mean_bounded.
  - intros j Hj Hnan. by apply (centered_poisoned wave result j).
Qed.

(** The theorem at the samples [1, 3] in a [Float32Array] of three slots:
    the result is [-1, 1, 0], and with [k = 2] the mean of the two values
    written is within [2^-18] of [0]. *)
Lemma computeCenteredWave_centers_witness :
  let wave := float32s [1; 3]%Z in
  let out := computeCenteredWave wave (float32s [0; 0; 0]%Z) in
  (aget out 0 = Number (numberOfZ (-1))
   /\ aget out 1 = Number (numberOfZ 1)
   /\ aget out 2 = Number (numberOfZ 0)
   /\ alength out = 3)
  /\ (Qabs (meanQ out 2) <= 2 ^ (2 - 20))%Q.
Proof.
  intros wave out.
  destruct (computeCenteredWave_centers wave (float32s [0; 0; 0]%Z)
              ltac:(simpl; lia) ltac:(simpl; lia))
    as (Hget & Hrest & _ & Hlen & _ & Hmean & _).
  split.
  - subst out. rewrite (Hget 0), (Hget 1), (Hrest 2), Hlen by (simpl; lia).
    repeat split; reflexivity.
  - destruct (Hmean 2%Z) as (_ & _ & _ & H & _); [lia | simpl; lia | | exact H].
    intros i Hi. destruct i as [|[|i]]; try (simpl in Hi; lia);
      (split; [reflexivity | apply Qle_bool_imp_le; vm_compute; reflexivity]).
Defined.

(** ** The integral *)

Lemma fround64_zero : fround64 (S754_zero false) = S754_zero false.
Proof. reflexivity. Qed.

Section IntegralFacts.
Context {num : Type} {A : Arith num}.
Implicit Types (wave : JsArray num) (i n : nat).

Lemma writable_makeArrayOfSameType wave i :
  i < alength wave -> writable (makeArrayOfSameType wave None) i.
Proof.
  destruct wave; simpl; rewrite ?length_replicate; auto.
Qed.

Lemma alength_integral wave :
  alength (computeIntegral wave (makeArrayOfSameType wave None)) = alength wave.
Proof.
  rewrite computeIntegral_fillLoop, alength_fillLoop.
  destruct wave; simpl; rewrite ?length_replicate; lia.
Qed.

Lemma aget_integral wave i :
  i < alength wave ->
  aget (computeIntegral wave (makeArrayOfSameType wave None)) i =
    Number (elementOf wave (runningSum wave i)).
Proof.
  intros Hi. rewrite computeIntegral_fillLoop.
  rewrite aget_fillLoop_lt by (try apply writable_makeArrayOfSameType; done).
  by rewrite elementOf_makeArrayOfSameType.
Qed.

(** Where stores do not round, each element is its predecessor plus the
    sample before it. *)
Lemma integral_recurrence_unrounded wave i :
  isFloat32Array wave = false ->
  0 < i < alength wave ->
  aget (computeIntegral wave (makeArrayOfSameType wave None)) i =
    Number (add (ToNumber (aget (computeIntegral wave (makeArrayOfSameType wave None)) (i - 1)))
                (ToNumber (aget wave (i - 1)))).
Proof.
  intros Hk [Hpos Hi]. rewrite !aget_integral by lia.
  destruct i as [|i]; [lia|]. replace (S i - 1) with i by lia.
  rewrite runningSum_S. destruct wave; simpl in *; done.
Qed.
End IntegralFacts.

(** C7, the claim at [tinySteps]: [integral[2] == integral[1] + wave[1]]
    is false. The running sum is [1 + 2^-24] there, which the
    [Float32Array] stores as [1], while [integral[1] + wave[1]] is
    [1 + 2^-24]. Rounding the right-hand side to single precision does not
    save the recurrence either: at index [3] it gives [1], and the array
    holds [1 + 2^-23]. And where stores do not round, [==] fails on NaN:
    at the [Float64Array] [[NaN, 0]] and at the plain array [[1, , 3]] the
    two sides are the same NaN, which [==] equates with nothing. *)
Lemma computeIntegral_recurrence_counterexample :
  let wave := tinySteps in
  let integral := computeIntegral wave (makeArrayOfSameType wave None) in
  let integral64 := computeIntegral nanFirst (makeArrayOfSameType nanFirst None) in
  let integralPlain := computeIntegral holed (makeArrayOfSameType holed None) in
  integral = Float32Array [numberOfZ 0; numberOfZ 1; numberOfZ 1; quotient (2 ^ 23 + 1) (2 ^ 23)]
  /\ numEq (ToNumber (aget integral 2))
           (add (ToNumber (aget integral 1)) (ToNumber (aget wave 1))) = false
  /\ numEq (ToNumber (aget integral 3))
           (fround (add (ToNumber (aget integral 2)) (ToNumber (aget wave 2)))) = false
  /\ numEq (ToNumber (aget integral64 1))
           (add (ToNumber (aget integral64 0)) (ToNumber (aget nanFirst 0))) = false
  /\ numEq (ToNumber (aget integralPlain 2))
           (add (ToNumber (aget integralPlain 1)) (ToNumber (aget holed 1))) = false.
Proof. vm_compute. repeat split; reflexivity. Qed.

(** C7, amended. For every waveform, [computeIntegral] into a buffer from
    [makeArrayOfSameType] gives an array of the input's length whose element
    [i] is the running sum [wave[0] + ... + wave[i-1]] (added from the left,
    starting at [0], in double precision) as the array stores it: exactly in
    a [Float64Array] or plain array, rounded to single precision in a
    [Float32Array]. So element [0] is [0], and [integral[0] == 0]. Where
    stores do not round, each element is the same Number as its predecessor
    plus the sample before it, so [integral[i] == integral[i-1] + wave[i-1]]
    holds there exactly when that Number is not NaN; it is NaN from the
    first sample on that is NaN or a hole. And the last handler of a load
    writes a waveform and an integral of the same length. *)
Theorem computeIntegral_running_sums (wave : JsArray float64) :
  let integral := computeIntegral wave (makeArrayOfSameType wave None) in
  alength integral = alength wave
  /\ (forall i, i < alength wave ->
        aget integral i = Number (elementOf wave (runningSum wave i)))
  /\ runningSum wave 0 = zero
  /\ (forall i, runningSum wave (S i) = add (runningSum wave i) (ToNumber (aget wave i)))
  /\ (0 < alength wave ->
      aget integral 0 = Number zero /\ numEq (ToNumber (aget integral 0)) zero = true)
  /\ (isFloat32Array wave = false ->
      forall i, 0 < i < alength wave ->
        let next := add (ToNumber (aget integral (i - 1))) (ToNumber (aget wave (i - 1))) in
        aget integral i = Number next
        /\ numEq (ToNumber (aget integral i)) next = negb (isNaN next))
  /\ (forall i j, j < i -> ToNumber (aget wave j) = nan -> runningSum wave i = nan)
  /\ (forall (chipWaveRaw chipWaveIntegral : nat) (w : World),
        storeParsed (Some chipWaveRaw) (Some chipWaveIntegral) (Samples wave) w =
          (Fulfilled (),
           setSamples chipWaveIntegral (Samples integral)
             (setSamples chipWaveRaw (Samples wave) w))).
Proof.
  intros integral. subst integral.
  split; [apply alength_integral|].
  split; [intros i Hi; by apply aget_integral|].
  split; [reflexivity|].
  split; [intros i; apply runningSum_S|].
  split.
  { intros Hn. rewrite aget_integral by done.
    rewrite runningSum_0. destruct wave; split; reflexivity. }
  split.
  { intros Hk i Hi next. subst next.
    rewrite (integral_recurrence_unrounded wave i Hk Hi). cbn [ToNumber].
    split; [reflexivity | apply numEq_refl]. }
  split; [intros i j Hj Hnan; by apply (runningSum_poisoned wave j)|].
  reflexivity.
Qed.

(** ** The text parser *)

(** Filling a [Float32Array] over its whole length stores the rounded
    values in order. *)
Lemma fillLoop_Float32Array_prefix (f : nat -> float64) (l : list float64) (n : nat) :
  n <= length l ->
  fillLoop f (Float32Array l) n =
    Float32Array (map (fun i => fround (f i)) (seq 0 n) ++ drop n l).
Proof.
  induction n as [|n IH]; intros Hn.
  - reflexivity.
  - rewrite fillLoop_S, IH by lia. simpl aset. f_equal.
    rewrite seq_S, map_app. cbn [map]. rewrite <- app_assoc.
    destruct (drop n l) as [|x rest] eqn:Hdrop.
    + apply (f_equal length) in Hdrop. rewrite length_drop in Hdrop. simpl in Hdrop. lia.
    + assert (Hrest : drop (S n) l = rest).
      { replace (S n) with (n + 1) by lia. rewrite <- drop_drop, Hdrop. reflexivity. }
      rewrite Hrest.
      rewrite insert_app_r_alt by (rewrite length_map, length_seq; lia).
      rewrite length_map, length_seq. replace (n - n) with 0 by lia. reflexivity.
Qed.

Lemma fillLoop_Float32Array_full (f : nat -> float64) (l : list float64) :
  fillLoop f (Float32Array l) (length l) =
    Float32Array (map (fun i => fround (f i)) (seq 0 (length l))).
Proof.
  rewrite fillLoop_Float32Array_prefix by lia.
  rewrite drop_all, app_nil_r. reflexivity.
Qed.

Lemma map_seq_lookup {T U : Type} (h : option T -> U) (l : list T) :
  map (fun i => h (l !! i)) (seq 0 (length l)) = map (fun x => h (Some x)) l.
Proof.
  apply list_eq. intros i.
  rewrite !list_lookup_fmap.
  destruct (decide (i < length l)) as [Hi|Hi].
  - rewrite lookup_seq_lt by done. simpl.
    destruct (lookup_lt_is_Some_2 l i Hi) as [x Hx]. rewrite Hx. reflexivity.
  - rewrite lookup_seq_ge by lia. rewrite (lookup_ge_None_2 l i) by lia. reflexivity.
Qed.

(** [parsed] holds, line by line, the Number of the line rounded to single
    precision. *)
Lemma parseTextLines_map (data : JsString) :
  parseTextLines data =
    Float32Array (map (fun line => fround64 (StringToNumber line)) (split LF data)).
Proof.
  unfold parseTextLines.
  set (lines := split LF data).
  pose proof (fillLoop_Float32Array_full
                (fun i => match lines !! i with
                          | Some line => StringToNumber line
                          | None => nan
                          end)
                (replicate (length lines) zero)) as H.
  rewrite length_replicate in H. unfold fillLoop in H. rewrite H. f_equal.
  apply (map_seq_lookup
           (fun o => fround64 match o with
                              | Some line => StringToNumber line
                              | None => nan
                              end)).
Qed.

Lemma split_nonempty (sep : N) (s : JsString) : split sep s <> [].
Proof.
  destruct s as [|c s]; simpl; [done|].
  destruct (c =? sep)%N; [done|]. destruct (split sep s); done.
Qed.

(** A final separator adds one empty line. *)
Lemma split_snoc (sep : N) (s : JsString) :
  split sep (s ++ [sep]) = split sep s ++ [[]].
Proof.
  induction s as [|c s IH]; simpl.
  - rewrite N.eqb_refl. reflexivity.
  - destruct (c =? sep)%N.
    + by rewrite IH.
    + rewrite IH. pose proof (split_nonempty sep s) as Hne.
      destruct (split sep s); [done|reflexivity].
Qed.


Lemma alength_parseTextLines (data : JsString) :
  alength (parseTextLines data) = length (split LF data).
Proof. rewrite parseTextLines_map. simpl. apply length_map. Qed.




(** A line that is empty, or white space only, converts to [+0]. *)
Lemma StringToNumber_blank (line : JsString) :
  trimString line = [] -> StringToNumber line = S754_zero false.
Proof. unfold StringToNumber. intros ->. reflexivity. Qed.

(** C10. In a text input, a blank line (empty, or white space only; such
    as the empty last line that a final newline produces) gives the Number
    [0] at its index of the array [parsed], before centering, and [0] is not
    NaN. So an input that ends in a newline has, before centering, the
    samples of the input without that newline and one more sample [0]. *)
Theorem blank_line_parses_to_zero (data : JsString) (i : nat) (line : JsString) :
  split LF data !! i = Some line ->
  trimString line = [] ->
  StringToNumber line = numberOfZ 0
  /\ aget (parseTextLines data) i = Number (numberOfZ 0)
  /\ numberOfZ 0 <> S754_nan
  /\ numEq (numberOfZ 0) (numberOfZ 0) = true
  /\ (forall d : JsString,
        let parsed := parseTextLines d in
        let longer := parseTextLines (d ++ [LF]) in
        alength longer = alength parsed + 1
        /\ (forall j, j < alength parsed -> aget longer j = aget parsed j)
        /\ aget longer (alength parsed) = Number (numberOfZ 0)).
Proof.
  intros Hline Hblank.
  pose proof (StringToNumber_blank line Hblank) as Hzero.
  split; [exact Hzero|]. split.
  { rewrite parseTextLines_map. simpl.
    rewrite list_lookup_fmap, Hline. simpl. rewrite Hzero. reflexivity. }
  split; [discriminate|]. split; [reflexivity|].
  intros d parsed longer. subst parsed longer.
  rewrite !parseTextLines_map, split_snoc, map_app. simpl.
  rewrite length_app, !length_map. simpl. split; [reflexivity|]. split.
  - intros j Hj. rewrite lookup_app_l by (by rewrite length_map). reflexivity.
  - rewrite lookup_app_r by (rewrite length_map; lia).
    rewrite length_map. replace (_ - _) with 0 by lia. reflexivity.
Qed.

(** The theorem at the text sample, whose line [3] is the empty one. *)
Lemma blank_line_parses_to_zero_witness :
  aget (parseTextLines textSample) 3 = Number (numberOfZ 0).
Proof.
  apply (blank_line_parses_to_zero textSample 3 []); reflexivity.
Defined.

(** ** The sample locator *)

Lemma inRange_spec (lo hi c : N) : inRange lo hi c = true <-> (lo <= c <= hi)%N.
Proof.
  unfold inRange. rewrite andb_true_iff, !N.leb_le. reflexivity.
Qed.

(** A character that [encodeURIComponent] leaves alone is ASCII. *)
Lemma isUnescaped_ascii (c : N) : isUnescaped c = true -> (c < 128)%N.
Proof.
  unfold isUnescaped, isUpperAlpha, isLowerAlpha, isDecimalDigit.
  rewrite !orb_true_iff, !inRange_spec, bool_decide_eq_true.
  intros [[[H|H]|H]|H]; try lia.
  cbn in H. repeat (apply elem_of_cons in H as [->|H]; [done|]).
  by apply elem_of_nil in H.
Qed.

Lemma isUnescaped_not_surrogate (c : N) :
  isUnescaped c = true -> isLeadingSurrogate c = false /\ isTrailingSurrogate c = false.
Proof.
  intros H%isUnescaped_ascii. unfold isLeadingSurrogate, isTrailingSurrogate, inRange.
  split; apply andb_false_iff; left; apply N.leb_gt; lia.
Qed.

(** [encodeURIComponent] returns on the well-formed strings, and throws on
    the others. *)
Lemma encodeURIComponent_wellFormed_upto (n : nat) (s : JsString) :
  length s <= n ->
  (isWellFormed s = true -> exists encoded, encodeURIComponent s = Return encoded)
  /\ (isWellFormed s = false -> encodeURIComponent s = Throw uriMalformed).
Proof.
  revert s. induction n as [|n IH]; intros s Hlen.
  - destruct s; [|simpl in Hlen; lia]. simpl. split; [eauto | discriminate].
  - destruct s as [|c rest]; [simpl; split; [eauto | discriminate]|].
    simpl in Hlen. cbn [isWellFormed encodeURIComponent].
    destruct (isUnescaped c) eqn:Hun.
    + destruct (isUnescaped_not_surrogate c Hun) as [-> ->]. simpl.
      destruct (IH rest ltac:(lia)) as [Hok Hbad]. split; intros Hwf.
      * destruct (Hok Hwf) as [e ->]. simpl. eauto.
      * rewrite (Hbad Hwf). reflexivity.
    + destruct (isLeadingSurrogate c).
      * destruct rest as [|c2 rest']; [split; [discriminate | reflexivity]|].
        destruct (isTrailingSurrogate c2); simpl; [|split; [discriminate | reflexivity]].
        simpl in Hlen. destruct (IH rest' ltac:(lia)) as [Hok Hbad]. split; intros Hwf.
        -- destruct (Hok Hwf) as [e ->]. simpl. eauto.
        -- rewrite (Hbad Hwf). reflexivity.
      * destruct (isTrailingSurrogate c); simpl; [split; [discriminate | reflexivity]|].
        destruct (IH rest ltac:(lia)) as [Hok Hbad]. split; intros Hwf.
        -- destruct (Hok Hwf) as [e ->]. simpl. eauto.
        -- rewrite (Hbad Hwf). reflexivity.
Qed.

Lemma encodeURIComponent_wellFormed (s : JsString) :
  isWellFormed s = true -> exists encoded, encodeURIComponent s = Return encoded.
Proof. apply (encodeURIComponent_wellFormed_upto (length s) s). lia. Qed.

Lemma encodeURIComponent_malformed (s : JsString) :
  isWellFormed s = false -> encodeURIComponent s = Throw uriMalformed.
Proof. apply (encodeURIComponent_wellFormed_upto (length s) s). lia. Qed.

(** The folder is that of the first entry, in table order, whose pattern
    matches the name. *)
Lemma folderFor_first (name : JsString) (entries : list (JsString * RegExp))
    (i : nat) (folder : JsString) (re : RegExp) :
  entries !! i = Some (folder, re) ->
  regexpMatch name re = true ->
  (forall j entry, j < i -> entries !! j = Some entry -> regexpMatch name entry.2 = false) ->
  folderFor name entries = folder.
Proof.
  revert i. induction entries as [|[f r] entries IH]; intros i Hi Hm Hbefore; [done|].
  destruct i as [|i]; simpl in *.
  - injection Hi as -> ->. by rewrite Hm.
  - pose proof (Hbefore 0 (f, r) ltac:(lia) eq_refl) as H0. simpl in H0. rewrite H0.
    apply (IH i); [done..|].
    intros j entry Hj Hentry. apply (Hbefore (S j)); [lia | done].
Qed.

(** It is empty when no pattern matches. *)
Lemma folderFor_none (name : JsString) (entries : list (JsString * RegExp)) :
  (forall j entry, entries !! j = Some entry -> regexpMatch name entry.2 = false) ->
  folderFor name entries = [].
Proof.
  induction entries as [|[f r] entries IH]; intros Hnone; [done|].
  pose proof (Hnone 0 (f, r) eq_refl) as H0. simpl in *. rewrite H0.
  apply IH. intros j entry Hentry. by apply (Hnone (S j)).
Qed.

(** A pattern with the [i] flag does not tell a letter from the same letter
    in the other case. *)
Lemma canonicalize_swapCase (re : RegExp) (c : N) :
  ignoreCase re = true -> canonicalize re (swapCase c) = canonicalize re c.
Proof.
  intros Hi. unfold canonicalize, swapCase, isLowerAlpha, isUpperAlpha. rewrite Hi. simpl.
  destruct (inRange 97 122 c) eqn:Hlow.
  - apply inRange_spec in Hlow.
    assert (inRange 97 122 (c - 32) = false) as ->; [|done].
    apply not_true_iff_false. rewrite inRange_spec. lia.
  - destruct (inRange 65 90 c) eqn:Hup.
    + apply inRange_spec in Hup.
      assert (inRange 97 122 (c + 32) = true) as ->; [apply inRange_spec; lia|].
      lia.
    + by rewrite Hlow.
Qed.

Lemma regexpMatch_swapCase (re : RegExp) (c : N) (rest : JsString) :
  ignoreCase re = true ->
  regexpMatch (swapCase c :: rest) re = regexpMatch (c :: rest) re.
Proof.
  intros Hi. unfold regexpMatch, classMatches.
  by rewrite canonicalize_swapCase.
Qed.

(** C4, the claim at a name that is one unpaired surrogate: it has no
    override, and the locator throws a [URIError]. *)
Lemma getSampleDefinitionFromName_counterexample :
  SAMPLE_URL_TABLE thurmbox !! [55296%N] = None
  /\ getSampleDefinitionFromName thurmbox [55296%N] = Throw uriMalformed.
Proof. split; reflexivity. Qed.

(** C4, amended. For a name without an override: if it is well-formed
    UTF-16, the locator returns [url = prefix + folder + percentEncode(name)
    + suffix] and the default format, where [folder] is the folder of the
    first entry of the folder table whose pattern matches the name itself
    (not its encoding), or the empty string if no entry matches; patterns
    with the [i] flag match without regard to the case of the first letter.
    If the name has a surrogate outside a pair, the percent-encoding throws
    a [URIError] and so does the locator. The result depends on the
    configuration and the name only. Every pattern of the source's table
    has the [i] flag. *)
Theorem getSampleDefinitionFromName_default (cfg : Config) (name : JsString) :
  SAMPLE_URL_TABLE cfg !! name = None ->
  (isWellFormed name = true ->
     exists percentEncodedName folder,
       encodeURIComponent name = Return percentEncodedName
       /\ getSampleDefinitionFromName cfg name =
            Return {| url := DEFAULT_SAMPLE_URL_PREFIX cfg ++ folder ++ percentEncodedName
                             ++ DEFAULT_SAMPLE_URL_SUFFIX cfg;
                      format := DEFAULT_SAMPLE_FORMAT cfg |}
       /\ (forall i f re,
             DEFAULT_FOLDER_MAPPINGS cfg !! i = Some (f, re) ->
             regexpMatch name re = true ->
             (forall j entry, j < i -> DEFAULT_FOLDER_MAPPINGS cfg !! j = Some entry ->
                              regexpMatch name entry.2 = false) ->
             folder = f)
       /\ ((forall j entry, DEFAULT_FOLDER_MAPPINGS cfg !! j = Some entry ->
                            regexpMatch name entry.2 = false) ->
           folder = []))
  /\ (isWellFormed name = false ->
      getSampleDefinitionFromName cfg name = Throw uriMalformed)
  /\ (forall re c rest, ignoreCase re = true ->
        regexpMatch (swapCase c :: rest) re = regexpMatch (c :: rest) re)
  /\ Forall (fun entry => ignoreCase entry.2 = true) (DEFAULT_FOLDER_MAPPINGS thurmbox).
Proof.
  intros Hnone. unfold getSampleDefinitionFromName. rewrite Hnone.
  split; [|split; [|split]].
  - intros Hwf. destruct (encodeURIComponent_wellFormed name Hwf) as [encoded Henc].
    exists encoded, (folderFor name (DEFAULT_FOLDER_MAPPINGS cfg)).
    rewrite Henc. repeat split.
    + intros i f re Hi Hm Hbefore. by apply (folderFor_first name _ i f re).
    + intros Hno. by apply folderFor_none.
  - intros Hbad. by rewrite (encodeURIComponent_malformed name Hbad).
  - intros re c rest Hi. by apply regexpMatch_swapCase.
  - repeat constructor.
Qed.

(** The theorem at the name [Snare] in the source's configuration: folder
    [S/]; and the lower-case name is filed in the same folder. *)
Lemma getSampleDefinitionFromName_default_witness :
  getSampleDefinitionFromName thurmbox (js "Snare") =
    Return {| url := js "https://file.garden/ZMQ0Om5nmTe-x2hq/PandoraArchive%20Samples/S/Snare.wav";
              format := js "wav" |}
  /\ folderFor (js "snare") (DEFAULT_FOLDER_MAPPINGS thurmbox) = js "S/".
Proof.
  destruct (getSampleDefinitionFromName_default thurmbox (js "Snare") eq_refl)
    as (Hwf & _ & _ & _).
  destruct (Hwf eq_refl) as (encoded & folder & Henc & Hdef & Hfirst & _).
  split; [|reflexivity].
  rewrite Hdef. injection Henc as <-.
  rewrite (Hfirst 10 (js "S/") (anchoredClass_i [char "s"]) eq_refl eq_refl).
  - reflexivity.
  - intros j entry Hj Hentry.
    do 10 (destruct j as [|j]; [injection Hentry as <-; reflexivity|]). lia.
Defined.

(** C5. A name with an entry in the override table gets that entry's URL
    and format as they are: nothing is encoded, and the prefix, the suffix,
    the default format and the folder table play no part, so that any
    configuration with the same override table gives the same answer. *)
Theorem getSampleDefinitionFromName_override (cfg : Config) (name entryUrl entryFormat : JsString) :
  SAMPLE_URL_TABLE cfg !! name = Some (entryUrl, entryFormat) ->
  getSampleDefinitionFromName cfg name = Return {| url := entryUrl; format := entryFormat |}
  /\ (forall cfg' : Config,
        SAMPLE_URL_TABLE cfg' = SAMPLE_URL_TABLE cfg ->
        getSampleDefinitionFromName cfg' name =
          Return {| url := entryUrl; format := entryFormat |}).
Proof.
  intros Hentry. unfold getSampleDefinitionFromName. split.
  - by rewrite Hentry.
  - intros cfg' ->. by rewrite Hentry.
Qed.

(** The theorem at the override that the source shows in a comment. *)
Lemma getSampleDefinitionFromName_override_witness :
  getSampleDefinitionFromName thurmboxWithHihat (js "Hihat") =
    Return {| url := js "https://example.com/file.wav"; format := js "wav" |}.
Proof.
  exact (proj1 (getSampleDefinitionFromName_override thurmboxWithHihat (js "Hihat")
                  (js "https://example.com/file.wav") (js "wav") eq_refl)).
Defined.

(** ** The generic parser and its audio context *)

Lemma alter_last {T : Type} (f : T -> T) (l : list T) (x : T) :
  alter f (length l) (l ++ [x]) = l ++ [f x].
Proof.
  rewrite alter_app_r_alt by lia. replace (length l - length l) with 0 by lia.
  reflexivity.
Qed.

(** Both ways through the chain end fulfilled, with the context closed
    once: the rejection of the decoder is handled, and not passed on. *)
Lemma parseSampleWithWebAudio_run (P : Platform) (data : Body) (w : World) :
  parseSampleWithWebAudio P data w = (Fulfilled (webAudioResult P data), withClosedContext w).
Proof.
  unfold parseSampleWithWebAudio, webAudioResult, then_, catch_, settled, newAudioContext.
  destruct (decodeAudioDataOf P data) as [audioBuffer|e]; simpl;
    unfold closeAudioContext, withClosedContext; simpl;
    by rewrite alter_last.
Qed.

(** C8. A generic parse creates one audio context and, whether the decoder
    fulfils or rejects, calls its [close] exactly once; the contexts that
    existed before are not touched, and nothing else in the world changes.
    The parse resolves with the centered left channel in the first case and
    with [undefined] in the second. *)
Theorem parseSampleWithWebAudio_closes_once (P : Platform) (data : Body) (w : World) :
  let run := parseSampleWithWebAudio P data w in
  audioContexts run.2 = audioContexts w ++ [1]
  /\ length (audioContexts run.2) = length (audioContexts w) + 1
  /\ audioContexts run.2 !! length (audioContexts w) = Some 1
  /\ (forall ctx, ctx < length (audioContexts w) ->
        audioContexts run.2 !! ctx = audioContexts w !! ctx)
  /\ chipWaves run.2 = chipWaves w
  /\ console run.2 = console w
  /\ (forall audioBuffer, decodeAudioDataOf P data = Fulfilled audioBuffer ->
        run.1 = Fulfilled (Samples (computeCenteredWave (getChannelData0 audioBuffer)
                                      (makeArrayOfSameType (getChannelData0 audioBuffer)
                                         (Some (alength (getChannelData0 audioBuffer) + 1))))))
  /\ (forall e, decodeAudioDataOf P data = Rejected e -> run.1 = Fulfilled NoData).
Proof.
  intros run. subst run. rewrite parseSampleWithWebAudio_run. simpl.
  repeat split.
  - rewrite length_app. simpl. lia.
  - rewrite lookup_app_r by lia. replace (_ - _) with 0 by lia. reflexivity.
  - intros ctx Hctx. by rewrite lookup_app_l.
  - intros audioBuffer Hok. unfold webAudioResult. by rewrite Hok.
  - intros e Hfail. unfold webAudioResult. by rewrite Hfail.
Qed.

(** ** The load orchestrator *)

(** X1. A load whose fetch is rejected, or answered without success, leaves
    every chip wave as it was, creates no audio context, and prints exactly
    one line: the error made from the name and the URL when the response is
    not ok, the reason of the rejection otherwise. *)
Theorem load_fetch_failure_leaves_targets (cfg : Config) (P : Platform) (name : JsString)
    (chipWaveRaw chipWaveIntegral : option nat) (w : World) (def : SampleDefinition) :
  getSampleDefinitionFromName cfg name = Return def ->
  (forall response, fetch P (url def) = Fulfilled response -> ok response = false) ->
  let run := startLoadingSampleData cfg P name chipWaveRaw chipWaveIntegral w in
  run.1 = Return ()
  /\ chipWaves run.2 = chipWaves w
  /\ audioContexts run.2 = audioContexts w
  /\ exists error,
       console run.2 = console w ++ [error]
       /\ (forall response, fetch P (url def) = Fulfilled response ->
             error = couldNotLoad name (url def))
       /\ (forall e, fetch P (url def) = Rejected e -> error = e).
Proof.
  intros Hdef Hfail run. subst run. unfold startLoadingSampleData. rewrite Hdef.
  unfold loadChain, then_, catch_, settled.
  destruct (fetch P (url def)) as [response|e] eqn:Hfetch; simpl.
  - rewrite (Hfail response eq_refl). simpl. repeat split.
    exists (couldNotLoad name (url def)). repeat split. intros e He. discriminate He.
  - repeat split. exists e. repeat split.
    + intros response Hr. discriminate Hr.
    + intros e' He. by injection He.
Qed.

(** The theorem at a load without a network. *)
Lemma load_fetch_failure_leaves_targets_witness :
  chipWaves (startLoadingSampleData thurmbox offline (js "Hihat") (Some 0) (Some 1)
               placeholders).2 = chipWaves placeholders
  /\ console (startLoadingSampleData thurmbox offline (js "Hihat") (Some 0) (Some 1)
                placeholders).2 = [TypeError (js "Failed to fetch")].
Proof.
  assert (Hdef : exists def, getSampleDefinitionFromName thurmbox (js "Hihat") = Return def)
    by (eexists; reflexivity).
  destruct Hdef as [def Hdef].
  destruct (load_fetch_failure_leaves_targets thurmbox offline (js "Hihat") (Some 0) (Some 1)
              placeholders def Hdef ltac:(intros response Hr; discriminate Hr))
    as (_ & Hwaves & _ & error & Hconsole & _ & Herr).
  split; [exact Hwaves|].
  rewrite Hconsole, (Herr _ eq_refl). reflexivity.
Defined.

(** What a load does once the first stages have succeeded. *)
Lemma load_decoded (cfg : Config) (P : Platform) (name : JsString)
    (chipWaveRaw chipWaveIntegral : option nat) (w : World) (def : SampleDefinition)
    (decoded : JsArray float64) :
  getSampleDefinitionFromName cfg name = Return def ->
  Decodes P def decoded ->
  exists w1,
    chipWaves w1 = chipWaves w /\ console w1 = console w
    /\ isFloat32Array decoded = true
    /\ startLoadingSampleData cfg P name chipWaveRaw chipWaveIntegral w =
         (Return (),
          (storeParsed chipWaveRaw chipWaveIntegral
             (Samples (computeCenteredWave decoded
                         (makeArrayOfSameType decoded (Some (alength decoded + 1))))) w1).2).
Proof.
  intros Hdef Hdec. unfold startLoadingSampleData. rewrite Hdef.
  unfold loadChain, then_, catch_, settled.
  destruct Hdec as [response data Htxt Hfetch Hok Htext
                   |response data audioBuffer Htxt Hfetch Hok Hbuf Hdecode].
  - exists w. rewrite Hfetch, Hok, Htxt, Htext. simpl.
    rewrite parseTextLines_map. split; [done|]. split; [done|]. split; [done|].
    rewrite <- parseTextLines_map. unfold parseTextWave.
    destruct chipWaveIntegral; reflexivity.
  - exists (withClosedContext w). rewrite Hfetch, Hok, Htxt, Hbuf. simpl.
    rewrite parseSampleWithWebAudio_run. unfold webAudioResult. simpl. rewrite Hdecode.
    split; [done|]. split; [done|]. split; [done|].
    destruct chipWaveIntegral; reflexivity.
Qed.

(** C1, the claim at two text samples. For ["1\n-1\n0\n"] the integral
    written has five elements, [0, 1, 0, 0, 0], and is not [0, 1, 0]. For
    ["1\n3"] the decoded values are [1, 3], the waveform written is the
    centered [-1, 1, 0], and the integral written is [0, -1, 0]: the prefix
    sums of the centered values, where those of the decoded values would
    begin [0, 1]. *)
Lemma load_integral_counterexample :
  let load data :=
    (startLoadingSampleData thurmboxTxt (servesText data) (js "Hihat")
       (Some 0) (Some 1) placeholders).2 in
  let oneThree := js "1" ++ LF :: js "3" in
  chipWaves (load textSample) !! 0 = Some (Samples (float32s [1; -1; 0; 0; 0]%Z))
  /\ chipWaves (load textSample) !! 1 = Some (Samples (float32s [0; 1; 0; 0; 0]%Z))
  /\ chipWaves (load textSample) !! 1 <> Some (Samples (float32s [0; 1; 0]%Z))
  /\ parseTextLines oneThree = float32s [1; 3]%Z
  /\ chipWaves (load oneThree) !! 0 = Some (Samples (float32s [-1; 1; 0]%Z))
  /\ chipWaves (load oneThree) !! 1 = Some (Samples (float32s [0; -1; 0]%Z))
  /\ computeIntegral (float32s [1; 3]%Z) (makeArrayOfSameType (float32s [1; 3]%Z) None)
       = float32s [0; 1]%Z.
Proof. vm_compute. repeat split; congruence. Qed.

(** C1, amended. In every successful load the integral written to the
    integral target is the integral of the waveform that the parser
    resolved with, which is the centered waveform with its trailing slot,
    the one that is written to the raw target: element [i] is the running
    sum of the centered values before [i] (added from the left in double
    precision, then rounded to single precision), and there is one element
    more than there are decoded samples. It is not computed from the decoded
    values before centering. Nothing is printed. For the text sample
    ["1\n-1\n0\n"] the integral is [0, 1, 0, 0, 0]. *)
Theorem load_writes_integral_of_centered (cfg : Config) (P : Platform) (name : JsString)
    (chipWaveRaw : option nat) (chipWaveIntegral : nat) (w : World)
    (def : SampleDefinition) (decoded : JsArray float64) :
  getSampleDefinitionFromName cfg name = Return def ->
  Decodes P def decoded ->
  let centered :=
    computeCenteredWave decoded (makeArrayOfSameType decoded (Some (alength decoded + 1))) in
  let integral := computeIntegral centered (makeArrayOfSameType centered None) in
  let w' := (startLoadingSampleData cfg P name chipWaveRaw (Some chipWaveIntegral) w).2 in
  chipWaves w' !! chipWaveIntegral = Some (Samples integral)
  /\ (forall obj, chipWaveRaw = Some obj -> obj <> chipWaveIntegral ->
        chipWaves w' !! obj = Some (Samples centered))
  /\ alength integral = alength decoded + 1
  /\ (forall i, i <= alength decoded ->
        aget integral i = Number (fround (runningSum centered i)))
  /\ console w' = console w
  /\ computeIntegral (parseTextWave textSample) (makeArrayOfSameType (parseTextWave textSample) None)
       = float32s [0; 1; 0; 0; 0]%Z.
Proof.
  intros Hdef Hdec centered integral w'.
  destruct (load_decoded cfg P name chipWaveRaw (Some chipWaveIntegral) w def decoded Hdef Hdec)
    as (w1 & Hwaves & Hconsole & Hf32 & Hrun).
  subst w'. rewrite Hrun. fold centered. simpl. fold integral.
  assert (Hcentered : alength centered = alength decoded + 1).
  { subst centered. rewrite computeCenteredWave_fillLoop, alength_fillLoop.
    destruct decoded; try discriminate. simpl. by rewrite length_replicate. }
  assert (Hkind : isFloat32Array centered = true).
  { subst centered. rewrite computeCenteredWave_fillLoop, isFloat32Array_fillLoop.
    destruct decoded; try discriminate. reflexivity. }
  repeat split.
  - apply lookup_insert_eq.
  - intros obj -> Hne. simpl. rewrite lookup_insert_ne by done. apply lookup_insert_eq.
  - subst integral. by rewrite alength_integral.
  - intros i Hi. subst integral. rewrite aget_integral by lia.
    destruct centered; try discriminate. reflexivity.
  - destruct chipWaveRaw; simpl; exact Hconsole.
Qed.

(** The theorem at the text sample, served as text to the configuration
    that has the text format. *)
Lemma load_writes_integral_of_centered_witness :
  chipWaves (startLoadingSampleData thurmboxTxt (servesText textSample) (js "Hihat")
               (Some 0) (Some 1) placeholders).2 !! 1
  = Some (Samples (computeIntegral (parseTextWave textSample)
                     (makeArrayOfSameType (parseTextWave textSample) None))).
Proof.
  assert (Hdef : exists def, getSampleDefinitionFromName thurmboxTxt (js "Hihat") = Return def)
    by (eexists; reflexivity).
  destruct Hdef as [def Hdef].
  refine (proj1 (load_writes_integral_of_centered thurmboxTxt (servesText textSample)
                   (js "Hihat") (Some 0) 1 placeholders def (parseTextLines textSample)
                   Hdef _)).
  injection Hdef as <-.
  by eapply decodes_text.
Defined.

(** C2, the code at a load whose decoding fails: the fetch succeeds, the
    decoder rejects, and both targets are given. The raw target then holds
    [undefined] in place of its placeholder, the integral target keeps its
    placeholder, and the one line printed is the [TypeError] of reading
    [length] of [undefined], not the decoding error. With no integral target
    nothing is printed at all. *)
Theorem load_decode_failure_overwrites_raw :
  let load chipWaveIntegral :=
    (startLoadingSampleData thurmbox (servesUndecodable [82; 73; 70; 70]%N) (js "Hihat")
       (Some 0) chipWaveIntegral placeholders).2 in
  chipWaves placeholders !! 0 = Some (placeholder 7)
  /\ chipWaves (load (Some 1)) !! 0 = Some NoData
  /\ chipWaves (load (Some 1)) !! 1 = Some (placeholder 9)
  /\ console (load (Some 1)) =
       [TypeError (js "Cannot read properties of undefined (reading 'length')")]
  /\ audioContexts (load (Some 1)) = [1]
  /\ chipWaves (load None) !! 0 = Some NoData
  /\ console (load None) = [].
Proof. vm_compute. repeat split; reflexivity. Qed.

(** ** The localStorage replacement *)

Lemma convertToString_id (value : JsString) : convertToString value = value.
Proof. apply app_nil_r. Qed.

(** [getItem] reads the in-memory map, [null] standing for an absent key. *)
Lemma getItem_lookup (key : JsString) (this : FakeLocalStorage) :
  getItem key this = _inMemoryData this !! key.
Proof.
  unfold getItem, _getItemInMemory. rewrite convertToString_id.
  case_bool_decide as Hsome; [reflexivity|].
  destruct (_inMemoryData this !! key) eqn:E; [|reflexivity].
  exfalso. apply Hsome. eauto.
Qed.

(** Without a database a call changes the in-memory map as it would a plain
    map, and leaves the browser alone. *)
Lemma call_in_memory_only (s : FakeLocalStorage * Browser) (c : StorageCall) :
  _database s.1 = None ->
  _database (call s c).1 = None
  /\ _inMemoryData (call s c).1 = mirrorCall (_inMemoryData s.1) c
  /\ (call s c).2 = s.2.
Proof.
  destruct s as [this b]. simpl. intros Hdb.
  destruct c as [key value|key|]; simpl;
    unfold _setItemAsync, _removeItemAsync, _clearAsync; simpl;
    rewrite Hdb, ?convertToString_id; done.
Qed.

Lemma calls_in_memory_only (calls : list StorageCall) (s : FakeLocalStorage * Browser) :
  _database s.1 = None ->
  _database (foldl call s calls).1 = None
  /\ _inMemoryData (foldl call s calls).1 = foldl mirrorCall (_inMemoryData s.1) calls
  /\ (foldl call s calls).2 = s.2.
Proof.
  revert s. induction calls as [|c calls IH]; intros s Hdb; [done|].
  simpl. destruct (call_in_memory_only s c Hdb) as (Hdb' & Hmem & Hb).
  destruct (IH (call s c) Hdb') as (H1 & H2 & H3).
  rewrite Hmem in H2. rewrite Hb in H3. done.
Qed.

(** C9. After [setItem(k, v)], [getItem(k)] returns [v] at once: the value
    is read from the in-memory map, while the persisted store is still as it
    was and the write-through, if there is a database, is a request that is
    still pending. And when opening the database fails at initialization,
    the instance has no database, and every later sequence of [setItem],
    [removeItem] and [clear] calls acts on the in-memory map alone: the map
    is what the calls make of the empty map, [getItem] reads it, and the
    browser's store, pending requests and console stay as initialization
    left them. *)
Theorem setItem_then_getItem (this : FakeLocalStorage) (b : Browser) (k v : JsString) :
  let after := setItem k v (this, b) in
  getItem k after.1 = Some v
  /\ idbStore after.2 = idbStore b
  /\ (forall database, _database this = Some database ->
        idbPending after.2 = idbPending b ++ [PutRequest v k])
  /\ (_database this = None -> after.2 = b)
  /\ (forall (databaseName : JsString) (b0 : Browser) (calls : list StorageCall),
        let opened := initializeFakeLocalStorage databaseName OpenFails b0 in
        let final := foldl call opened calls in
        _database opened.1 = None
        /\ _inMemoryData opened.1 = ∅
        /\ idbStore opened.2 = idbStore b0
        /\ idbPending opened.2 = idbPending b0
        /\ _inMemoryData final.1 = foldl mirrorCall ∅ calls
        /\ (forall key, getItem key final.1 = foldl mirrorCall ∅ calls !! key)
        /\ final.2 = opened.2).
Proof.
  intros after. subst after. simpl. repeat split.
  - rewrite getItem_lookup. simpl. rewrite !convertToString_id. apply lookup_insert_eq.
  - unfold _setItemAsync. simpl. destruct (_database this); reflexivity.
  - intros database Hdb. unfold _setItemAsync. simpl.
    rewrite Hdb, !convertToString_id. reflexivity.
  - intros Hdb. unfold _setItemAsync. simpl. by rewrite Hdb.
  - apply (calls_in_memory_only calls
             (initializeFakeLocalStorage databaseName OpenFails b0)). reflexivity.
  - intros key. rewrite getItem_lookup.
    destruct (calls_in_memory_only calls
                (initializeFakeLocalStorage databaseName OpenFails b0) eq_refl)
      as (_ & -> & _). reflexivity.
  - apply (calls_in_memory_only calls
             (initializeFakeLocalStorage databaseName OpenFails b0)). reflexivity.
Qed.

(** A database that opens: the in-memory map is filled from the store, and
    what was written is read back by a later instance once the requests have
    gone through. *)

Lemma foldl_insert_lookup (l : list (JsString * JsString)) (m : gmap JsString JsString)
    (k : JsString) :
  NoDup l.*1 ->
  foldl (fun m entry => <[entry.1 := entry.2]> m) m l !! k =
    match (list_to_map l : gmap JsString JsString) !! k with
    | Some v => Some v
    | None => m !! k
    end.
Proof.
  revert m. induction l as [|[k1 v1] l IH]; intros m Hnodup; [done|].
  simpl in *. apply NoDup_cons in Hnodup as [Hfresh Hnodup].
  rewrite IH by done.
  destruct (decide (k = k1)) as [->|Hne].
  - rewrite (not_elem_of_list_to_map_1 (M := gmap JsString) l k1) by done.
    by rewrite !lookup_insert_eq.
  - rewrite !lookup_insert_ne by done. reflexivity.
Qed.

Lemma read_entries (l : list (JsString * JsString)) (this : FakeLocalStorage) :
  let read := foldl (fun this entry => _setItemInMemory entry.1 entry.2 this) this l in
  _database read = _database this
  /\ _inMemoryData read =
       foldl (fun m entry => <[entry.1 := entry.2]> m) (_inMemoryData this) l.
Proof.
  revert this. induction l as [|[k v] l IH]; intros this; [done|].
  simpl. destruct (IH (_setItemInMemory k v this)) as [Hdb Hmem].
  split; [by rewrite Hdb|]. rewrite Hmem. simpl. by rewrite !convertToString_id.
Qed.

(** Initialization with a database that opens and a cursor that runs to the
    end gives an instance whose map is the store. *)
Lemma initialize_hydrates (databaseName : JsString) (database : IDBDatabase) (b : Browser) :
  let opened := initializeFakeLocalStorage databaseName (OpenSucceeds database None) b in
  _database opened.1 = Some database
  /\ _inMemoryData opened.1 = idbStore b
  /\ opened.2 = b.
Proof.
  simpl. unfold initializeFakeLocalStorage, _initialize. simpl.
  destruct (read_entries (map_to_list (idbStore b))
              (withDatabase (newFakeLocalStorage databaseName) database)) as [Hdb Hmem].
  split; [exact Hdb|]. split; [|reflexivity].
  rewrite Hmem. simpl. apply map_eq. intros k.
  rewrite foldl_insert_lookup by apply NoDup_fst_map_to_list.
  rewrite list_to_map_to_list, lookup_empty. by destruct (idbStore b !! k).
Qed.

Lemma applyRequests_snoc (store : gmap JsString JsString) (requests : list IDBRequest)
    (request : IDBRequest) :
  applyRequests store (requests ++ [request]) = applyRequest request (applyRequests store requests).
Proof. unfold applyRequests. by rewrite foldl_app. Qed.

(** With a database, the map is always the store with the pending requests
    applied. *)
Lemma call_keeps_mirror (s : FakeLocalStorage * Browser) (c : StorageCall) (database : IDBDatabase) :
  _database s.1 = Some database ->
  applyRequests (idbStore s.2) (idbPending s.2) = _inMemoryData s.1 ->
  _database (call s c).1 = Some database
  /\ applyRequests (idbStore (call s c).2) (idbPending (call s c).2) = _inMemoryData (call s c).1.
Proof.
  destruct s as [this b]. simpl. intros Hdb Hmirror.
  destruct c as [key value|key|]; simpl;
    unfold _setItemAsync, _removeItemAsync, _clearAsync; simpl;
    rewrite Hdb; simpl; rewrite applyRequests_snoc, Hmirror, ?convertToString_id; done.
Qed.

Lemma calls_keep_mirror (calls : list StorageCall) (s : FakeLocalStorage * Browser)
    (database : IDBDatabase) :
  _database s.1 = Some database ->
  applyRequests (idbStore s.2) (idbPending s.2) = _inMemoryData s.1 ->
  applyRequests (idbStore (foldl call s calls).2) (idbPending (foldl call s calls).2)
    = _inMemoryData (foldl call s calls).1.
Proof.
  revert s. induction calls as [|c calls IH]; intros s Hdb Hmirror; [done|].
  simpl. destruct (call_keeps_mirror s c database Hdb Hmirror) as [Hdb' Hmirror'].
  by apply IH.
Qed.

Lemma complete_prefix (pending extra : list IDBRequest) (b : Browser) :
  idbPending b = pending ++ extra ->
  let b' := foldl (fun b _ => completeRequest true b) b pending in
  idbStore b' = applyRequests (idbStore b) pending
  /\ idbPending b' = extra
  /\ messages b' = messages b.
Proof.
  revert b. induction pending as [|r pending IH]; intros b Hp; [done|].
  assert (Hstep : completeRequest true b =
                    {| idbStore := applyRequest r (idbStore b);
                       idbPending := pending ++ extra;
                       messages := messages b |}).
  { unfold completeRequest. rewrite Hp. reflexivity. }
  simpl. rewrite Hstep.
  apply (IH {| idbStore := applyRequest r (idbStore b);
               idbPending := pending ++ extra;
               messages := messages b |}).
  reflexivity.
Qed.

Lemma completeAll_applies (b : Browser) :
  idbStore (completeAll b) = applyRequests (idbStore b) (idbPending b)
  /\ idbPending (completeAll b) = []
  /\ messages (completeAll b) = messages b.
Proof.
  apply (complete_prefix (idbPending b) [] b). by rewrite app_nil_r.
Qed.

(** X2. What was written is read back after a reload. An instance is
    initialized on a database that opens, with no request pending; any calls
    are made on it; the requests they issued all succeed; a new instance is
    initialized on the same database. Then the store holds what the first
    instance held in memory, and the new instance reads back the same value
    for every key. *)
Theorem reload_reads_back (databaseName : JsString) (database : IDBDatabase) (b0 : Browser)
    (calls : list StorageCall) :
  idbPending b0 = [] ->
  let opened := initializeFakeLocalStorage databaseName (OpenSucceeds database None) b0 in
  let used := foldl call opened calls in
  let flushed := completeAll used.2 in
  let reloaded := initializeFakeLocalStorage databaseName (OpenSucceeds database None) flushed in
  _inMemoryData opened.1 = idbStore b0
  /\ idbStore flushed = _inMemoryData used.1
  /\ idbPending flushed = []
  /\ _inMemoryData reloaded.1 = _inMemoryData used.1
  /\ (forall key, getItem key reloaded.1 = getItem key used.1).
Proof.
  intros Hidle opened used flushed reloaded.
  destruct (initialize_hydrates databaseName database b0) as (Hdb & Hmem & Hb).
  fold opened in Hdb, Hmem, Hb.
  assert (Hmirror : applyRequests (idbStore used.2) (idbPending used.2) = _inMemoryData used.1).
  { apply (calls_keep_mirror calls opened database Hdb).
    rewrite Hb, Hidle, Hmem. reflexivity. }
  destruct (completeAll_applies used.2) as (Hstore & Hpending & _).
  fold flushed in Hstore, Hpending.
  destruct (initialize_hydrates databaseName database flushed) as (_ & Hmem' & _).
  fold reloaded in Hmem'.
  assert (Heq : _inMemoryData reloaded.1 = _inMemoryData used.1)
    by (by rewrite Hmem', Hstore, Hmirror).
  split; [exact Hmem|]. split; [by rewrite Hstore|]. split; [exact Hpending|].
  split; [exact Heq|].
  intros key. by rewrite !getItem_lookup, Heq.
Qed.

(** The theorem at one [setItem] on an empty store. *)
Lemma reload_reads_back_witness :
  let b0 := {| idbStore := ∅; idbPending := []; messages := [] |} in
  let opened := initializeFakeLocalStorage (js "beepboxFakeLocalStorage")
                  (OpenSucceeds (Database (js "beepboxFakeLocalStorage")) None) b0 in
  let used := foldl call opened [CallSetItem (js "k") (js "v")] in
  let reloaded := initializeFakeLocalStorage (js "beepboxFakeLocalStorage")
                    (OpenSucceeds (Database (js "beepboxFakeLocalStorage")) None)
                    (completeAll used.2) in
  getItem (js "k") reloaded.1 = Some (js "v").
Proof.
  intros b0 opened used reloaded.
  destruct (reload_reads_back (js "beepboxFakeLocalStorage")
              (Database (js "beepboxFakeLocalStorage")) b0
              [CallSetItem (js "k") (js "v")] eq_refl) as (_ & _ & _ & _ & Hread).
  fold opened used reloaded in Hread. rewrite Hread. reflexivity.
Defined.

(** ** Lines that are not numbers, and plain arrays *)

(** Once a NaN has been added, the running sum is NaN. *)
Lemma runningSum_nan (wave : JsArray float64) (i n : nat) :
  aget wave i = Number S754_nan -> i < n -> runningSum wave n = S754_nan.
Proof.
  intros Hnan. induction n as [|n IH]; [lia|]. intros Hi.
  rewrite runningSum_S. destruct (decide (i = n)) as [->|Hne].
  - rewrite Hnan. apply add_nan_r.
  - rewrite IH by lia. apply add_nan_l.
Qed.

(** X3. A text load does not reject a line that is not a number: the line
    becomes NaN, the parser resolves all the same, and every sample of the
    waveform it resolves with is NaN, the reserved slot apart. *)
Theorem nonnumeric_line_poisons_waveform (data : JsString) (i : nat) (line : JsString) :
  split LF data !! i = Some line ->
  StringToNumber line = S754_nan ->
  (forall (S : Type) (s : S),
     parseTextSample (TextBody data) s = (Fulfilled (Samples (parseTextWave data)), s))
  /\ waveAverage (parseTextLines data) = S754_nan
  /\ (forall j, j < length (split LF data) ->
        aget (parseTextWave data) j = Number S754_nan)
  /\ aget (parseTextWave data) (length (split LF data)) = Number (numberOfZ 0).
Proof.
  intros Hline Hnan.
  pose proof (lookup_lt_Some _ _ _ Hline) as Hi.
  assert (Hparsed : aget (parseTextLines data) i = Number S754_nan).
  { rewrite parseTextLines_map. simpl. rewrite list_lookup_fmap, Hline. simpl.
    by rewrite Hnan. }
  assert (Havg : waveAverage (parseTextLines data) = S754_nan).
  { unfold waveAverage. rewrite waveSum_runningSum.
    rewrite (runningSum_nan _ i) by (rewrite ?alength_parseTextLines; done).
    reflexivity. }
  split; [reflexivity|]. split; [exact Havg|]. split.
  - intros j Hj. unfold parseTextWave. rewrite computeCenteredWave_fillLoop.
    rewrite aget_fillLoop_lt.
    + rewrite Havg. rewrite elementOf_makeArrayOfSameType.
      rewrite parseTextLines_map at 1. simpl.
      destruct (ToNumber _); reflexivity.
    + by rewrite alength_parseTextLines.
    + apply writable_lt. rewrite alength_makeArrayOfSameType, alength_parseTextLines.
      * lia.
      * by rewrite parseTextLines_map.
  - unfold parseTextWave. rewrite computeCenteredWave_fillLoop.
    rewrite aget_fillLoop_ge by (by rewrite alength_parseTextLines).
    rewrite aget_makeArrayOfSameType; [done | by rewrite parseTextLines_map |].
    rewrite alength_parseTextLines. lia.
Qed.

(** The theorem at the text ["1\nx\n3"]. *)
Lemma nonnumeric_line_poisons_waveform_witness :
  aget (parseTextWave (js "1" ++ LF :: js "x" ++ LF :: js "3")) 0 = Number S754_nan.
Proof.
  destruct (nonnumeric_line_poisons_waveform (js "1" ++ LF :: js "x" ++ LF :: js "3") 1 (js "x")
              eq_refl eq_refl) as (_ & _ & Hall & _).
  apply Hall. simpl. lia.
Defined.

Section PlainArrays.
Context {num : Type} {A : Arith num}.

(** Filling the empty plain array writes each index at the end of the
    array: it grows by one element at a time, and no hole is made. *)
Lemma fillLoop_PlainArray_dense (f : nat -> num) (n : nat) :
  fillLoop f (PlainArray []) n = PlainArray (map (fun i => Number (f i)) (seq 0 n)).
Proof.
  induction n as [|n IH]; [reflexivity|].
  rewrite fillLoop_S, IH, seq_S, map_app. cbn [aset map].
  rewrite length_map, length_seq.
  rewrite decide_False by lia.
  replace (n - n) with 0 by lia. reflexivity.
Qed.

(** X4. For a plain array [makeArrayOfSameType] gives the empty array whatever
    the length asked for, and the two loops extend it to the length of the
    wave. *)
Theorem plain_arrays_grow (wave : list (JsValue num)) (length : option nat) :
  makeArrayOfSameType (PlainArray wave) length = PlainArray []
  /\ computeIntegral (PlainArray wave) (makeArrayOfSameType (PlainArray wave) length)
     = PlainArray (map (fun i => Number (runningSum (PlainArray wave) i))
                       (seq 0 (List.length wave)))
  /\ computeCenteredWave (PlainArray wave) (makeArrayOfSameType (PlainArray wave) length)
     = PlainArray (map (fun i => Number (sub (ToNumber (aget (PlainArray wave) i))
                                             (waveAverage (PlainArray wave))))
                       (seq 0 (List.length wave))).
Proof.
  split; [reflexivity|]. split.
  - rewrite computeIntegral_fillLoop. simpl. apply fillLoop_PlainArray_dense.
  - rewrite computeCenteredWave_fillLoop. simpl.
    apply (fillLoop_PlainArray_dense
             (fun i => sub (ToNumber (aget (PlainArray wave) i)) (waveAverage (PlainArray wave)))).
Qed.
End PlainArrays.

(** ** What a load can and cannot do *)

(** The last handler writes to its targets only, and prints nothing
    itself. *)
Lemma storeParsed_frame (chipWaveRaw chipWaveIntegral : option nat) (parsed : SampleData)
    (w : World) :
  let w1 := (storeParsed chipWaveRaw chipWaveIntegral parsed w).2 in
  (forall obj, chipWaveRaw <> Some obj -> chipWaveIntegral <> Some obj ->
     chipWaves w1 !! obj = chipWaves w !! obj)
  /\ (forall obj, is_Some (chipWaves w !! obj) -> is_Some (chipWaves w1 !! obj))
  /\ console w1 = console w
  /\ audioContexts w1 = audioContexts w.
Proof.
  unfold storeParsed.
  destruct chipWaveRaw as [r|], chipWaveIntegral as [i|], parsed as [|a]; simpl;
    repeat split; try done; intros obj; intros;
    repeat (rewrite lookup_insert_ne by congruence); try done;
    repeat match goal with
           | |- is_Some (<[?k := _]> _ !! obj) =>
               destruct (decide (k = obj)) as [->|];
               [rewrite lookup_insert_eq; eauto | rewrite lookup_insert_ne by done]
           end; done.
Qed.

(** The chain of a load, whatever the platform answers. *)
Lemma loadChain_effects (P : Platform) (name url format : JsString)
    (chipWaveRaw chipWaveIntegral : option nat) (w : World) :
  let w' := (loadChain P name url format chipWaveRaw chipWaveIntegral w).2 in
  (forall obj, chipWaveRaw <> Some obj -> chipWaveIntegral <> Some obj ->
     chipWaves w' !! obj = chipWaves w !! obj)
  /\ (forall obj, is_Some (chipWaves w !! obj) -> is_Some (chipWaves w' !! obj))
  /\ (console w' = console w \/ exists error, console w' = console w ++ [error])
  /\ (audioContexts w' = audioContexts w \/ audioContexts w' = audioContexts w ++ [1])
  /\ (isTxt format = true -> audioContexts w' = audioContexts w).
Proof.
  unfold loadChain, then_, catch_, settled.
  destruct (fetch P url) as [response|e]; simpl; [|repeat split; eauto].
  destruct (ok response); simpl; [|repeat split; eauto].
  destruct (isTxt format) eqn:Htxt; simpl.
  - destruct (text response) as [data|e]; simpl; [|repeat split; eauto].
    destruct (storeParsed_frame chipWaveRaw chipWaveIntegral (Samples (parseTextWave data)) w)
      as (H1 & H2 & H3 & H4).
    destruct (storeParsed chipWaveRaw chipWaveIntegral (Samples (parseTextWave data)) w)
      as [[[]|e] w1]; simpl in *; rewrite ?H3, ?H4; repeat split; eauto.
  - destruct (arrayBuffer response) as [data|e]; simpl;
      [|repeat split; eauto; discriminate].
    rewrite parseSampleWithWebAudio_run.
    destruct (storeParsed_frame chipWaveRaw chipWaveIntegral
                (webAudioResult P (BufferBody data)) (withClosedContext w))
      as (H1 & H2 & H3 & H4).
    destruct (storeParsed chipWaveRaw chipWaveIntegral (webAudioResult P (BufferBody data))
                (withClosedContext w)) as [[[]|e] w1]; simpl in *;
      rewrite ?H3, ?H4; simpl; repeat split; eauto; discriminate.
Qed.

(** X5. Whatever the platform answers, a load changes the samples of no
    object other than its two targets and removes no object's samples; it
    prints at most one line, after those already printed; and it creates at
    most one audio context, which it closes exactly once, and none at all
    for the text format. A load that throws changes nothing. *)
Theorem load_effects_are_bounded (cfg : Config) (P : Platform) (name : JsString)
    (chipWaveRaw chipWaveIntegral : option nat) (w : World) :
  let run := startLoadingSampleData cfg P name chipWaveRaw chipWaveIntegral w in
  (forall obj, chipWaveRaw <> Some obj -> chipWaveIntegral <> Some obj ->
     chipWaves run.2 !! obj = chipWaves w !! obj)
  /\ (forall obj, is_Some (chipWaves w !! obj) -> is_Some (chipWaves run.2 !! obj))
  /\ (console run.2 = console w \/ exists error, console run.2 = console w ++ [error])
  /\ (audioContexts run.2 = audioContexts w \/ audioContexts run.2 = audioContexts w ++ [1])
  /\ (forall def, getSampleDefinitionFromName cfg name = Return def ->
        isTxt (format def) = true -> audioContexts run.2 = audioContexts w)
  /\ (forall error, run.1 = Throw error -> run.2 = w).
Proof.
  intros run. subst run. unfold startLoadingSampleData.
  destruct (getSampleDefinitionFromName cfg name) as [def|e]; simpl;
    [|repeat split; eauto; discriminate].
  destruct (loadChain_effects P name (url def) (format def) chipWaveRaw chipWaveIntegral w)
    as (H1 & H2 & H3 & H4 & H5).
  repeat split; try done.
  intros def0 Heq Htxt. injection Heq as <-. by apply H5.
Qed.



(** X7. When the fetch succeeds and reading the body is rejected, the load
    leaves the world as it was but for one line on the console, which is
    the reason of the rejection; no parser runs. *)
Theorem load_body_failure (cfg : Config) (P : Platform) (name : JsString)
    (chipWaveRaw chipWaveIntegral : option nat) (w : World)
    (def : SampleDefinition) (response : Response) (error : JsError) :
  getSampleDefinitionFromName cfg name = Return def ->
  fetch P (url def) = Fulfilled response ->
  ok response = true ->
  bodyFor (format def) response = Rejected error ->
  startLoadingSampleData cfg P name chipWaveRaw chipWaveIntegral w
  = (Return (), consoleError error w).
Proof.
  intros Hdef Hfetch Hok Hbody. unfold startLoadingSampleData. rewrite Hdef.
  unfold loadChain, then_, catch_, settled. rewrite Hfetch, Hok. simpl.
  unfold bodyFor in Hbody.
  destruct (isTxt (format def)); simpl; rewrite Hbody; reflexivity.
Qed.

(** The theorem at a platform whose bodies cannot be read. *)
Lemma load_body_failure_witness :
  startLoadingSampleData thurmbox servesBrokenBody (js "Hihat") (Some 0) (Some 1) placeholders
  = (Return (), consoleError (TypeError (js "network error")) placeholders).
Proof.
  assert (Hdef : exists def, getSampleDefinitionFromName thurmbox (js "Hihat") = Return def)
    by (eexists; reflexivity).
  destruct Hdef as [def Hdef].
  refine (load_body_failure thurmbox servesBrokenBody (js "Hihat") (Some 0) (Some 1)
            placeholders def _ _ Hdef eq_refl eq_refl _).
  injection Hdef as <-. reflexivity.
Defined.

(** ** More on the post-processor *)

(** X8. The integral of a centered waveform with its trailing slot, as a
    load computes it, starts at [0] and comes back close to [0] at the
    trailing slot. For [n <= 2^j] finite samples of magnitude at most [2^k]
    in a typed array, the last element of the integral is finite and at
    most [2^(k+j-18)] in magnitude, where the integral of [n] such samples
    can reach [2^(k+j)]. *)
Theorem integral_of_centered_returns_near_zero (wave : JsArray float64) (k j : Z) :
  0 < alength wave ->
  isPlainArray wave = false ->
  (0 <= j <= 28)%Z -> (Z.of_nat (alength wave) <= 2 ^ j)%Z ->
  (-100 <= k <= 100)%Z ->
  (forall i, i < alength wave -> finiteWithin k (ToNumber (aget wave i))) ->
  let centered :=
    computeCenteredWave wave (makeArrayOfSameType wave (Some (alength wave + 1))) in
  let integral := computeIntegral centered (makeArrayOfSameType centered None) in
  alength integral = alength wave + 1
  /\ aget integral 0 = Number zero
  /\ isFinite (ToNumber (aget integral (alength wave))) = true
  /\ (Qabs (valueAt integral (alength wave)) <= 2 ^ (k + j - 18))%Q.
Proof.
  intros Hn Hkind Hj Hnj Hk Hwave centered integral.
  set (n := alength wave) in *.
  set (result := makeArrayOfSameType wave (Some (n + 1))) in *.
  assert (Hres : n <= alength result).
  { subst result. rewrite alength_makeArrayOfSameType; [lia | done]. }
  assert (Hmax : (Z.of_nat n <= 2 ^ 28)%Z).
  { eapply Z.le_trans; [exact Hnj|]. apply Z.pow_le_mono_r; lia. }
  assert (Hlen : alength centered = n + 1).
  { subst centered. rewrite computeCenteredWave_fillLoop, alength_fillLoop. subst result n.
    destruct wave; try discriminate; simpl; by rewrite length_replicate. }
  subst integral. unfold valueAt. rewrite alength_integral, !aget_integral by lia.
  split; [exact Hlen|]. split.
  { rewrite runningSum_0. destruct centered; reflexivity. }
  cbn [ToNumber].
  assert (Hcentered : forall i, i < n -> finiteWithin (k + 3) (ToNumber (aget centered i))).
  { intros i Hi. subst centered. rewrite aget_centered by done.
    destruct (centered_element_bounded wave k Hn Hmax ltac:(lia) Hwave result i Hi)
      as (H1 & H2 & _).
    by split. }
  destruct (runningSum_bounded centered (k + 3) n Hmax ltac:(lia) Hcentered) as [Hfin Herr].
  replace (k + 3 - 23)%Z with (k - 20)%Z in Herr by lia.
  destruct (centered_mean_bounded wave k Hn Hmax ltac:(lia) Hwave result Hres) as [Hsum _].
  fold n centered in Hsum.
  set (rs := runningSum centered n) in *.
  pose proof (inject_Z_of_nat_nonneg n) as HN0.
  assert (HN : (inject_Z (Z.of_nat n) * 2 ^ (k - 20) <= 2 ^ (k + j - 20))%Q).
  { replace (k + j - 20)%Z with (j + (k - 20))%Z by lia. rewrite pow2_add.
    apply Qmult_le_compat_r; [|pose proof (pow2_pos (k - 20)); lra].
    rewrite <- pow2_inject by lia. by rewrite <- Zle_Qle. }
  set (NP := (inject_Z (Z.of_nat n) * 2 ^ (k - 20))%Q) in *.
  assert (Hp20 : (2 ^ (k + j - 20) == 4194304 * 2 ^ (k + j - 42))%Q).
  { change 4194304%Q with (2 ^ 22)%Q. rewrite <- pow2_shift.
    by replace (k + j - 42 + 22)%Z with (k + j - 20)%Z by lia. }
  assert (Hp19 : (2 ^ (k + j - 19) == 8388608 * 2 ^ (k + j - 42))%Q).
  { change 8388608%Q with (2 ^ 23)%Q. rewrite <- pow2_shift.
    by replace (k + j - 42 + 23)%Z with (k + j - 19)%Z by lia. }
  assert (Hp18 : (2 ^ (k + j - 18) == 16777216 * 2 ^ (k + j - 42))%Q).
  { change 16777216%Q with (2 ^ 24)%Q. rewrite <- pow2_shift.
    by replace (k + j - 42 + 24)%Z with (k + j - 18)%Z by lia. }
  pose proof (pow2_pos (k + j - 42)) as HP.
  assert (Hrs : (Qabs (valQ rs) <= 2 ^ (k + j - 19))%Q).
  { rewrite Hp19. rewrite Hp20 in HN. set (P := (2 ^ (k + j - 42))%Q) in *.
    apply Qabs_Qle_condition in Herr, Hsum. apply Qabs_Qle_condition. split; lra. }
  destruct (elementOf_bounded centered rs (k + j - 19) Hfin Hrs ltac:(lia)) as [H1 H2].
  split; [done|].
  replace (k + j - 19 - 23)%Z with (k + j - 42)%Z in H2 by lia.
  rewrite Hp18. rewrite Hp19 in Hrs. set (P := (2 ^ (k + j - 42))%Q) in *.
  apply Qabs_Qle_condition in Hrs, H2. apply Qabs_Qle_condition. split; lra.
Qed.

(** The theorem at the samples [1, 3], with [k = 2] and [j = 1]. *)
Lemma integral_of_centered_returns_near_zero_witness :
  let wave := float32s [1; 3]%Z in
  let centered := computeCenteredWave wave (makeArrayOfSameType wave (Some 3)) in
  let integral := computeIntegral centered (makeArrayOfSameType centered None) in
  integral = float32s [0; -1; 0]%Z
  /\ (Qabs (valueAt integral 2) <= 2 ^ (2 + 1 - 18))%Q.
Proof.
  intros wave centered integral. split; [vm_compute; reflexivity|].
  refine (proj2 (proj2 (proj2 (integral_of_centered_returns_near_zero wave 2 1
                                 ltac:(simpl; lia) eq_refl ltac:(lia) ltac:(simpl; lia)
                                 ltac:(lia) _)))).
  intros i Hi. destruct i as [|[|i]]; try (simpl in Hi; lia);
    (split; [reflexivity | apply Qle_bool_imp_le; vm_compute; reflexivity]).
Defined.

(** X9. A buffer of the wrong length. A typed [result] keeps its length:
    when it is shorter than the wave the writes past its end are dropped,
    and the elements it has are the ones a long enough buffer would get. A
    plain [result] that is shorter than the wave is extended to the length
    of the wave. *)
Theorem buffers_of_other_lengths {num : Type} {A : Arith num} (wave result : JsArray num) :
  let centered := computeCenteredWave wave result in
  let integral := computeIntegral wave result in
  (isPlainArray result = false ->
     alength centered = alength result /\ alength integral = alength result)
  /\ (isPlainArray result = true ->
      alength centered = alength result `max` alength wave
      /\ alength integral = alength result `max` alength wave)
  /\ (forall i, i < alength wave -> writable result i ->
        aget centered i
          = Number (elementOf result (sub (ToNumber (aget wave i)) (waveAverage wave)))
        /\ aget integral i = Number (elementOf result (runningSum wave i)))
  /\ (forall i, alength wave <= i ->
        aget centered i = aget result i /\ aget integral i = aget result i)
  /\ (isPlainArray result = false -> forall i, alength result <= i ->
        aget centered i = Undefined /\ aget integral i = Undefined).
Proof.
  intros centered integral. subst centered integral.
  rewrite computeCenteredWave_fillLoop, computeIntegral_fillLoop.
  set (f := fun i => sub (ToNumber (aget wave i)) (waveAverage wave)).
  split; [|split; [|split; [|split]]].
  - intros Hk. by rewrite !alength_fillLoop, Hk.
  - intros Hk. by rewrite !alength_fillLoop, Hk.
  - intros i Hi Hw. split.
    + by apply (aget_fillLoop_lt f).
    + by apply aget_fillLoop_lt.
  - intros i Hi. by rewrite !aget_fillLoop_ge.
  - intros Hk i Hi. split; apply aget_ge; by rewrite alength_fillLoop, Hk.
Qed.

(** ** More on the locator *)

Lemma encodeURIComponent_unescaped (s : JsString) :
  Forall (fun c => isUnescaped c = true) s -> encodeURIComponent s = Return s.
Proof.
  induction 1 as [|c s Hc Hs IH]; [reflexivity|].
  cbn [encodeURIComponent]. rewrite Hc, IH. reflexivity.
Qed.

(** X10. A name of letters, digits and [-_.!~*'()] only is not changed by
    the percent-encoding, so without an override its URL is the prefix, the
    folder, the name itself and the suffix. *)
Theorem plain_name_is_not_encoded (cfg : Config) (name : JsString) :
  SAMPLE_URL_TABLE cfg !! name = None ->
  Forall (fun c => isUnescaped c = true) name ->
  encodeURIComponent name = Return name
  /\ getSampleDefinitionFromName cfg name =
       Return {| url := DEFAULT_SAMPLE_URL_PREFIX cfg
                        ++ folderFor name (DEFAULT_FOLDER_MAPPINGS cfg)
                        ++ name ++ DEFAULT_SAMPLE_URL_SUFFIX cfg;
                 format := DEFAULT_SAMPLE_FORMAT cfg |}.
Proof.
  intros Hnone Hplain. pose proof (encodeURIComponent_unescaped name Hplain) as Henc.
  split; [exact Henc|].
  unfold getSampleDefinitionFromName. by rewrite Hnone, Henc.
Qed.

(** The theorem at the name [Kick_01]. *)
Lemma plain_name_is_not_encoded_witness :
  getSampleDefinitionFromName thurmbox (js "Kick_01") =
    Return {| url := js "https://file.garden/ZMQ0Om5nmTe-x2hq/PandoraArchive%20Samples/IJKL/Kick_01.wav";
              format := js "wav" |}.
Proof.
  destruct (plain_name_is_not_encoded thurmbox (js "Kick_01") eq_refl) as [_ Hdef].
  - repeat constructor.
  - rewrite Hdef. reflexivity.
Defined.

Lemma upperHexDigit_unescaped (d : N) : (d < 16)%N -> isUnescaped (upperHexDigit d) = true.
Proof.
  intros Hd. unfold upperHexDigit, isUnescaped, isUpperAlpha, isDecimalDigit.
  destruct (N.ltb_spec d 10).
  - assert (inRange 48 57 (48 + d) = true) as -> by (apply inRange_spec; lia).
    by rewrite orb_true_r.
  - assert (inRange 65 90 (55 + d) = true) as -> by (apply inRange_spec; lia).
    reflexivity.
Qed.

Lemma percentOctet_urlSafe (b : N) : (b < 256)%N -> Forall urlSafe (percentOctet b).
Proof.
  intros Hb. unfold percentOctet.
  apply Forall_cons. split; [by right|].
  apply Forall_cons. split.
  { left. apply upperHexDigit_unescaped. apply N.Div0.div_lt_upper_bound. lia. }
  apply Forall_cons. split; [|constructor].
  left. apply upperHexDigit_unescaped. apply N.mod_lt. lia.
Qed.

Lemma utf8Octets_bytes (cp : N) :
  (cp < 1114112)%N -> Forall (fun b => (b < 256)%N) (utf8Octets cp).
Proof.
  intros Hcp. unfold utf8Octets.
  assert (H64 : forall x, (x mod 64 < 64)%N) by (intros; apply N.mod_lt; lia).
  destruct (N.ltb_spec cp 128); [repeat (apply Forall_cons; split); [lia | constructor]|].
  destruct (N.ltb_spec cp 2048).
  { repeat (apply Forall_cons; split); [| |constructor].
    - assert (cp / 64 < 32)%N by (apply N.Div0.div_lt_upper_bound; lia). lia.
    - pose proof (H64 cp). lia. }
  destruct (N.ltb_spec cp 65536).
  { repeat (apply Forall_cons; split); [| | |constructor].
    - assert (cp / 4096 < 16)%N by (apply N.Div0.div_lt_upper_bound; lia). lia.
    - pose proof (H64 (cp / 64)%N). lia.
    - pose proof (H64 cp). lia. }
  repeat (apply Forall_cons; split); [| | | |constructor].
  - assert (cp / 262144 < 5)%N by (apply N.Div0.div_lt_upper_bound; lia). lia.
  - pose proof (H64 (cp / 4096)%N). lia.
  - pose proof (H64 (cp / 64)%N). lia.
  - pose proof (H64 cp). lia.
Qed.

Lemma percentEncode_urlSafe (cp : N) : (cp < 1114112)%N -> Forall urlSafe (percentEncode cp).
Proof.
  intros Hcp. unfold percentEncode.
  pose proof (utf8Octets_bytes cp Hcp) as Hbytes.
  induction Hbytes as [|b bs Hb Hbs IH]; [constructor|].
  cbn [map concat]. apply Forall_app. split; [by apply percentOctet_urlSafe | exact IH].
Qed.

Lemma surrogatePair_bound (lead trail : N) :
  isLeadingSurrogate lead = true -> isTrailingSurrogate trail = true ->
  (surrogatePair lead trail < 1114112)%N.
Proof.
  unfold isLeadingSurrogate, isTrailingSurrogate, surrogatePair.
  rewrite !inRange_spec. lia.
Qed.

Lemma encodeURIComponent_urlSafe_upto (n : nat) (s encoded : JsString) :
  length s <= n ->
  Forall (fun c => (c < 65536)%N) s ->
  encodeURIComponent s = Return encoded ->
  Forall urlSafe encoded.
Proof.
  revert s encoded. induction n as [|n IH]; intros s encoded Hlen Hunits Henc.
  - destruct s; [|simpl in Hlen; lia]. injection Henc as <-. constructor.
  - destruct s as [|c rest]; [injection Henc as <-; constructor|].
    simpl in Hlen. apply Forall_cons in Hunits as [Hc Hrest].
    cbn [encodeURIComponent] in Henc.
    destruct (isUnescaped c) eqn:Hun.
    + destruct (encodeURIComponent rest) as [e|] eqn:Hr; [|discriminate].
      injection Henc as <-. constructor; [by left|].
      apply (IH rest); [lia | done | done].
    + destruct (isLeadingSurrogate c) eqn:Hlead.
      * destruct rest as [|c2 rest']; [discriminate|].
        destruct (isTrailingSurrogate c2) eqn:Htrail; [|discriminate].
        destruct (encodeURIComponent rest') as [e|] eqn:Hr; [|discriminate].
        injection Henc as <-. apply Forall_cons in Hrest as [_ Hrest'].
        apply Forall_app. split.
        -- apply percentEncode_urlSafe. by apply surrogatePair_bound.
        -- apply (IH rest'); [simpl in Hlen; lia | done | done].
      * destruct (isTrailingSurrogate c); [discriminate|].
        destruct (encodeURIComponent rest) as [e|] eqn:Hr; [|discriminate].
        injection Henc as <-. apply Forall_app. split.
        -- apply percentEncode_urlSafe. lia.
        -- apply (IH rest); [lia | done | done].
Qed.

(** X11. Without an override the URL is the prefix, the folder, the
    percent-encoded name and the suffix, and whatever the name (a string of
    16-bit code units) the encoded name holds only letters, digits,
    [-_.!~*'()] and percent signs: every code unit is ASCII, and none is a
    slash, a question mark, a hash, an ampersand, an equals sign, a plus, a
    colon, a semicolon or a space. Dots are left as they are. *)
Theorem encoded_name_is_url_safe (cfg : Config) (name : JsString) (def : SampleDefinition) :
  SAMPLE_URL_TABLE cfg !! name = None ->
  Forall (fun c => (c < 65536)%N) name ->
  getSampleDefinitionFromName cfg name = Return def ->
  exists encoded,
    encodeURIComponent name = Return encoded
    /\ url def = DEFAULT_SAMPLE_URL_PREFIX cfg
                 ++ folderFor name (DEFAULT_FOLDER_MAPPINGS cfg)
                 ++ encoded ++ DEFAULT_SAMPLE_URL_SUFFIX cfg
    /\ format def = DEFAULT_SAMPLE_FORMAT cfg
    /\ Forall urlSafe encoded
    /\ Forall (fun c => (c < 128)%N) encoded
    /\ Forall (fun c => c ∉ js "/?#&=+:; ") encoded.
Proof.
  intros Hnone Hunits Hdef. unfold getSampleDefinitionFromName in Hdef.
  rewrite Hnone in Hdef.
  destruct (encodeURIComponent name) as [encoded|e] eqn:Henc; [|discriminate].
  injection Hdef as <-. exists encoded.
  pose proof (encodeURIComponent_urlSafe_upto (length name) name encoded
                ltac:(lia) Hunits Henc) as Hsafe.
  split; [reflexivity|]. split; [reflexivity|]. split; [reflexivity|].
  split; [exact Hsafe|]. split.
  - eapply Forall_impl; [exact Hsafe|]. intros c [Hc| ->]; [|lia].
    by apply isUnescaped_ascii.
  - eapply Forall_impl; [exact Hsafe|]. intros c [Hc| ->] Hin.
    + cbn in Hin.
      repeat (apply elem_of_cons in Hin as [->|Hin]; [discriminate Hc|]).
      by apply elem_of_nil in Hin.
    + cbn in Hin.
      repeat (apply elem_of_cons in Hin as [Heq|Hin]; [discriminate Heq|]).
      by apply elem_of_nil in Hin.
Qed.

(** The theorem at the name [../x y] in the configuration of the source:
    the slash and the space are encoded, the dots stay, and no folder is
    chosen. *)
Lemma encoded_name_is_url_safe_witness :
  getSampleDefinitionFromName thurmbox (js "../x y")
  = Return {| url := js "https://file.garden/ZMQ0Om5nmTe-x2hq/PandoraArchive%20Samples/..%2Fx%20y.wav";
              format := js "wav" |}
  /\ Forall (fun c => c ∉ js "/?#&=+:; ") (js "..%2Fx%20y").
Proof.
  split; [reflexivity|].
  destruct (encoded_name_is_url_safe thurmbox (js "../x y") _ eq_refl
              ltac:(repeat constructor) eq_refl) as (encoded & Henc & _ & _ & _ & _ & Hno).
  injection Henc as <-. exact Hno.
Defined.

(** Only the first character of a name is looked at. *)
Lemma folderFor_first_char (c : N) (rest : JsString) (entries : list (JsString * RegExp)) :
  folderFor (c :: rest) entries = folderFor [c] entries
  /\ matchingFolders (c :: rest) entries = matchingFolders [c] entries.
Proof.
  induction entries as [|[f re] entries [IH1 IH2]]; [done|].
  simpl. destruct (classMatches re c); [split; [done | by rewrite IH2] | done].
Qed.

Lemma rangeMembers_le (r : N * N) (a : N) : a ∈ rangeMembers r -> (a <= r.2)%N.
Proof.
  unfold rangeMembers. intros Hin. apply list_elem_of_fmap in Hin as (k & -> & Hk).
  apply elem_of_seq in Hk. lia.
Qed.

(** A class of ASCII characters matches no character outside ASCII. *)
Lemma classMatches_non_ascii (re : RegExp) (c : N) :
  Forall (fun r => (r.2 < 128)%N) (classRanges re) ->
  (128 <= c)%N ->
  classMatches re c = false.
Proof.
  intros Hascii Hc. unfold classMatches.
  apply not_true_iff_false. intros Hex.
  apply existsb_exists in Hex as (r & Hr & Hex).
  apply existsb_exists in Hex as (a & Ha & Heq).
  apply N.eqb_eq in Heq.
  rewrite Forall_forall in Hascii.
  apply list_elem_of_In in Hr, Ha.
  pose proof (Hascii r Hr) as Hhi. pose proof (rangeMembers_le r a Ha) as Hle.
  unfold canonicalize, isLowerAlpha in Heq.
  assert (inRange 97 122 c = false) as Hnl.
  { apply not_true_iff_false. rewrite inRange_spec. lia. }
  rewrite Hnl, andb_false_r in Heq.
  destruct (ignoreCase re && inRange 97 122 a); lia.
Qed.

Lemma folders_non_ascii (c : N) (entries : list (JsString * RegExp)) :
  Forall (fun entry => Forall (fun r => (r.2 < 128)%N) (classRanges entry.2)) entries ->
  (128 <= c)%N ->
  folderFor [c] entries = [] /\ matchingFolders [c] entries = [].
Proof.
  induction 1 as [|[f re] entries Hre Hrest IH]; intros Hc; [done|].
  simpl in *. rewrite (classMatches_non_ascii re c Hre Hc). by apply IH.
Qed.

Lemma folderFor_swapCase (c : N) (rest : JsString) (entries : list (JsString * RegExp)) :
  Forall (fun entry => ignoreCase entry.2 = true) entries ->
  folderFor (swapCase c :: rest) entries = folderFor (c :: rest) entries.
Proof.
  induction 1 as [|[f re] entries Hre Hrest IH]; [done|].
  cbn [folderFor]. rewrite (regexpMatch_swapCase re c rest Hre), IH. reflexivity.
Qed.

(** X12. In the folder table of the source, a name is filed by its first
    character alone. If that is an ASCII letter or digit, exactly one entry
    matches, so the order of the table plays no part, and the folder is not
    empty and ends with a slash. If it is any other character, or the name is
    empty, no entry matches and the folder is the empty string. A letter is
    filed like the same letter in the other case. *)
Theorem thurmbox_folders (c : N) (rest : JsString) :
  let table := DEFAULT_FOLDER_MAPPINGS thurmbox in
  let folder := folderFor (c :: rest) table in
  folder = folderFor [c] table
  /\ (isAsciiAlnum c = true ->
      matchingFolders (c :: rest) table = [folder] /\ last folder = Some 47%N)
  /\ (isAsciiAlnum c = false ->
      matchingFolders (c :: rest) table = [] /\ folder = [])
  /\ folderFor (swapCase c :: rest) table = folder
  /\ folderFor [] table = []
  /\ length table = 13.
Proof.
  intros table folder. subst folder.
  rewrite (folderFor_swapCase c rest table) by (repeat constructor).
  destruct (folderFor_first_char c rest table) as [-> ->].
  split; [reflexivity|].
  destruct (N.lt_ge_cases c 128) as [Hlt|Hge].
  - assert (Hall : Forall (fun c =>
                (isAsciiAlnum c = true ->
                 matchingFolders [c] table = [folderFor [c] table]
                 /\ last (folderFor [c] table) = Some 47%N)
                /\ (isAsciiAlnum c = false ->
                    matchingFolders [c] table = [] /\ folderFor [c] table = []))
              (map N.of_nat (seq 0 128))).
    { refine (bool_decide_unpack _ _). vm_compute. exact I. }
    rewrite Forall_forall in Hall.
    destruct (Hall c) as [Hyes Hno].
    { apply list_elem_of_fmap. exists (N.to_nat c). split; [lia|]. apply elem_of_seq. lia. }
    repeat split; try done; by (apply Hyes || apply Hno).
  - assert (Hnot : isAsciiAlnum c = false).
    { unfold isAsciiAlnum, isDecimalDigit, isUpperAlpha, isLowerAlpha.
      repeat (apply orb_false_iff; split);
        apply not_true_iff_false; rewrite inRange_spec; lia. }
    destruct (folders_non_ascii c table) as [Hf Hm]; [|done|].
    { refine (bool_decide_unpack _ _). vm_compute. exact I. }
    rewrite Hf, Hm. split; [|done].
    intros Hyes. rewrite Hnot in Hyes. discriminate Hyes.
Qed.

(** ** More on the text parser *)

Lemma trimStart_snoc (l : JsString) (w : N) :
  isStrWhiteSpaceChar w = true ->
  trimStart (l ++ [w]) = match trimStart l with
                         | [] => []
                         | t => t ++ [w]
                         end.
Proof.
  intros Hw. induction l as [|c l IH]; cbn [app trimStart].
  - by rewrite Hw.
  - destruct (isStrWhiteSpaceChar c); [exact IH | reflexivity].
Qed.

(** White space at either end of a line does not change its Number. *)
Lemma StringToNumber_padded (line : JsString) (w : N) :
  isStrWhiteSpaceChar w = true ->
  StringToNumber (line ++ [w]) = StringToNumber line
  /\ StringToNumber (w :: line) = StringToNumber line.
Proof.
  intros Hw. unfold StringToNumber.
  assert (Hend : trimString (line ++ [w]) = trimString line).
  { unfold trimString. rewrite trimStart_snoc by done.
    destruct (trimStart line) as [|c t]; [reflexivity|].
    rewrite rev_app_distr. cbn [rev app trimStart]. by rewrite Hw. }
  assert (Hstart : trimString (w :: line) = trimString line).
  { unfold trimString. cbn [trimStart]. by rewrite Hw. }
  by rewrite Hend, Hstart.
Qed.

(** The lines of the text with Windows line ends are those of the text,
    some with a carriage return at the end. *)
Lemma split_toCRLF (data : JsString) :
  Forall2 (fun line' line => line' = line \/ line' = line ++ [CR])
          (split LF (toCRLF data)) (split LF data).
Proof.
  induction data as [|c data IH]; cbn [toCRLF split].
  - constructor; [by left | constructor].
  - destruct (N.eqb_spec c LF) as [->|Hne].
    + cbn [split]. change (CR =? LF)%N with false. rewrite N.eqb_refl.
      constructor; [by right | exact IH].
    + cbn [split]. destruct (N.eqb_spec c LF); [done|].
      destruct IH as [|line' line lines' lines Hline Hlines]; [constructor; [by left|constructor]|].
      constructor; [|exact Hlines].
      destruct Hline as [->| ->]; [by left | by right].
Qed.

(** X13. A text file with Windows line ends is parsed like the same file
    with line feeds only: the carriage return left at the end of each line
    is white space, which the conversion of a line to a Number ignores, as it
    ignores white space at the start of a line. The lines, the samples
    before centering and the waveform the parser resolves with are the
    same. *)
Theorem crlf_text_parses_alike (data : JsString) :
  length (split LF (toCRLF data)) = length (split LF data)
  /\ parseTextLines (toCRLF data) = parseTextLines data
  /\ parseTextWave (toCRLF data) = parseTextWave data
  /\ (forall (line : JsString) (w : N), isStrWhiteSpaceChar w = true ->
        StringToNumber (line ++ [w]) = StringToNumber line
        /\ StringToNumber (w :: line) = StringToNumber line).
Proof.
  pose proof (split_toCRLF data) as Hlines.
  assert (Hparsed : parseTextLines (toCRLF data) = parseTextLines data).
  { rewrite !parseTextLines_map. f_equal.
    induction Hlines as [|line' line lines' lines Hline Hrest IH]; [reflexivity|].
    cbn [map]. rewrite IH. f_equal.
    destruct Hline as [->| ->]; [reflexivity|].
    by rewrite (proj1 (StringToNumber_padded line CR eq_refl)). }
  split; [by apply Forall2_length in Hlines|].
  split; [exact Hparsed|].
  split; [unfold parseTextWave; by rewrite Hparsed|].
  intros line w Hw. by apply StringToNumber_padded.
Qed.

(** ** More on the localStorage replacement *)

(** With or without a database, a call changes the in-memory map as it
    would a plain map. *)
Lemma call_mirror (s : FakeLocalStorage * Browser) (c : StorageCall) :
  _database (call s c).1 = _database s.1
  /\ _inMemoryData (call s c).1 = mirrorCall (_inMemoryData s.1) c.
Proof.
  destruct s as [this b].
  destruct c as [key value|key|]; simpl; rewrite ?convertToString_id; done.
Qed.

Lemma calls_mirror (calls : list StorageCall) (s : FakeLocalStorage * Browser) :
  _database (foldl call s calls).1 = _database s.1
  /\ _inMemoryData (foldl call s calls).1 = foldl mirrorCall (_inMemoryData s.1) calls.
Proof.
  revert s. induction calls as [|c calls IH]; intros s; [done|].
  simpl. destruct (IH (call s c)) as [Hdb Hmem].
  destruct (call_mirror s c) as [Hdb' Hmem'].
  by rewrite Hdb, Hmem, Hdb', Hmem'.
Qed.

(** X14. The synchronous interface behaves like [localStorage] on string
    keys, whether there is a database or not: a key never set, removed or
    cleared reads as [null]; the last value set for a key is the one read;
    setting or removing one key leaves the others as they were; removing an
    absent key leaves the in-memory map as it was; and after any sequence of
    calls the in-memory map is what the calls make of the map before. *)
Theorem storage_contract (s : FakeLocalStorage * Browser) (k k' v v' : JsString) :
  (forall databaseName, getItem k (newFakeLocalStorage databaseName) = None)
  /\ getItem k (removeItem k s).1 = None
  /\ getItem k (clear s).1 = None
  /\ getItem k (setItem k v' (setItem k v s)).1 = Some v'
  /\ getItem k (removeItem k (setItem k v s)).1 = None
  /\ (k <> k' ->
      getItem k' (setItem k v s).1 = getItem k' s.1
      /\ getItem k' (removeItem k s).1 = getItem k' s.1)
  /\ (getItem k s.1 = None -> _inMemoryData (removeItem k s).1 = _inMemoryData s.1)
  /\ (forall calls : list StorageCall,
        _inMemoryData (foldl call s calls).1 = foldl mirrorCall (_inMemoryData s.1) calls).
Proof.
  destruct s as [this b]. rewrite !getItem_lookup. simpl.
  rewrite !convertToString_id.
  split; [intros; by rewrite getItem_lookup|].
  split; [apply lookup_delete_eq|].
  split; [apply lookup_empty|].
  split; [apply lookup_insert_eq|].
  split; [apply lookup_delete_eq|].
  split.
  { intros Hne. by rewrite lookup_insert_ne, lookup_delete_ne. }
  split.
  { intros Hnone. by apply delete_id. }
  intros calls. apply (calls_mirror calls (this, b)).
Qed.

Lemma call_issues_request (s : FakeLocalStorage * Browser) (c : StorageCall)
    (database : IDBDatabase) :
  _database s.1 = Some database ->
  (call s c).2 = issue (requestOf c) s.2.
Proof.
  destruct s as [this b]. simpl. intros Hdb.
  destruct c as [key value|key|]; simpl;
    unfold _setItemAsync, _removeItemAsync, _clearAsync; simpl;
    rewrite Hdb, ?convertToString_id; done.
Qed.

(** X15. With a database, every call issues exactly one request, and the
    requests wait in the order of the calls; the store itself is not touched
    until a request completes, and nothing is printed. Once they have all
    succeeded the store is the old store with the requests applied in that
    order. *)
Theorem write_through_in_call_order (s : FakeLocalStorage * Browser)
    (database : IDBDatabase) (calls : list StorageCall) :
  _database s.1 = Some database ->
  let s' := foldl call s calls in
  _database s'.1 = Some database
  /\ idbPending s'.2 = idbPending s.2 ++ map requestOf calls
  /\ idbStore s'.2 = idbStore s.2
  /\ messages s'.2 = messages s.2
  /\ idbStore (completeAll s'.2)
     = applyRequests (idbStore s.2) (idbPending s.2 ++ map requestOf calls)
  /\ idbPending (completeAll s'.2) = [].
Proof.
  intros Hdb s'. subst s'.
  assert (Hgen : _database (foldl call s calls).1 = Some database
                 /\ idbPending (foldl call s calls).2 = idbPending s.2 ++ map requestOf calls
                 /\ idbStore (foldl call s calls).2 = idbStore s.2
                 /\ messages (foldl call s calls).2 = messages s.2).
  { revert s Hdb. induction calls as [|c calls IH]; intros s Hdb.
    - simpl. by rewrite app_nil_r.
    - simpl. destruct (call_mirror s c) as [Hdb' _].
      destruct (IH (call s c)) as (H1 & H2 & H3 & H4); [by rewrite Hdb'|].
      rewrite H1, H2, H3, H4, (call_issues_request s c database Hdb). simpl.
      by rewrite <- app_assoc. }
  destruct Hgen as (H1 & H2 & H3 & H4).
  destruct (completeAll_applies (foldl call s calls).2) as (Hstore & Hpending & _).
  rewrite Hstore, H2, H3. done.
Qed.

(** The theorem at two calls on a fresh instance with a database. *)
Lemma write_through_in_call_order_witness :
  let s := (withDatabase (newFakeLocalStorage (js "db")) (Database (js "db")),
            {| idbStore := ∅; idbPending := []; messages := [] |}) in
  idbPending (foldl call s [CallSetItem (js "k") (js "v"); CallRemoveItem (js "k")]).2
  = [PutRequest (js "v") (js "k"); DeleteRequest (js "k")].
Proof.
  intros s.
  destruct (write_through_in_call_order s (Database (js "db"))
              [CallSetItem (js "k") (js "v"); CallRemoveItem (js "k")] eq_refl)
    as (_ & Hpending & _).
  exact Hpending.
Defined.

(** X16. A write-through that fails is dropped. After an instance was
    filled from the store, one call was made and its request failed: the
    in-memory map has the change, the store does not, one line naming the
    request was printed, nothing is pending, and an instance initialized
    afterwards reads the store as it was before the call. *)
Theorem failed_write_is_dropped (databaseName : JsString) (database : IDBDatabase)
    (b0 : Browser) (c : StorageCall) :
  idbPending b0 = [] ->
  let opened := initializeFakeLocalStorage databaseName (OpenSucceeds database None) b0 in
  let used := call opened c in
  let failed := completeRequest false used.2 in
  let reloaded := initializeFakeLocalStorage databaseName (OpenSucceeds database None) failed in
  _inMemoryData used.1 = mirrorCall (idbStore b0) c
  /\ idbStore failed = idbStore b0
  /\ idbPending failed = []
  /\ messages failed = messages b0 ++ [requestFailed (requestOf c)]
  /\ _inMemoryData reloaded.1 = idbStore b0
  /\ (forall key, getItem key reloaded.1 = idbStore b0 !! key).
Proof.
  intros Hidle opened used failed reloaded.
  destruct (initialize_hydrates databaseName database b0) as (Hdb & Hmem & Hb).
  fold opened in Hdb, Hmem, Hb.
  destruct (call_mirror opened c) as [_ Hused]. fold used in Hused.
  pose proof (call_issues_request opened c database Hdb) as Hissue. fold used in Hissue.
  assert (Hfailed : failed = {| idbStore := idbStore b0;
                                idbPending := [];
                                messages := messages b0 ++ [requestFailed (requestOf c)] |}).
  { subst failed. rewrite Hissue, Hb. unfold completeRequest, issue. simpl.
    by rewrite Hidle. }
  destruct (initialize_hydrates databaseName database failed) as (_ & Hmem' & _).
  fold reloaded in Hmem'.
  split; [by rewrite Hused, Hmem|].
  rewrite Hfailed in *. simpl in *. repeat split; try done.
  intros key. by rewrite getItem_lookup, Hmem'.
Qed.

(** The theorem at a [setItem] on an empty store: the value is read from
    the first instance and is gone after the reload. *)
Lemma failed_write_is_dropped_witness :
  let b0 := {| idbStore := ∅; idbPending := []; messages := [] |} in
  let opened := initializeFakeLocalStorage (js "db") (OpenSucceeds (Database (js "db")) None) b0 in
  let used := call opened (CallSetItem (js "k") (js "v")) in
  let reloaded := initializeFakeLocalStorage (js "db") (OpenSucceeds (Database (js "db")) None)
                    (completeRequest false used.2) in
  getItem (js "k") used.1 = Some (js "v") /\ getItem (js "k") reloaded.1 = None.
Proof.
  intros b0 opened used reloaded. split; [reflexivity|].
  destruct (failed_write_is_dropped (js "db") (Database (js "db")) b0
              (CallSetItem (js "k") (js "v")) eq_refl) as (_ & _ & _ & _ & _ & Hread).
  fold opened used reloaded in Hread. by rewrite Hread.
Defined.

(** X17. When the cursor over the stored entries fails part-way, the
    instance keeps the database and what was read so far: every key it has
    in memory has the value of the store, one line is printed, and the store
    and the pending requests are as they were. If it fails before the first
    entry the instance starts empty, whatever the store holds; if it fails
    only after the last one the instance holds the whole store. *)
Theorem partial_hydration (databaseName : JsString) (database : IDBDatabase) (b : Browser)
    (n : nat) :
  let opened := initializeFakeLocalStorage databaseName (OpenSucceeds database (Some n)) b in
  _database opened.1 = Some database
  /\ _inMemoryData opened.1 ⊆ idbStore b
  /\ (forall key value, getItem key opened.1 = Some value -> idbStore b !! key = Some value)
  /\ (n = 0 -> _inMemoryData opened.1 = ∅)
  /\ (size (idbStore b) <= n -> _inMemoryData opened.1 = idbStore b)
  /\ messages opened.2
     = messages b ++ [js "Couldn't load data previously stored in IndexedDB database."]
  /\ idbStore opened.2 = idbStore b
  /\ idbPending opened.2 = idbPending b.
Proof.
  intros opened. subst opened.
  unfold initializeFakeLocalStorage, _initialize. simpl.
  set (entries := map_to_list (idbStore b)).
  destruct (read_entries (take n entries)
              (withDatabase (newFakeLocalStorage databaseName) database)) as [Hdb Hmem].
  simpl in Hdb, Hmem.
  assert (Hnodup : NoDup (take n entries).*1).
  { rewrite fmap_take. eapply sublist_NoDup; [|apply sublist_take].
    apply NoDup_fst_map_to_list. }
  assert (Hlookup : forall key value,
             foldl (fun m entry => <[entry.1 := entry.2]> m)
               (∅ : gmap JsString JsString) (take n entries) !! key = Some value ->
             idbStore b !! key = Some value).
  { intros key value Hkv. rewrite foldl_insert_lookup in Hkv by done.
    rewrite lookup_empty in Hkv.
    destruct (list_to_map (take n entries) !! key) as [x|] eqn:Hx; [|done].
    injection Hkv as ->.
    apply elem_of_list_to_map_2 in Hx. apply subseteq_take in Hx.
    by apply elem_of_map_to_list in Hx. }
  split; [exact Hdb|]. split.
  { rewrite Hmem. apply map_subseteq_spec. exact Hlookup. }
  split.
  { intros key value. rewrite getItem_lookup, Hmem. apply Hlookup. }
  split.
  { intros ->. by rewrite Hmem. }
  split.
  { intros Hsize. rewrite Hmem. apply map_eq. intros key.
    rewrite take_ge by (subst entries; by rewrite length_map_to_list).
    rewrite foldl_insert_lookup by apply NoDup_fst_map_to_list.
    subst entries. rewrite list_to_map_to_list, lookup_empty.
    by destruct (idbStore b !! key). }
  done.
Qed.
